(** * p2poolv2/stats: the snapshot ingestion scripts

    A shallow embedding of the scripts that read [pool_stats.json] and
    write the pool, user and worker rows:

    - [src/unnamed/part_001] and [src/scripts/seed.ts] (pool rollup and the
      top-10 users),
    - [src/scripts/updateUsersFromLogs.js] (the sequential per-user script
      and the batched, transactional one),
    - [lib/db.ts], as [src/README.md] carries it (the shared connection).

    JavaScript numbers are IEEE 754 binary64 values; they are modelled by
    [spec_float] with the binary64 parameters, so that overflow, signed
    zeros, infinities and NaN are those of the running program. *)

From Stdlib Require Import ZArith QArith Qround Qabs Lia List String.
From Stdlib Require Import Floats.SpecFloat DecimalString DecimalZ Sorted.
From stdpp Require Import gmap strings list fin_maps.
From Equations Require Import Equations.

Local Open Scope Z_scope.

(** ** JavaScript values *)

Module JS.

(** [number]: a binary64 value. *)
Abbreviation number := spec_float.

Definition prec : Z := 53.
Definition emax : Z := 1024.

Definition mul : number -> number -> number := SFmul prec emax.
Definition sub : number -> number -> number := SFsub prec emax.
Definition div : number -> number -> number := SFdiv prec emax.

(** The number whose value is the integer [z], rounded to nearest even
    when [z] needs more than 53 bits. *)
Definition of_Z (z : Z) : number := binary_normalize prec emax z 0 false.

(** A [spec_float] is a binary64 value when its mantissa and exponent are
    the canonical ones. *)
Definition is_double (x : number) : Prop := valid_binary prec emax x = true.

Definition pos_zero : number := S754_zero false.
Definition neg_infinity : number := S754_infinity true.

(** [undefined], [null], or a value: the type of an optional JSON member
    and of a parameter declared [v?: T | null]. *)
Inductive nullable (A : Type) : Type :=
| Undefined
| Null
| Def (a : A).
Arguments Undefined {A}.
Arguments Null {A}.
Arguments Def {A} a.

(** [v ?? d] *)
Definition nullish {A} (v : nullable A) (d : A) : A :=
  match v with Def a => a | _ => d end.

(** [o?.f]: member access through a possibly missing object. *)
Definition opt_member {A B} (o : nullable A) (f : A -> nullable B) : nullable B :=
  match o with Def a => f a | _ => Undefined end.

(** ToBoolean on a number: [0], [-0] and [NaN] are falsy. *)
Definition truthy (x : number) : bool :=
  match x with
  | S754_zero _ | S754_nan => false
  | _ => true
  end.

(** [v || 0] for an optional number; the result is a number, on which
    [Number(...)] is the identity. *)
Definition or_zero (v : nullable number) : number :=
  match v with
  | Def x => if truthy x then x else pos_zero
  | _ => pos_zero
  end.

(** The errors a run can meet. *)
Inductive error : Type :=
| RangeError                      (* BigInt of a non-integral number *)
| FileError                       (* readFileSync failed *)
| SyntaxError                     (* JSON.parse failed *)
| ConnectionError                 (* getDb() rejected *)
| QueryError                      (* a storage call rejected *)
| DestroyError                    (* db.destroy() rejected *)
| ReadFailure (cause : error).    (* "Failed to read P2Pool JSON file: ..." *)

Inductive result (A : Type) : Type :=
| Ok (a : A)
| Throw (e : error).
Arguments Ok {A} a.
Arguments Throw {A} e.

(** IsIntegralNumber: finite, with no fractional part. *)
Definition is_integral (x : number) : bool :=
  match x with
  | S754_zero _ => true
  | S754_finite _ m (Zneg k) => Z.pos m mod 2 ^ Z.pos k =? 0
  | S754_finite _ _ _ => true
  | _ => false
  end.

(** The mathematical value of an integral number. *)
Definition integral_value (x : number) : Z :=
  match x with
  | S754_finite s m (Zneg k) => cond_Zopp s (Z.pos m / 2 ^ Z.pos k)
  | S754_finite s m e => cond_Zopp s (Z.pos m * 2 ^ e)
  | _ => 0
  end.

(** [floor (n * 2^e + 1/2)] for an integer [n]. *)
Definition floor_half (n e : Z) : Z :=
  match e with
  | Zneg k => (2 * n + 2 ^ Z.pos k) / 2 ^ (Z.pos k + 1)
  | _ => n * 2 ^ e
  end.

(** [Math.round]: a non-finite or integral argument is returned as it is;
    otherwise the closest integer, the one towards +Infinity on a tie,
    and a zero of the argument's sign when that integer is 0. *)
Definition Math_round (x : number) : number :=
  match x with
  | S754_finite s m e =>
      if is_integral x then x
      else
        let z := floor_half (cond_Zopp s (Z.pos m)) e in
        if z =? 0 then S754_zero s else of_Z z
  | _ => x
  end.

(** [BigInt(x)] on a number: a RangeError unless [x] is integral. *)
Definition BigInt (x : number) : result Z :=
  if is_integral x then Ok (integral_value x) else Throw RangeError.

(** The rational value of a finite number (0 for the others). *)
Definition to_Q (x : number) : Q :=
  match x with
  | S754_finite s m (Zneg k) => cond_Zopp s (Z.pos m) # 2 ^ k
  | S754_finite s m e => inject_Z (cond_Zopp s (Z.pos m) * 2 ^ e)
  | _ => 0%Q
  end.

Definition is_finite (x : number) : bool :=
  match x with
  | S754_zero _ | S754_finite _ _ _ => true
  | _ => false
  end.

Definition is_nan (x : number) : bool :=
  match x with S754_nan => true | _ => false end.

(** [floor (n * 2^e)] for an integer [n]. *)
Definition floor_Z (n e : Z) : Z :=
  match e with
  | Zneg k => n / 2 ^ Z.pos k
  | _ => n * 2 ^ e
  end.

(** [Math.floor]. *)
Definition Math_floor (x : number) : number :=
  match x with
  | S754_finite s m e =>
      if is_integral x then x else of_Z (floor_Z (cond_Zopp s (Z.pos m)) e)
  | _ => x
  end.

(** One step of [Math.max]: [+0] is larger than [-0], otherwise [>]. *)
Definition max_step (highest x : number) : number :=
  match highest, x with
  | S754_zero true, S754_zero false => x
  | _, _ => if SFltb highest x then x else highest
  end.

(** [Math.max(...l)]: NaN if an argument is NaN, -Infinity for no
    argument. *)
Definition Math_max (l : list number) : number :=
  if existsb is_nan l then S754_nan else fold_left max_step l neg_infinity.

(** [BigInt.prototype.toString()]: the decimal digits. *)
Definition BigInt_toString (z : Z) : string :=
  NilEmpty.string_of_int (Z.to_int z).

(** [BigInt(s)] on a string; only the signed decimal syntax is modelled,
    which is what [BigInt_toString] produces. *)
Definition BigInt_of_string (s : string) : result Z :=
  match NilEmpty.int_of_string s with
  | Some d => Ok (Z.of_int d)
  | None => Throw SyntaxError
  end.

(** The sign of a comparator's result as [Array.prototype.sort] reads it:
    negative, positive, or neither (zero and NaN). *)
Definition comparator_sign (v : number) : comparison :=
  match v with
  | S754_finite s _ _ | S754_infinity s => if s then Lt else Gt
  | _ => Eq
  end.

(** [Array.prototype.sort(comparefn)]: the stable sort the language
    requires, written as an insertion sort. An element moves behind the
    ones it compares greater than, and stays in front of the others. *)
Fixpoint sort_insert {A} (comparefn : A -> A -> number) (x : A) (l : list A) : list A :=
  match l with
  | [] => [x]
  | y :: l' =>
      match comparator_sign (comparefn x y) with
      | Gt => y :: sort_insert comparefn x l'
      | _ => x :: l
      end
  end.

Definition Array_sort {A} (comparefn : A -> A -> number) (l : list A) : list A :=
  foldr (sort_insert comparefn) [] l.

(** [l.slice(i, j)] for [0 <= i <= j]. *)
Definition slice {A} (l : list A) (i j : nat) : list A := take (j - i) (drop i l).

(** The values a row's columns hold. *)
Inductive value : Type :=
| VNumber (x : number)
| VBigInt (z : Z)
| VString (s : string)
| VBool (b : bool)
| VDate (time : number)     (* new Date(time) *)
| VId (id : Z).             (* a generated row id *)

(** An entity object: its assigned properties. *)
Abbreviation object := (gmap string value).

(** What the scripts call and is neither in [src/] nor modelled here. *)
Record externals : Type := {
  (* Number::toString on a number that is not a safe integer *)
  number_text : number -> string;
  (* the global parseFloat *)
  parseFloat : string -> number;
  (* convertHashrate of ../utils/helpers *)
  convertHashrate : string -> result Z;
}.

(** [String(x)] and [x.toString()] on a number. *)
Definition Number_toString (X : externals) (x : number) : string :=
  match x with
  | S754_nan => "NaN"
  | S754_zero _ => "0"
  | S754_infinity false => "Infinity"
  | S754_infinity true => "-Infinity"
  | S754_finite _ _ _ =>
      if is_integral x && (Z.abs (integral_value x) <? 2 ^ 53)
      then BigInt_toString (integral_value x)
      else number_text X x
  end.

(** [String(s || 0)] and [s || '0'] for an optional string: the same text,
    the empty string being falsy. *)
Definition String_or_zero (s : nullable string) : string :=
  match s with
  | Def t => if String.eqb t "" then "0" else t
  | _ => "0"
  end.

End JS.

Import JS.

(** ** The snapshot document ([pool_stats.json])

    The interfaces of the scripts, merged: each script declares the
    members it reads. An object's members are listed in the order
    [Object.entries] yields them. *)

Module ComputedHashRate.
Record t : Type := mk {
  hashrate_1m : nullable number;
  hashrate_5m : nullable number;
  hashrate_15m : nullable number;
  hashrate_1hr : nullable number;
  hashrate_6hr : nullable number;
  hashrate_1d : nullable number;
  hashrate_7d : nullable number;
}.
(** The object [{}]. *)
Definition empty : t :=
  mk Undefined Undefined Undefined Undefined Undefined Undefined Undefined.
End ComputedHashRate.

Module ShareRate.
Record t : Type := mk {
  shares_per_second_1m : nullable number;
  shares_per_second_5m : nullable number;
  shares_per_second_15m : nullable number;
  shares_per_second_1h : nullable number;
}.
End ShareRate.

Module P2PoolWorker.
Record t : Type := mk {
  computed_hash_rate : nullable ComputedHashRate.t;
  lastshare : nullable number;
  shares : nullable string;
  bestshare : nullable string;
  bestever : nullable string;
}.
End P2PoolWorker.

Module P2PoolUser.
Record t : Type := mk {
  computed_hash_rate : nullable ComputedHashRate.t;
  workers : nullable (list (string * P2PoolWorker.t));
  shares : nullable string;
  bestshare : nullable string;
  bestever : nullable string;
  authorised : nullable number;
}.
End P2PoolUser.

Module P2PoolJson.
Record t : Type := mk {
  start_time : nullable number;
  lastupdate : nullable number;
  num_users : nullable number;
  num_workers : nullable number;
  num_idle_users : nullable number;
  accepted : nullable number;
  rejected : nullable number;
  bestshare : nullable number;
  difficulty : nullable number;
  users : nullable (list (string * P2PoolUser.t));
  computed_hashrate : nullable ComputedHashRate.t;
  computed_share_rate : nullable ShareRate.t;
}.
End P2PoolJson.

(** [Object.entries(o || {})] *)
Definition entries {A} (o : nullable (list (string * A))) : list (string * A) :=
  nullish o [].

(** [Object.values(o || {})] *)
Definition values {A} (o : nullable (list (string * A))) : list A :=
  (entries o).*2.

(** ** The storage backend and the run's environment

    The entity classes and TypeORM are outside [src/]; the model keeps
    what the scripts rely on: [save] inserts a row or merges the assigned
    properties into the row with the same key, [findOne] returns the
    first matching row, and [db.transaction] commits the writes made
    through its manager when the callback resolves and discards them when
    it rejects. [getDb] is the one of [lib/db.ts]; a script calls it
    once. *)

Inductive table : Type := TUser | TUserStats | TWorker | TWorkerStats | TPoolStats.

Inductive query : Type :=
| Find (t : table) (where_ : object)
| Save (t : table) (entity : object).

Record store : Type := mkStore {
  users : gmap string object;     (* User rows by address *)
  userStats : list object;        (* UserStats rows, oldest first *)
  workers : list object;          (* Worker rows, each with its "id" *)
  workerStats : list object;      (* WorkerStats rows, oldest first *)
  poolStats : list object;        (* PoolStats rows, oldest first *)
}.

Definition empty_store : store := mkStore ∅ [] [] [] [].

Inductive file_state : Type :=
| Unreadable                      (* readFileSync throws *)
| Malformed                       (* JSON.parse throws *)
| Parsed (json : P2PoolJson.t).

Record environment : Type := mkEnv {
  file : file_state;              (* pool_stats.json *)
  now : number;                   (* Date.now() *)
  connects : bool;                (* getDb() resolves *)
  fault : query -> bool;          (* the storage calls that reject *)
  destroys : bool;                (* db.destroy() resolves *)
  (* In a batch that has rejected, the members whose transaction still
     reaches its commit before the connection is destroyed. *)
  survives : string -> bool;
  (* The time at which the transaction of an address settles, counted
     from the start of its batch. *)
  settled_at : string -> nat;
}.

(** The state a script runs in: the committed rows, the rows as the
    open transaction sees them, the Worker id sequence, whether the
    script's local [db] is assigned, and what [console.error] printed. *)
Record world : Type := mkWorld {
  committed : store;
  working : store;
  worker_seq : Z;
  db : bool;
  stderr : list error;
}.

(** A run starts on the database [s], whose Worker sequence is at
    [next_id]. *)
Definition initial_world (s : store) (next_id : Z) : world :=
  mkWorld s s next_id false [].

Definition set_committed (s : store) (w : world) : world :=
  mkWorld s (working w) (worker_seq w) (db w) (stderr w).
Definition set_working (s : store) (w : world) : world :=
  mkWorld (committed w) s (worker_seq w) (db w) (stderr w).
Definition set_worker_seq (n : Z) (w : world) : world :=
  mkWorld (committed w) (working w) n (db w) (stderr w).
Definition set_db (b : bool) (w : world) : world :=
  mkWorld (committed w) (working w) (worker_seq w) b (stderr w).
Definition add_stderr (e : error) (w : world) : world :=
  mkWorld (committed w) (working w) (worker_seq w) (db w) (stderr w ++ [e]).

(** *** Computations: state, and an error that unwinds to the nearest
    [catch] *)

Definition M (A : Type) : Type := world -> result A * world.

#[export] Instance result_ret : MRet result := fun A a => Ok a.
#[export] Instance result_bind : MBind result := fun A B f r =>
  match r with Ok a => f a | Throw e => Throw e end.

#[export] Instance M_ret : MRet M := fun A a w => (Ok a, w).
#[export] Instance M_bind : MBind M := fun A B f m w =>
  match m w with
  | (Ok a, w') => f a w'
  | (Throw e, w') => (Throw e, w')
  end.

Definition lift {A} (r : result A) : M A := fun w => (r, w).
Definition throw {A} (e : error) : M A := lift (Throw e).
Definition get_world : M world := fun w => (Ok w, w).
Definition modify (f : world -> world) : M unit := fun w => (Ok tt, f w).

(** [try { body } catch (e) { handler e }] *)
Definition try_catch {A} (body : M A) (handler : error -> M A) : M A := fun w =>
  match body w with
  | (Ok a, w') => (Ok a, w')
  | (Throw e, w') => handler e w'
  end.

(** [try { body } finally { fin }]: an error of [fin] replaces the
    outcome of [body]. *)
Definition try_finally {A} (body : M A) (fin : M unit) : M A := fun w =>
  let '(r, w') := body w in
  match fin w' with
  | (Ok _, w'') => (r, w'')
  | (Throw e, w'') => (Throw e, w'')
  end.

Definition console_error (e : error) : M unit := modify (add_stderr e).

(** [for (const x of l) body] *)
Fixpoint for_of {A} (l : list A) (body : A -> M unit) : M unit :=
  match l with
  | [] => mret tt
  | x :: l' => body x ≫= fun _ => for_of l' body
  end.

(** Where a repository comes from: [db.getRepository(E)] writes are
    committed one by one; [manager.getRepository(E)] writes belong to the
    transaction that owns the manager. *)
Inductive handle : Type := DataSource | EntityManager.

Definition view (h : handle) (w : world) : store :=
  match h with DataSource => committed w | EntityManager => working w end.

Definition set_view (h : handle) (s : store) : world -> world :=
  match h with DataSource => set_committed s | EntityManager => set_working s end.

Definition string_of (v : option value) : option string :=
  match v with Some (VString s) => Some s | _ => None end.

Definition id_of (v : option value) : option Z :=
  match v with Some (VId id) => Some id | _ => None end.

Section Backend.

Variable env : environment.

(** A storage call: rejects when the environment says so. *)
Definition run_query (q : query) : M unit :=
  if fault env q then throw QueryError else mret tt.

(** [userRepository.findOne({ where: { address } })] *)
Definition User_findOne (h : handle) (address : string) : M (option object) :=
  _ ← run_query (Find TUser {[ "address" := VString address ]});
  w ← get_world;
  mret (users (view h w) !! address).

(** [userRepository.save(entity)]: the row keyed by the entity's address
    takes the entity's properties. *)
Definition User_save (h : handle) (entity : object) : M object :=
  _ ← run_query (Save TUser entity);
  match string_of (entity !! "address") with
  | None => throw QueryError
  | Some address =>
      w ← get_world;
      let s := view h w in
      let row := entity ∪ default ∅ (users s !! address) in
      _ ← modify (set_view h (mkStore (<[address := row]> (users s)) (userStats s)
                                (workers s) (workerStats s) (poolStats s)));
      mret row
  end.

(** [userStatsRepository.save(entity)]: a new row. *)
Definition UserStats_save (h : handle) (entity : object) : M object :=
  _ ← run_query (Save TUserStats entity);
  w ← get_world;
  let s := view h w in
  _ ← modify (set_view h (mkStore (users s) (userStats s ++ [entity])
                            (workers s) (workerStats s) (poolStats s)));
  mret entity.

Definition is_worker (address name : string) (row : object) : bool :=
  bool_decide (string_of (row !! "userAddress") = Some address
               ∧ string_of (row !! "name") = Some name).

(** [workerRepository.findOne({ where: { userAddress, name } })] *)
Definition Worker_findOne (h : handle) (address name : string) : M (option object) :=
  _ ← run_query (Find TWorker
        (<[ "userAddress" := VString address ]> {[ "name" := VString name ]}));
  w ← get_world;
  mret (List.find (is_worker address name) (workers (view h w))).

Definition has_id (id : Z) (row : object) : bool :=
  bool_decide (id_of (row !! "id") = Some id).

(** [workerRepository.save(entity)]: an entity that carries an id (the
    scripts only save an id they have just read) updates the row of that
    id; an entity without one is inserted under the next id of the
    sequence. The saved entity is returned with its id. *)
Definition Worker_save (h : handle) (entity : object) : M object :=
  _ ← run_query (Save TWorker entity);
  w ← get_world;
  let s := view h w in
  match id_of (entity !! "id") with
  | Some id =>
      let rows := (fun row => if has_id id row then entity ∪ row else row) <$> workers s in
      _ ← modify (set_view h (mkStore (users s) (userStats s) rows
                                (workerStats s) (poolStats s)));
      mret entity
  | None =>
      let saved := <[ "id" := VId (worker_seq w) ]> entity in
      _ ← modify (set_worker_seq (worker_seq w + 1));
      _ ← modify (set_view h (mkStore (users s) (userStats s) (workers s ++ [saved])
                                (workerStats s) (poolStats s)));
      mret saved
  end.

(** [workerStatsRepository.save(entity)]: a new row. *)
Definition WorkerStats_save (h : handle) (entity : object) : M object :=
  _ ← run_query (Save TWorkerStats entity);
  w ← get_world;
  let s := view h w in
  _ ← modify (set_view h (mkStore (users s) (userStats s) (workers s)
                            (workerStats s ++ [entity]) (poolStats s)));
  mret entity.

(** [poolStatsRepository.save(entity)]: a new row. *)
Definition PoolStats_save (h : handle) (entity : object) : M object :=
  _ ← run_query (Save TPoolStats entity);
  w ← get_world;
  let s := view h w in
  _ ← modify (set_view h (mkStore (users s) (userStats s) (workers s)
                            (workerStats s) (poolStats s ++ [entity])));
  mret entity.

(** [db.transaction(async (manager) => body)]: the manager starts from
    the committed rows; its writes are committed when [body] resolves and
    dropped when it rejects. With [reaches_commit = false] the connection
    is gone before the commit and the writes are dropped as well. *)
Definition transaction {A} (reaches_commit : bool) (body : M A) : M A := fun w =>
  match body (set_working (committed w) w) with
  | (Ok a, w') =>
      if reaches_commit then (Ok a, set_committed (working w') w')
      else (Throw ConnectionError, set_working (committed w') w')
  | (Throw e, w') => (Throw e, set_working (committed w') w')
  end.

(** [readFileSync(path, 'utf-8')] followed by [JSON.parse]. *)
Definition read_and_parse : M P2PoolJson.t :=
  match file env with
  | Unreadable => throw FileError
  | Malformed => throw SyntaxError
  | Parsed json => mret json
  end.

(** [await getDb()], the first call of the process: the promise of
    [AppDataSource.initialize()] is awaited; when it rejects, the [catch]
    handler of [lib/db.ts] prints the error and throws it again. *)
Definition getDb : M unit :=
  if connects env then mret tt
  else _ ← console_error ConnectionError; throw ConnectionError.

(** [await db.destroy()] *)
Definition destroy : M unit :=
  if destroys env then mret tt else throw DestroyError.

(** [new Date((lastupdate ?? Math.floor(Date.now() / 1000)) * 1000)] *)
Definition snapshot_date (lastupdate : nullable number) : value :=
  VDate (mul (nullish lastupdate (Math_floor (div (now env) (of_Z 1000)))) (of_Z 1000)).

End Backend.

(** ** Hashrate scaling ([scaleHashrate]) *)

(** [const HASHRATE_FACTOR = Math.pow(2, 32)], which is 4294967296. *)
Definition HASHRATE_FACTOR : number := of_Z (2 ^ 32).

(** [BigInt(Math.round(Number(value || 0) * HASHRATE_FACTOR))], as in
    [src/scripts/updateUsersFromLogs.js]; the copies in
    [src/unnamed/part_001] and [src/scripts/seed.ts] print this integer in
    decimal with [.toString()]. *)
Definition scaleHashrate (value : nullable number) : result Z :=
  BigInt (Math_round (mul (or_zero value) HASHRATE_FACTOR)).

(** [BigInt(Math.round(Number(value || 0) * HASHRATE_FACTOR)).toString()],
    as in [src/unnamed/part_001] and [src/scripts/seed.ts]. *)
Definition scaleHashrate_text (value : nullable number) : result string :=
  z ← scaleHashrate value; mret (BigInt_toString z).

(** The spec's [normalize]: [round(rawValue * 2^32)], an absent or null
    value counting as 0. Ties go up, which for the non-negative values of
    the spec is rounding half away from zero. *)
Definition spec_normalize (rawValue : nullable number) : Z :=
  match rawValue with
  | Def r => Qfloor (to_Q r * inject_Z (2 ^ 32) + (1 # 2))
  | _ => 0
  end.

(** An argument the function can receive: none, or a binary64 value. *)
Definition representable (v : nullable number) : Prop :=
  match v with Def x => is_double x | _ => True end.

(** The arguments whose product with 2^32 is a finite binary64 value:
    everything but the infinities and the magnitudes from 2^992 on. *)
Definition scales_finitely (v : nullable number) : Prop :=
  match v with
  | Def (S754_infinity _) => False
  | Def x => (Qabs (to_Q x) < inject_Z (2 ^ 992))%Q
  | _ => True
  end.

(** [!v] for an optional object. *)
Definition missing {A} (v : nullable A) : bool :=
  match v with Def _ => false | _ => true end.

(** The hashrate fields [p2poolToCkpool] scales, in [src/unnamed/part_001]
    (lines 94-111) and [src/scripts/seed.ts] (lines 86-100):
<<
  let hashrateFields = p2pool.computed_hashrate;
  if (!hashrateFields && usersList.length > 0)
    hashrateFields = usersList[0].computed_hash_rate;
  if (!hashrateFields && usersList.length > 0) {
    const workers = Object.values(usersList[0].workers || {});
    if (workers.length > 0 && workers[0].computed_hash_rate)
      hashrateFields = workers[0].computed_hash_rate;
  }
  if (!hashrateFields) hashrateFields = {};
>> *)
Definition hashrateFields (p2pool : P2PoolJson.t) : ComputedHashRate.t :=
  let usersList := values (P2PoolJson.users p2pool) in
  let fields := P2PoolJson.computed_hashrate p2pool in
  let fields :=
    match usersList with
    | u :: _ => if missing fields then P2PoolUser.computed_hash_rate u else fields
    | [] => fields
    end in
  let fields :=
    match usersList with
    | u :: _ =>
        if missing fields then
          match values (P2PoolUser.workers u) with
          | w :: _ =>
              if missing (P2PoolWorker.computed_hash_rate w) then fields
              else P2PoolWorker.computed_hash_rate w
          | [] => fields
          end
        else fields
    | [] => fields
    end in
  nullish fields ComputedHashRate.empty.

(** The seven scaled hashrates, in the order the object literal of
    [p2poolToCkpool] evaluates them. *)
Record scaled_hashrates : Type := mkScaled {
  scaled_1m : string;
  scaled_5m : string;
  scaled_15m : string;
  scaled_1hr : string;
  scaled_6hr : string;
  scaled_1d : string;
  scaled_7d : string;
}.

Definition scale_fields (f : ComputedHashRate.t) : result scaled_hashrates :=
  h1m ← scaleHashrate_text (ComputedHashRate.hashrate_1m f);
  h5m ← scaleHashrate_text (ComputedHashRate.hashrate_5m f);
  h15m ← scaleHashrate_text (ComputedHashRate.hashrate_15m f);
  h1hr ← scaleHashrate_text (ComputedHashRate.hashrate_1hr f);
  h6hr ← scaleHashrate_text (ComputedHashRate.hashrate_6hr f);
  h1d ← scaleHashrate_text (ComputedHashRate.hashrate_1d f);
  h7d ← scaleHashrate_text (ComputedHashRate.hashrate_7d f);
  mret (mkScaled h1m h5m h15m h1hr h6hr h1d h7d).

(** The spec's fallback chain: the document's own computed rollup; else
    the first user's aggregate; else the first user's first worker's
    aggregate; else all-zero (every field absent, which scales to 0). *)
Definition spec_fallback (p2pool : P2PoolJson.t) : ComputedHashRate.t :=
  match P2PoolJson.computed_hashrate p2pool, values (P2PoolJson.users p2pool) with
  | Def rollup, _ => rollup
  | _, user :: _ =>
      match P2PoolUser.computed_hash_rate user, values (P2PoolUser.workers user) with
      | Def aggregate, _ => aggregate
      | _, worker :: _ =>
          nullish (P2PoolWorker.computed_hash_rate worker) ComputedHashRate.empty
      | _, [] => ComputedHashRate.empty
      end
  | _, [] => ComputedHashRate.empty
  end.

(** The hashrate columns of a PoolStats row that records [f] scaled: each
    field through [scaleHashrate], as an integer. *)
Definition recorded_columns (f : ComputedHashRate.t) : result object :=
  h1m ← scaleHashrate (ComputedHashRate.hashrate_1m f);
  h5m ← scaleHashrate (ComputedHashRate.hashrate_5m f);
  h15m ← scaleHashrate (ComputedHashRate.hashrate_15m f);
  h1hr ← scaleHashrate (ComputedHashRate.hashrate_1hr f);
  h6hr ← scaleHashrate (ComputedHashRate.hashrate_6hr f);
  h1d ← scaleHashrate (ComputedHashRate.hashrate_1d f);
  h7d ← scaleHashrate (ComputedHashRate.hashrate_7d f);
  mret (list_to_map
          [("hashrate1m", VBigInt h1m); ("hashrate5m", VBigInt h5m);
           ("hashrate15m", VBigInt h15m); ("hashrate1hr", VBigInt h1hr);
           ("hashrate6hr", VBigInt h6hr); ("hashrate1d", VBigInt h1d);
           ("hashrate7d", VBigInt h7d)]).

(** [interface PoolStatsData]; [diff] and the share rates are strings in
    [src/unnamed/part_001] and numbers in [src/scripts/seed.ts]. *)
Module PoolStatsData.
Record t : Type := mk {
  runtime : number;
  users : number;
  workers : number;
  idle : number;
  disconnected : number;
  hashrate : scaled_hashrates;    (* hashrate1m .. hashrate7d *)
  diff : value;
  accepted : string;
  rejected : string;
  bestshare : string;
  SPS1m : value;
  SPS5m : value;
  SPS15m : value;
  SPS1h : value;
  timestamp : value;
}.
End PoolStatsData.

(** The seven [hashrateNN: BigInt(stats.hashrateNN)] properties. *)
Definition bigint_columns (h : scaled_hashrates) : result object :=
  h1m ← BigInt_of_string (scaled_1m h);
  h5m ← BigInt_of_string (scaled_5m h);
  h15m ← BigInt_of_string (scaled_15m h);
  h1hr ← BigInt_of_string (scaled_1hr h);
  h6hr ← BigInt_of_string (scaled_6hr h);
  h1d ← BigInt_of_string (scaled_1d h);
  h7d ← BigInt_of_string (scaled_7d h);
  mret (list_to_map
          [("hashrate1m", VBigInt h1m); ("hashrate5m", VBigInt h5m);
           ("hashrate15m", VBigInt h15m); ("hashrate1hr", VBigInt h1hr);
           ("hashrate6hr", VBigInt h6hr); ("hashrate1d", VBigInt h1d);
           ("hashrate7d", VBigInt h7d)]).

(** The properties of the created PoolStats entity other than the
    hashrates. *)
Definition plain_columns (stats : PoolStatsData.t) : object :=
  list_to_map
    [("runtime", VNumber (PoolStatsData.runtime stats));
     ("users", VNumber (PoolStatsData.users stats));
     ("workers", VNumber (PoolStatsData.workers stats));
     ("idle", VNumber (PoolStatsData.idle stats));
     ("disconnected", VNumber (PoolStatsData.disconnected stats));
     ("diff", PoolStatsData.diff stats);
     ("accepted", VString (PoolStatsData.accepted stats));
     ("rejected", VString (PoolStatsData.rejected stats));
     ("bestshare", VString (PoolStatsData.bestshare stats));
     ("SPS1m", PoolStatsData.SPS1m stats);
     ("SPS5m", PoolStatsData.SPS5m stats);
     ("SPS15m", PoolStatsData.SPS15m stats);
     ("SPS1h", PoolStatsData.SPS1h stats);
     ("timestamp", PoolStatsData.timestamp stats)].

(** The process exit status. *)
Definition exit_status : Type := Z.

(** ** [src/unnamed/part_001]: the pool rollup *)

Module Part001.
Section Script.

Variable X : externals.
Variable env : environment.

(** [String(v ?? '0')] for an optional number. *)
Definition String_or_0 (v : nullable number) : string :=
  match v with Def x => Number_toString X x | _ => "0" end.

Definition readP2PoolJson : M P2PoolJson.t :=
  try_catch (read_and_parse env) (fun e => throw (ReadFailure e)).

Definition p2poolToCkpool (p2pool : P2PoolJson.t) : result PoolStatsData.t :=
  h ← scale_fields (hashrateFields p2pool);
  let rate := P2PoolJson.computed_share_rate p2pool in
  mret (PoolStatsData.mk
    (nullish (P2PoolJson.start_time p2pool) pos_zero)
    (nullish (P2PoolJson.num_users p2pool) pos_zero)
    (nullish (P2PoolJson.num_workers p2pool) pos_zero)
    (nullish (P2PoolJson.num_idle_users p2pool) pos_zero)
    pos_zero
    h
    (VString (String_or_0 (P2PoolJson.difficulty p2pool)))
    (String_or_0 (P2PoolJson.accepted p2pool))
    (String_or_0 (P2PoolJson.rejected p2pool))
    (String_or_0 (P2PoolJson.bestshare p2pool))
    (VString (String_or_0 (opt_member rate ShareRate.shares_per_second_1m)))
    (VString (String_or_0 (opt_member rate ShareRate.shares_per_second_5m)))
    (VString (String_or_0 (opt_member rate ShareRate.shares_per_second_15m)))
    (VString (String_or_0 (opt_member rate ShareRate.shares_per_second_1h)))
    (snapshot_date env (P2PoolJson.lastupdate p2pool))).

Definition fetchPoolStats : M PoolStatsData.t :=
  p2poolJson ← readP2PoolJson;
  lift (p2poolToCkpool p2poolJson).

(** [async function seed()]: whatever the [try] block throws is printed
    by the [catch] block, and [seed] resolves. *)
Definition seed : M unit :=
  try_finally
    (try_catch
       (stats ← fetchPoolStats;
        _ ← getDb env;
        _ ← modify (set_db true);
        hashrates ← lift (bigint_columns (PoolStatsData.hashrate stats));
        let poolStats := hashrates ∪ plain_columns stats in
        _ ← PoolStats_save env DataSource poolStats;
        mret tt)
       (fun error => console_error error))
    (w ← get_world; if db w then destroy env else mret tt).

(** The script's top level:
<<
  try { await seed(); console.log('Seeding completed successfully.'); }
  catch (error) { console.error(...); process.exit(1); }
>> *)
Definition main (w : world) : exit_status * world :=
  match seed w with
  | (Ok _, w') => (0, w')
  | (Throw e, w') => (1, add_stderr e w')
  end.

End Script.
End Part001.

(** ** [src/scripts/seed.ts]: the pool rollup and the top ten users *)

Module Ranked.
Record t : Type := mk {
  address : string;
  hashrate : number;
  raw : P2PoolUser.t;
}.
End Ranked.

Module Seed.
Section Script.

Variable X : externals.
Variable env : environment.

Definition readP2PoolJson : M P2PoolJson.t := read_and_parse env.

(** [String(v ?? 0)] *)
Definition String_or_0 (v : nullable number) : string :=
  Number_toString X (nullish v pos_zero).

Definition p2poolToCkpool (p2pool : P2PoolJson.t) : result PoolStatsData.t :=
  h ← scale_fields (hashrateFields p2pool);
  let rate := P2PoolJson.computed_share_rate p2pool in
  mret (PoolStatsData.mk
    (nullish (P2PoolJson.start_time p2pool) pos_zero)
    (nullish (P2PoolJson.num_users p2pool) pos_zero)
    (nullish (P2PoolJson.num_workers p2pool) pos_zero)
    (nullish (P2PoolJson.num_idle_users p2pool) pos_zero)
    pos_zero
    h
    (VNumber (nullish (P2PoolJson.difficulty p2pool) pos_zero))
    (String_or_0 (P2PoolJson.accepted p2pool))
    (String_or_0 (P2PoolJson.rejected p2pool))
    (String_or_0 (P2PoolJson.bestshare p2pool))
    (VNumber (nullish (opt_member rate ShareRate.shares_per_second_1m) pos_zero))
    (VNumber (nullish (opt_member rate ShareRate.shares_per_second_5m) pos_zero))
    (VNumber (nullish (opt_member rate ShareRate.shares_per_second_15m) pos_zero))
    (VNumber (nullish (opt_member rate ShareRate.shares_per_second_1h) pos_zero))
    (snapshot_date env (P2PoolJson.lastupdate p2pool))).

(** [([address, user]) => ({ address,
      hashrate: user.computed_hash_rate?.hashrate_1d ?? 0, raw: user })] *)
Definition rank (entry : string * P2PoolUser.t) : Ranked.t :=
  Ranked.mk entry.1
    (nullish (opt_member (P2PoolUser.computed_hash_rate entry.2)
                ComputedHashRate.hashrate_1d) pos_zero)
    entry.2.

(** [(a, b) => b.hashrate - a.hashrate] *)
Definition by_hashrate_desc (a b : Ranked.t) : number :=
  sub (Ranked.hashrate b) (Ranked.hashrate a).

(** [usersArray.map(...).sort(...).slice(0, 10)] *)
Definition topUsers (usersArray : list (string * P2PoolUser.t)) : list Ranked.t :=
  slice (Array_sort by_hashrate_desc (rank <$> usersArray)) 0 10.

(** The body of [for (const u of topUsers)]. *)
Definition record_user (timestamp : value) (u : Ranked.t) : M unit :=
  let userEntity : object := {[ "address" := VString (Ranked.address u) ]} in
  _ ← User_save env DataSource userEntity;
  hashrate1d ← lift (BigInt (Ranked.hashrate u));
  let userStatsEntity : object :=
    list_to_map [("userAddress", VString (Ranked.address u));
                 ("hashrate1d", VBigInt hashrate1d);
                 ("timestamp", timestamp)] in
  _ ← UserStats_save env DataSource userStatsEntity;
  mret tt.

Definition seed : M unit :=
  try_finally
    (try_catch
       (p2poolJson ← readP2PoolJson;
        stats ← lift (p2poolToCkpool p2poolJson);
        _ ← getDb env;
        _ ← modify (set_db true);
        hashrates ← lift (bigint_columns (PoolStatsData.hashrate stats));
        let poolStats := hashrates ∪ plain_columns stats in
        _ ← PoolStats_save env DataSource poolStats;
        let usersArray := entries (P2PoolJson.users p2poolJson) in
        for_of (topUsers usersArray) (record_user (PoolStatsData.timestamp stats)))
       (fun error => console_error error))
    (w ← get_world; if db w then destroy env else mret tt).

(** The top level [(async () => { await seed(); console.log(...) })()]:
    a rejection nobody handles ends the process with status 1. *)
Definition main (w : world) : exit_status * world :=
  match seed w with
  | (Ok _, w') => (0, w')
  | (Throw e, w') => (1, add_stderr e w')
  end.

End Script.
End Seed.

(** ** [src/scripts/updateUsersFromLogs.js], first script: every user
    and worker, one write after the other *)

Module FromLogs.
Section Script.

Variable env : environment.

(** The five [hashrateNN: scaleHashrate(c?.hashrate_NN)] properties. *)
Definition scaled_columns (c : nullable ComputedHashRate.t) : result object :=
  h1m ← scaleHashrate (opt_member c ComputedHashRate.hashrate_1m);
  h5m ← scaleHashrate (opt_member c ComputedHashRate.hashrate_5m);
  h1hr ← scaleHashrate (opt_member c ComputedHashRate.hashrate_1hr);
  h1d ← scaleHashrate (opt_member c ComputedHashRate.hashrate_1d);
  h7d ← scaleHashrate (opt_member c ComputedHashRate.hashrate_7d);
  mret (list_to_map
          [("hashrate1m", VBigInt h1m); ("hashrate5m", VBigInt h5m);
           ("hashrate1hr", VBigInt h1hr); ("hashrate1d", VBigInt h1d);
           ("hashrate7d", VBigInt h7d)]).

(** The body of [for (const [workerName, workerData] of workers)]. *)
Definition update_worker (json : P2PoolJson.t) (address : string)
    (worker : string * P2PoolWorker.t) : M unit :=
  let '(workerName, workerData) := worker in
  columns ← lift (scaled_columns (P2PoolWorker.computed_hash_rate workerData));
  let workerEntity : object :=
    columns ∪ list_to_map [("userAddress", VString address);
                           ("name", VString workerName)] in
  workerEntity ← Worker_save env DataSource workerEntity;
  columns ← lift (scaled_columns (P2PoolWorker.computed_hash_rate workerData));
  let workerStatsEntity : object :=
    <[ "timestamp" := snapshot_date env (P2PoolJson.lastupdate json) ]> columns in
  let workerStatsEntity : object :=
    match workerEntity !! "id" with
    | Some id => <[ "workerId" := id ]> workerStatsEntity
    | None => workerStatsEntity
    end in
  _ ← WorkerStats_save env DataSource workerStatsEntity;
  mret tt.

(** The body of [for (const [address, user] of usersArray)]. *)
Definition update_user (json : P2PoolJson.t) (entry : string * P2PoolUser.t) : M unit :=
  let '(address, user) := entry in
  let userEntity : object := {[ "address" := VString address ]} in
  _ ← User_save env DataSource userEntity;
  columns ← lift (scaled_columns (P2PoolUser.computed_hash_rate user));
  let userStatsEntity : object :=
    <[ "timestamp" := snapshot_date env (P2PoolJson.lastupdate json) ]>
      (<[ "userAddress" := VString address ]> columns) in
  _ ← UserStats_save env DataSource userStatsEntity;
  for_of (entries (P2PoolUser.workers user)) (update_worker json address).

Definition updateUsersFromJson : M unit :=
  try_finally
    (try_catch
       (json ← read_and_parse env;
        let usersArray := entries (P2PoolJson.users json) in
        _ ← getDb env;
        _ ← modify (set_db true);
        for_of usersArray (update_user json))
       (fun err => console_error err))
    (w ← get_world; if db w then destroy env else mret tt).

(** The top level [(async () => { await updateUsersFromJson(); })()]. *)
Definition main (w : world) : exit_status * world :=
  match updateUsersFromJson w with
  | (Ok _, w') => (0, w')
  | (Throw e, w') => (1, add_stderr e w')
  end.

End Script.
End FromLogs.

(** ** [src/scripts/updateUsersFromLogs.js], second script: every user
    and worker, in batches of transactions *)

Module Batched.

Definition BATCH_SIZE : nat := 10.

(** The batches the loop
    [for (let i = 0; i < userEntries.length; i += BATCH_SIZE)]
    slices, [userEntries.slice(i, i + BATCH_SIZE)], from index [i] on. *)
Equations? batches {A} (userEntries : list A) (i : nat) : list (list A)
  by wf (length userEntries - i)%nat lt :=
  batches userEntries i with decide (i < length userEntries)%nat => {
    | left _ := slice userEntries i (i + BATCH_SIZE)%nat
                  :: batches userEntries (i + BATCH_SIZE)%nat;
    | right _ := [] }.
Proof. unfold BATCH_SIZE. lia. Qed.

(** The loop itself, [process] being the awaited body. *)
Equations? batch_loop {A} (userEntries : list A) (process : list A -> M unit)
    (i : nat) : M unit by wf (length userEntries - i)%nat lt :=
  batch_loop userEntries process i with decide (i < length userEntries)%nat => {
    | left _ := process (slice userEntries i (i + BATCH_SIZE)%nat)
                  ≫= fun _ => batch_loop userEntries process (i + BATCH_SIZE)%nat;
    | right _ := mret tt }.
Proof. unfold BATCH_SIZE. lia. Qed.

Section Script.

Variable X : externals.
Variable env : environment.

(** [convertHashrate((v || 0).toString()).toString()] *)
Definition converted (v : nullable number) : result value :=
  z ← convertHashrate X (Number_toString X (or_zero v));
  mret (VString (BigInt_toString z)).

(** The five converted hashrates of [c || {}]. *)
Definition converted_columns (c : nullable ComputedHashRate.t) : result object :=
  let hashrate := nullish c ComputedHashRate.empty in
  h1m ← converted (ComputedHashRate.hashrate_1m hashrate);
  h5m ← converted (ComputedHashRate.hashrate_5m hashrate);
  h1hr ← converted (ComputedHashRate.hashrate_1hr hashrate);
  h1d ← converted (ComputedHashRate.hashrate_1d hashrate);
  h7d ← converted (ComputedHashRate.hashrate_7d hashrate);
  mret (list_to_map
          [("hashrate1m", h1m); ("hashrate5m", h5m); ("hashrate1hr", h1hr);
           ("hashrate1d", h1d); ("hashrate7d", h7d)]).

(** [String(user.workers
      ? Math.max(...Object.values(user.workers).map(w => w.lastshare || 0))
      : 0)] *)
Definition lastShare (user : P2PoolUser.t) : string :=
  Number_toString X
    match P2PoolUser.workers user with
    | Def workers =>
        Math_max ((fun w => or_zero (P2PoolWorker.lastshare w)) <$> workers.*2)
    | _ => pos_zero
    end.

(** The UserStats entity of a user. *)
Definition userStats_of (address : string) (user : P2PoolUser.t) : result object :=
  columns ← converted_columns (P2PoolUser.computed_hash_rate user);
  mret (columns ∪ list_to_map
    [("userAddress", VString address);
     ("shares", VString (String_or_zero (P2PoolUser.shares user)));
     ("bestShare", VNumber (parseFloat X (String_or_zero (P2PoolUser.bestshare user))));
     ("bestEver", VString (String_or_zero (P2PoolUser.bestever user)));
     ("workerCount",
       VNumber (of_Z (Z.of_nat (length (entries (P2PoolUser.workers user))))));
     ("lastShare", VString (lastShare user))]).

(** [const workerValues = { ... }] *)
Definition workerValues_of (worker : P2PoolWorker.t) : result object :=
  columns ← converted_columns (P2PoolWorker.computed_hash_rate worker);
  mret (columns ∪ list_to_map
    [("shares", VString (String_or_zero (P2PoolWorker.shares worker)));
     ("bestShare", VNumber (parseFloat X (String_or_zero (P2PoolWorker.bestshare worker))));
     ("bestEver", VString (String_or_zero (P2PoolWorker.bestever worker)));
     ("lastUpdate",
       VDate (mul (or_zero (P2PoolWorker.lastshare worker)) (of_Z 1000)))]).

(** The body of [for (const [workerName, worker] of ...)], on the
    transaction's manager. *)
Definition upsert_worker (address : string) (entry : string * P2PoolWorker.t) : M unit :=
  let '(workerName, worker) := entry in
  dbWorker ← Worker_findOne env EntityManager address workerName;
  workerValues ← lift (workerValues_of worker);
  let dbWorker : object :=
    match dbWorker with
    | Some row => workerValues ∪ row
    | None => workerValues ∪ list_to_map [("userAddress", VString address);
                                          ("name", VString workerName)]
    end in
  savedWorker ← Worker_save env EntityManager dbWorker;
  let workerStats : object :=
    match savedWorker !! "id" with
    | Some id => workerValues ∪ {[ "workerId" := id ]}
    | None => workerValues
    end in
  _ ← WorkerStats_save env EntityManager workerStats;
  mret tt.

(** The callback of [db.transaction]: one address's writes. *)
Definition unit_of_work (entry : string * P2PoolUser.t) : M unit :=
  let '(address, user) := entry in
  let authorised := VString (Number_toString X (or_zero (P2PoolUser.authorised user))) in
  dbUser ← User_findOne env EntityManager address;
  let dbUser : object :=
    match dbUser with
    | None => list_to_map [("address", VString address);
                           ("authorised", authorised);
                           ("isActive", VBool true)]
    | Some row => <[ "authorised" := authorised ]> (<[ "isActive" := VBool true ]> row)
    end in
  _ ← User_save env EntityManager dbUser;
  userStats ← lift (userStats_of address user);
  _ ← UserStats_save env EntityManager userStats;
  for_of (entries (P2PoolUser.workers user)) (upsert_worker address).

(** One member of a batch, run to its end; [reaches_commit] as in
    [transaction]. *)
Definition settle (reaches_commit : string -> bool)
    (entry : string * P2PoolUser.t) (w : world) : result unit * world :=
  transaction (reaches_commit entry.1) (unit_of_work entry) w.

(** Every member of a batch, in array order; the outcomes in that
    order. *)
Fixpoint settle_all (reaches_commit : string -> bool)
    (batch : list (string * P2PoolUser.t)) (w : world) : list (result unit) * world :=
  match batch with
  | [] => ([], w)
  | entry :: rest =>
      let '(r, w') := settle reaches_commit entry w in
      let '(rs, w'') := settle_all reaches_commit rest w' in
      (r :: rs, w'')
  end.

(** The members that reject, in array order, each with the time at which
    it does. *)
Definition rejections (batch : list (string * P2PoolUser.t))
    (outcomes : list (result unit)) : list (nat * error) :=
  omap (fun member : (string * P2PoolUser.t) * result unit =>
          match member.2 with
          | Throw e => Some (settled_at env member.1.1, e)
          | Ok _ => None
          end)
    (zip batch outcomes).

(** Of two rejections the one that comes first in time; the first of the
    array when the times are the same. *)
Definition earlier (a b : nat * error) : nat * error :=
  if (b.1 <? a.1)%nat then b else a.

(** The reason [Promise.all] rejects with: that of the member that
    rejects first in time. *)
Definition first_rejection (batch : list (string * P2PoolUser.t))
    (outcomes : list (result unit)) : option error :=
  match rejections batch outcomes with
  | [] => None
  | r :: rs => Some (foldl earlier r rs).2
  end.

(** [await Promise.all(batch.map(async ([address, user]) =>
      db.transaction(...)))]. The members touch different addresses, so
    their writes are run one member after the other. When none rejects,
    all have committed. When one rejects, the aggregate rejects with the
    rejection that comes first in time, while the others are still
    running: [survives env] tells which of them commit all the same. *)
Definition Promise_all (batch : list (string * P2PoolUser.t)) : M unit := fun w =>
  let '(outcomes, w') := settle_all (fun _ => true) batch w in
  match first_rejection batch outcomes with
  | None => (Ok tt, w')
  | Some e => (Throw e, (settle_all (survives env) batch w).2)
  end.

Definition updateUsersFromJson : M unit :=
  json ← read_and_parse env;
  _ ← getDb env;
  try_finally
    (let userEntries := entries (P2PoolJson.users json) in
     batch_loop userEntries Promise_all 0)
    (destroy env).

(** The top level [updateUsersFromJson().catch(console.error)]. *)
Definition main (w : world) : exit_status * world :=
  match updateUsersFromJson w with
  | (Ok _, w') => (0, w')
  | (Throw e, w') => (0, add_stderr e w')
  end.

End Script.
End Batched.

(** ** Sample inputs *)

Module Sample.

(** Externals that answer with constants. *)
Definition externals_stub : externals :=
  {| number_text := fun _ => "";
     parseFloat := fun _ => pos_zero;
     convertHashrate := fun _ => Ok 0 |}.

(** [{ hashrate_1d: x }] *)
Definition day_rate (x : Z) : ComputedHashRate.t :=
  ComputedHashRate.mk Undefined Undefined Undefined Undefined Undefined
    (Def (of_Z x)) Undefined.

(** A worker with the rollup [{ hashrate_1d: x }]. *)
Definition worker_with (x : Z) : P2PoolWorker.t :=
  P2PoolWorker.mk (Def (day_rate x)) Undefined Undefined Undefined Undefined.

(** A snapshot with these users and nothing else. *)
Definition snapshot_of (users : list (string * P2PoolUser.t)) : P2PoolJson.t :=
  P2PoolJson.mk Undefined Undefined Undefined Undefined Undefined Undefined
    Undefined Undefined Undefined (Def users) Undefined Undefined.

(** [{ users: { addr1: { computed_hash_rate: { hashrate_1d: 1 },
      workers: { rig1: { computed_hash_rate: { hashrate_1d: 2 } } } } } }] *)
Definition user_and_worker_rollups : P2PoolJson.t :=
  snapshot_of
    [("addr1", P2PoolUser.mk (Def (day_rate 1)) (Def [("rig1", worker_with 2)])
                 Undefined Undefined Undefined Undefined)].

(** [{ users: { addr1: {
      workers: { rig1: { computed_hash_rate: { hashrate_1d: 2 } } } } } }] *)
Definition worker_rollup_only : P2PoolJson.t :=
  snapshot_of
    [("addr1", P2PoolUser.mk Undefined (Def [("rig1", worker_with 2)])
                 Undefined Undefined Undefined Undefined)].

(** An environment in which nothing fails, at time 1700000000000. *)
Definition calm (f : file_state) : environment :=
  mkEnv f (of_Z 1700000000000) true (fun _ => false) true (fun _ => true)
    (fun _ => 0%nat).

(** Twelve users with these 1-day hashrates, two of them tied at 7 and
    two at 3. *)
Definition twelve_users : P2PoolJson.t :=
  snapshot_of
    ((fun entry : string * Z =>
        (entry.1, P2PoolUser.mk (Def (day_rate entry.2)) Undefined Undefined
                    Undefined Undefined Undefined))
       <$> [("user01", 4); ("user02", 7); ("user03", 1); ("user04", 9);
            ("user05", 7); ("user06", 12); ("user07", 3); ("user08", 5);
            ("user09", 3); ("user10", 8); ("user11", 2); ("user12", 6)]).

(** A user with no member at all. *)
Definition bare_user : P2PoolUser.t :=
  P2PoolUser.mk Undefined Undefined Undefined Undefined Undefined Undefined.

(** Eleven users: a full batch and one more. *)
Definition first_ten : list (string * P2PoolUser.t) :=
  (fun address => (address, bare_user))
    <$> ["user01"; "user02"; "user03"; "user04"; "user05";
         "user06"; "user07"; "user08"; "user09"; "user10"].

Definition eleven_users : P2PoolJson.t :=
  snapshot_of (first_ten ++ [("user11", bare_user)]).



(** [{ users: { addr1: { workers: { rig1: {} } } } }] *)
Definition one_worker : P2PoolJson.t :=
  snapshot_of
    [("addr1",
      P2PoolUser.mk Undefined
        (Def [("rig1", P2PoolWorker.mk Undefined Undefined Undefined Undefined Undefined)])
        Undefined Undefined Undefined Undefined)].

(** The backend rejects every WorkerStats insert, nothing else. *)
Definition rejects_workerStats (q : query) : bool :=
  match q with Save TWorkerStats _ => true | _ => false end.

Definition workerStats_fail : environment :=
  mkEnv (Parsed one_worker) (of_Z 1700000000000) true rejects_workerStats true
    (fun _ => true) (fun _ => 0%nat).

(** The storage backend cannot be reached. *)
Definition unreachable : environment :=
  mkEnv (Parsed one_worker) (of_Z 1700000000000) false (fun _ => false) true
    (fun _ => true) (fun _ => 0%nat).

End Sample.

(** ** Ranking by value *)

(** Under [comparefn], [x] may stay in front of [y]: it does not compare
    greater. *)
Definition stays_before {A} (comparefn : A -> A -> number) (x y : A) : Prop :=
  comparator_sign (comparefn x y) <> Gt.


(** The order of two numbers by value, neither being NaN. *)
Definition compare_values (a b : number) : comparison :=
  match a, b with
  | S754_infinity false, S754_infinity false => Eq
  | S754_infinity true, S754_infinity true => Eq
  | S754_infinity false, _ => Gt
  | _, S754_infinity true => Gt
  | S754_infinity true, _ => Lt
  | _, S754_infinity false => Lt
  | _, _ => (to_Q a ?= to_Q b)%Q
  end.

(** The value of a finite binary64 number in units of 2^-1074, the
    least positive one: an integer. *)
Definition units (x : number) : Z :=
  match x with
  | S754_finite s m e => cond_Zopp s (Z.pos m) * 2 ^ (e + 1074)
  | _ => 0
  end.

(** A number as [JSON.parse] yields it: a binary64 value, not NaN. *)
Definition json_number (x : number) : Prop := is_double x /\ is_nan x = false.

(** The snapshot's 1-day hashrates are numbers of the document. *)
Definition ranked_by_json_numbers (usersArray : list (string * P2PoolUser.t)) : Prop :=
  Forall (fun entry => json_number (Ranked.hashrate (Seed.rank entry))) usersArray.

(** [a] ranks at least as high as [b]. *)
Definition at_least (a b : Ranked.t) : Prop :=
  compare_values (Ranked.hashrate a) (Ranked.hashrate b) <> Lt.

(** The users whose 1-day hashrate equals [h]. *)
Definition tied_at (h : number) (u : Ranked.t) : bool :=
  match compare_values (Ranked.hashrate u) h with Eq => true | _ => false end.

(** Between [before] and [after], User rows changed and UserStats rows
    were appended for the addresses of [selected] only. *)
Definition written_only_for (selected : list string) (before after : store) : Prop :=
  (forall address, address ∉ selected ->
     users after !! address = users before !! address) /\
  exists appended,
    userStats after = userStats before ++ appended /\
    Forall (fun row => exists address,
              string_of (row !! "userAddress") = Some address /\
              address ∈ selected) appended.

(** ** Properties of runs *)

(** [P] survives the computation [m], whatever [m] returns or throws. *)
Definition stable {A} (P : world -> Prop) (m : M A) : Prop :=
  forall w, P w -> P (m w).2.

(** [Q] holds of the committed rows and of the rows the open transaction
    sees. *)
Definition both (Q : store -> Prop) (w : world) : Prop :=
  Q (committed w) /\ Q (working w).

(** Every user row of [after] is a row of [before] or is active. *)
Definition kept_or_active (before after : store) : Prop :=
  forall address row,
    users after !! address = Some row ->
    users before !! address = Some row \/ row !! "isActive" = Some (VBool true).

(** No user row of [after] is inactive unless it was so in [before]. *)
Definition never_deactivated (before after : store) : Prop :=
  forall address row,
    users after !! address = Some row ->
    row !! "isActive" = Some (VBool false) ->
    exists row0,
      users before !! address = Some row0 /\
      row0 !! "isActive" = Some (VBool false).

(** ** Runs, tables and rows: what the further properties speak of *)

(** The error [readFileSync] or [JSON.parse] throws, if any. *)
Definition read_error (env : environment) : option error :=
  match file env with
  | Unreadable => Some FileError
  | Malformed => Some SyntaxError
  | Parsed _ => None
  end.

(** [w] after [console.error] has printed [e] two times. *)
Definition twice_printed (e : error) (w : world) : world :=
  add_stderr e (add_stderr e w).

(** The backend accepts every storage call. *)
Definition accepts_all (env : environment) : Prop := forall q, fault env q = false.

(** The seven members of a rollup that [p2poolToCkpool] scales. *)
Definition fields_of (f : ComputedHashRate.t) : list (nullable number) :=
  [ComputedHashRate.hashrate_1m f; ComputedHashRate.hashrate_5m f;
   ComputedHashRate.hashrate_15m f; ComputedHashRate.hashrate_1hr f;
   ComputedHashRate.hashrate_6hr f; ComputedHashRate.hashrate_1d f;
   ComputedHashRate.hashrate_7d f].

(** The rows after [userRepo.save({ address })]. *)
Definition saved_address (s : store) (address : string) : store :=
  mkStore (<[address := {[ "address" := VString address ]}
                          ∪ default ∅ (users s !! address)]> (users s))
    (userStats s) (workers s) (workerStats s) (poolStats s).

(** The UserStats entity the top-ten loop creates for [u]. *)
Definition top_stats_row (timestamp : value) (u : Ranked.t) : object :=
  list_to_map [("userAddress", VString (Ranked.address u));
               ("hashrate1d", VBigInt (integral_value (Ranked.hashrate u)));
               ("timestamp", timestamp)].

(** The rows after the top-ten loop's body has run to its end on [u]. *)
Definition recorded (timestamp : value) (s : store) (u : Ranked.t) : store :=
  let s' := saved_address s (Ranked.address u) in
  mkStore (users s') (userStats s' ++ [top_stats_row timestamp u]) (workers s')
    (workerStats s') (poolStats s').

(** The User row of [address] is there and active. *)
Definition active_row (address : string) (s : store) : Prop :=
  exists row, users s !! address = Some row /\ row !! "isActive" = Some (VBool true).

(** Every User row is found under the address it holds. *)
Definition keyed (s : store) : Prop :=
  forall address row,
    users s !! address = Some row -> row !! "address" = Some (VString address).

(** The id and the key of a Worker row. *)
Definition worker_id (row : object) : option Z := id_of (row !! "id").
Definition worker_key (row : object) : option string * option string :=
  (string_of (row !! "userAddress"), string_of (row !! "name")).

(** The Worker table as the batched script keeps it: every row has an id
    the sequence has already passed, and no id and no (userAddress, name)
    occurs twice. *)
Definition workers_distinct (seq : Z) (s : store) : Prop :=
  Forall (fun row => exists id, worker_id row = Some id /\ id < seq) (workers s) /\
  NoDup (worker_id <$> workers s) /\
  NoDup (worker_key <$> workers s).

(** Every WorkerStats row carries the id of a Worker row. *)
Definition stats_linked (s : store) : Prop :=
  Forall (fun stats => exists id worker,
            stats !! "workerId" = Some (VId id) /\
            worker ∈ workers s /\ worker !! "id" = Some (VId id))
    (workerStats s).

(** Both hold of the committed rows and of the rows the open transaction
    sees. *)
Definition tables_consistent (w : world) : Prop :=
  (workers_distinct (worker_seq w) (committed w) /\ stats_linked (committed w)) /\
  (workers_distinct (worker_seq w) (working w) /\ stats_linked (working w)).

(** The rows of [before] are still in [after], in their places, in the
    three tables of snapshots. *)
Definition history_kept (before after : store) : Prop :=
  userStats before `prefix_of` userStats after /\
  workerStats before `prefix_of` workerStats after /\
  poolStats before `prefix_of` poolStats after.

(** Since [before], a UserStats row of [address] whose [lastShare] is
    [text] has been appended. *)
Definition lastShare_stored (before : store) (address text : string)
    (after : store) : Prop :=
  exists appended row,
    userStats after = userStats before ++ appended /\
    row ∈ appended /\
    row !! "userAddress" = Some (VString address) /\
    row !! "lastShare" = Some (VString text).

(** The workers of a snapshot, user after user. *)
Definition all_workers (usersArray : list (string * P2PoolUser.t))
    : list (string * P2PoolWorker.t) :=
  usersArray ≫= fun entry => entries (P2PoolUser.workers entry.2).

(** From [w] to [w'], [a] UserStats rows, [b] Worker rows and [c]
    WorkerStats rows were added, and nothing was printed. *)
Definition grown (a b c : nat) (w w' : world) : Prop :=
  length (userStats (committed w')) = (length (userStats (committed w)) + a)%nat /\
  length (workers (committed w')) = (length (workers (committed w)) + b)%nat /\
  length (workerStats (committed w')) = (length (workerStats (committed w)) + c)%nat /\
  stderr w' = stderr w.

(** The Worker table of [w] is the one of [before] followed by rows that
    took the ids from [next_id] on, one after the other. *)
Definition workers_appended (before : store) (next_id : Z) (w : world) : Prop :=
  exists appended,
    workers (committed w) = workers before ++ appended /\
    worker_id <$> appended = Some <$> seqZ next_id (Z.of_nat (length appended)) /\
    worker_seq w = next_id + Z.of_nat (length appended).

(** ** [lib/db.ts]: the shared connection

<<
  let connectionPromise: Promise<DataSource> | null = null;

  export async function getDb() {
    if (!connectionPromise) {
      connectionPromise = AppDataSource.initialize().catch((error) => {
        console.error('Database connection error:', error);
        connectionPromise = null;
        throw error;
      });
    }
    return connectionPromise;
  }
>>
    Callers may call [getDb] while an earlier promise is still pending, so
    the call and the settling of a promise are separate events. A promise
    is named by the number of the [initialize()] call that made it. *)

Module Db.

Record state : Type := mkState {
  connectionPromise : option nat;   (* null, or the promise it holds *)
  initialize_calls : nat;           (* AppDataSource.initialize() calls so far *)
  settled : gmap nat bool;          (* the promises settled: fulfilled or rejected *)
  errors : list nat;                (* console.error: the attempts reported *)
}.

(** The module has just been loaded. *)
Definition start : state := mkState None 0 ∅ [].

(** A call of [getDb()]: the promise the caller awaits, and the state the
    call leaves. *)
Definition getDb (st : state) : nat * state :=
  match connectionPromise st with
  | Some p => (p, st)
  | None =>
      let p := initialize_calls st in
      (p, mkState (Some p) (S p) (settled st) (errors st))
  end.

(** Promise [p] has been made and has not settled. *)
Definition pending (st : state) (p : nat) : Prop :=
  (p < initialize_calls st)%nat /\ settled st !! p = None.

(** Promise [p] settles: fulfilled when [initialize()] resolved; otherwise
    the [catch] handler has run and the promise is rejected. *)
Definition settle (p : nat) (fulfilled : bool) (st : state) : state :=
  if fulfilled
  then mkState (connectionPromise st) (initialize_calls st)
         (<[p := true]> (settled st)) (errors st)
  else mkState None (initialize_calls st)
         (<[p := false]> (settled st)) (errors st ++ [p]).

(** One event of the process. *)
Inductive step (st : state) : state -> Prop :=
| step_call : step st (getDb st).2
| step_settle (p : nat) (fulfilled : bool) :
    pending st p -> step st (settle p fulfilled st).

(** The states the process can be in. *)
Inductive reachable : state -> Prop :=
| reachable_start : reachable start
| reachable_step (st st' : state) : reachable st -> step st st' -> reachable st'.

(** [st'] is [st] or comes after it. *)
Inductive later (st : state) : state -> Prop :=
| later_now : later st st
| later_step (st' st'' : state) : later st st' -> step st' st'' -> later st st''.

(** What every reachable state satisfies. *)
Record invariant (st : state) : Prop := {
  pending_is_held : forall p, pending st p -> connectionPromise st = Some p;
  held_is_made : forall p, connectionPromise st = Some p ->
                   (p < initialize_calls st)%nat /\ settled st !! p <> Some false;
  fulfilled_is_held : forall p, settled st !! p = Some true ->
                        connectionPromise st = Some p;
  settled_is_made : forall p, is_Some (settled st !! p) -> (p < initialize_calls st)%nat;
  reported_once : NoDup (errors st);
  reported_iff : forall p, p ∈ errors st <-> settled st !! p = Some false;
}.

(** A first attempt that failed, and a second one, after which the
    connection is there. *)
Definition failed_once : state := settle 0 false (getDb start).2.
Definition connected : state := settle 1 true (getDb failed_once).2.

End Db.

(** ** More sample inputs *)

Module Edge.

(** The number 1.5. *)
Definition one_and_a_half : number := S754_finite false 6755399441055744 (-52).

(** [address: { computed_hash_rate: { hashrate_1d: rate } }] *)
Definition user_rated (address : string) (rate : number) : string * P2PoolUser.t :=
  (address,
   P2PoolUser.mk
     (Def (ComputedHashRate.mk Undefined Undefined Undefined Undefined Undefined
             (Def rate) Undefined))
     Undefined Undefined Undefined Undefined Undefined).

(** Three users with the 1-day hashrates 3, 1.5 and 1. *)
Definition fractional_second : P2PoolJson.t :=
  Sample.snapshot_of
    [user_rated "userA" (of_Z 3); user_rated "userB" one_and_a_half;
     user_rated "userC" (of_Z 1)].

(** The number 8.5. *)
Definition eight_and_a_half : number := S754_finite false 4785074604081152 (-49).

(** The twelve users of [Sample.twelve_users], [user10] with the 1-day
    hashrate 8.5 in the place of 8. *)
Definition twelve_one_fractional : P2PoolJson.t :=
  Sample.snapshot_of
    ((fun entry : string * number => user_rated entry.1 entry.2)
       <$> [("user01", of_Z 4); ("user02", of_Z 7); ("user03", of_Z 1);
            ("user04", of_Z 9); ("user05", of_Z 7); ("user06", of_Z 12);
            ("user07", of_Z 3); ("user08", of_Z 5); ("user09", of_Z 3);
            ("user10", eight_and_a_half); ("user11", of_Z 2);
            ("user12", of_Z 6)]).

(** [{ users: { addr1: { workers: {} } } }] *)
Definition no_workers : P2PoolJson.t :=
  Sample.snapshot_of
    [("addr1", P2PoolUser.mk Undefined (Def []) Undefined Undefined Undefined Undefined)].

(** The backend rejects every PoolStats insert, nothing else. *)
Definition rejects_poolStats (q : query) : bool :=
  match q with Save TPoolStats _ => true | _ => false end.

Definition poolStats_fail : environment :=
  mkEnv (Parsed Sample.twelve_users) (of_Z 1700000000000) true rejects_poolStats true
    (fun _ => true) (fun _ => 0%nat).





(** [{ computed_hashrate: { hashrate_1m: 1, hashrate_7d: Infinity } }],
    [Infinity] being what [JSON.parse] makes of [1e999]. *)
Definition infinite_7d : P2PoolJson.t :=
  P2PoolJson.mk Undefined Undefined Undefined Undefined Undefined Undefined
    Undefined Undefined Undefined Undefined
    (Def (ComputedHashRate.mk (Def (of_Z 1)) Undefined Undefined Undefined Undefined
            Undefined (Def (S754_infinity false))))
    Undefined.

End Edge.

(** ** Lemmas on binary64 arithmetic *)

Section ShiftRight.

Lemma iter_pos_nat {A} (f : A -> A) (p : positive) (x : A) :
  SpecFloat.iter_pos f p x = Nat.iter (Pos.to_nat p) f x.
Proof.
  revert x. induction p as [p IH | p IH |]; intros x.
  - cbn [SpecFloat.iter_pos]. rewrite !IH, Pos2Nat.inj_xI.
    replace (S (2 * Pos.to_nat p))%nat with (Pos.to_nat p + (Pos.to_nat p + 1))%nat by lia.
    rewrite !Nat.iter_add. reflexivity.
  - cbn [SpecFloat.iter_pos]. rewrite !IH, Pos2Nat.inj_xO.
    replace (2 * Pos.to_nat p)%nat with (Pos.to_nat p + Pos.to_nat p)%nat by lia.
    rewrite Nat.iter_add. reflexivity.
  - reflexivity.
Qed.

Lemma shr_1_even (q : Z) :
  shr_1 (Build_shr_record (2 * q) false false) = Build_shr_record q false false.
Proof. destruct q; reflexivity. Qed.

Lemma shr_1_div2 (r : shr_record) :
  0 <= shr_m r -> shr_m (shr_1 r) = shr_m r / 2.
Proof.
  destruct r as [m b c]. rewrite <- Z.div2_div.
  destruct m as [| p | p]; simpl; [reflexivity | | lia].
  destruct p; reflexivity.
Qed.

Lemma iter_shr_1_exact (n : nat) (q : Z) :
  Nat.iter n shr_1 (Build_shr_record (q * 2 ^ Z.of_nat n) false false)
  = Build_shr_record q false false.
Proof.
  revert q. induction n as [| n IH]; intros q.
  - simpl. f_equal. lia.
  - rewrite Nat.iter_succ_r.
    replace (q * 2 ^ Z.of_nat (S n)) with (2 * (q * 2 ^ Z.of_nat n))
      by (rewrite Nat2Z.inj_succ, Z.pow_succ_r by lia; ring).
    rewrite shr_1_even. apply IH.
Qed.

Lemma iter_shr_1_pos (n : nat) (r : shr_record) :
  0 <= shr_m r -> shr_m (Nat.iter n shr_1 r) = shr_m r / 2 ^ Z.of_nat n.
Proof.
  intros Hr. induction n as [| n IH].
  - simpl. now rewrite Z.div_1_r.
  - rewrite Nat.iter_succ, shr_1_div2, IH.
    + rewrite Z.div_div by lia.
      rewrite Nat2Z.inj_succ, Z.pow_succ_r by lia.
      f_equal. ring.
    + rewrite IH. apply Z.div_pos; lia.
Qed.

Lemma digits2_pos_size (p : positive) : digits2_pos p = Pos.size p.
Proof. induction p; simpl; congruence. Qed.

Lemma digits2_bounds (p : positive) :
  2 ^ (Z.pos (digits2_pos p) - 1) <= Z.pos p < 2 ^ Z.pos (digits2_pos p).
Proof.
  rewrite digits2_pos_size. split.
  - pose proof (Pos.size_le p) as H.
    apply Pos2Z.pos_le_pos in H. rewrite Pos2Z.inj_pow in H.
    replace (Z.pos (Pos.size p)) with (Z.succ (Z.pos (Pos.size p) - 1)) in H by lia.
    rewrite Z.pow_succ_r in H by lia. lia.
  - pose proof (Pos.size_gt p) as H.
    apply Pos2Z.pos_lt_pos in H. now rewrite Pos2Z.inj_pow in H.
Qed.

Lemma digits2_unique (p : positive) (d : Z) :
  2 ^ (d - 1) <= Z.pos p < 2 ^ d -> Z.pos (digits2_pos p) = d.
Proof.
  intros [Hlo Hhi]. pose proof (digits2_bounds p) as [Hlo' Hhi'].
  assert (0 < d) by (destruct (Z.ltb_spec 0 d); [lia |];
    rewrite Z.pow_neg_r in Hlo by lia;
    pose proof (Z.pow_le_mono_r 2 d 0); lia).
  destruct (Z.lt_trichotomy (Z.pos (digits2_pos p)) d) as [Hlt | [Heq | Hgt]];
    [| exact Heq |].
  - pose proof (Z.pow_le_mono_r 2 (Z.pos (digits2_pos p)) (d - 1)). lia.
  - pose proof (Z.pow_le_mono_r 2 d (Z.pos (digits2_pos p) - 1)). lia.
Qed.

Lemma digits2_mul_pow2 (p : positive) (k : Z) :
  0 <= k -> Zdigits2 (Z.pos p * 2 ^ k) = Z.pos (digits2_pos p) + k.
Proof.
  intros Hk. pose proof (digits2_bounds p) as [Hlo Hhi].
  assert (Hpos : 0 < 2 ^ k) by (apply Z.pow_pos_nonneg; lia).
  destruct (Z.pos p * 2 ^ k) as [| q | q] eqn:E; try lia.
  simpl. apply digits2_unique. rewrite <- E.
  replace (Z.pos (digits2_pos p) + k - 1) with (Z.pos (digits2_pos p) - 1 + k) by lia.
  rewrite !Z.pow_add_r by lia. nia.
Qed.

Lemma shr_exact (q : Z) (E n : Z) :
  0 <= n ->
  shr (Build_shr_record (q * 2 ^ n) false false) E n
  = (Build_shr_record q false false, E + n).
Proof.
  intros Hn. destruct n as [| p | p]; try lia.
  - simpl. rewrite Z.mul_1_r, Z.add_0_r. reflexivity.
  - unfold shr. rewrite iter_pos_nat.
    rewrite <- (positive_nat_Z p) at 1. rewrite iter_shr_1_exact. reflexivity.
Qed.

(** Rounding a mantissa that ends in [n] zero bits, when [n] is the
    number of bits the format drops, loses nothing. *)
Lemma binary_round_aux_exact (s : bool) (q : positive) (E n : Z) :
  0 <= n ->
  fexp prec emax (Z.pos (digits2_pos q) + n + E) = E + n ->
  binary_round_aux prec emax s (Z.pos q * 2 ^ n) E loc_Exact
  = if E + n <=? emax - prec then S754_finite s q (E + n) else S754_infinity s.
Proof.
  intros Hn Hfexp. unfold binary_round_aux, shr_fexp.
  rewrite digits2_mul_pow2 by exact Hn. rewrite Hfexp.
  replace (E + n - E) with n by lia.
  cbn [shr_record_of_loc]. rewrite shr_exact by exact Hn.
  cbn [shr_m loc_of_shr_record round_nearest_even Zdigits2].
  replace (Z.pos (digits2_pos q) + (E + n)) with (Z.pos (digits2_pos q) + n + E) by lia.
  rewrite Hfexp, Z.sub_diag. reflexivity.
Qed.

End ShiftRight.

Section Scaling.

Lemma HASHRATE_FACTOR_eq :
  HASHRATE_FACTOR = S754_finite false 4503599627370496 (-20).
Proof. vm_compute. reflexivity. Qed.

Lemma bounded_inv (m : positive) (e : Z) :
  bounded prec emax m e = true ->
  e = Z.max (Z.pos (digits2_pos m) + e - 53) (-1074) /\ e <= 971.
Proof.
  unfold bounded, canonical_mantissa, fexp, emin, prec, emax.
  intros H. apply andb_prop in H as [H1 H2].
  apply Z.eqb_eq in H1. apply Z.leb_le in H2. lia.
Qed.

Lemma Zdigits2_to_pos (z : Z) :
  0 < z -> Z.pos (digits2_pos (Z.to_pos z)) = Zdigits2 z.
Proof. destruct z; simpl; lia. Qed.

(** The product with 2^32 is exact: the mantissa is only realigned. *)
Lemma mul_HASHRATE_FACTOR (s : bool) (m : positive) (e : Z) :
  bounded prec emax m e = true ->
  let e' := fexp prec emax (Z.pos (digits2_pos m) + e + 32) in
  0 <= e + 32 - e' /\
  mul (S754_finite s m e) HASHRATE_FACTOR
  = if e' <=? 971
    then S754_finite s (Z.to_pos (Z.pos m * 2 ^ (e + 32 - e'))) e'
    else S754_infinity s.
Proof.
  intros Hb e'. apply bounded_inv in Hb as [He Hmax].
  assert (Hlo : e <= e') by (unfold e', fexp, emin, prec, emax; lia).
  assert (Hhi : e' <= e + 32) by (unfold e', fexp, emin, prec, emax; lia).
  split; [lia |].
  rewrite HASHRATE_FACTOR_eq. unfold mul, SFmul. rewrite xorb_false_r.
  set (n := e' - e + 20). set (k := e + 32 - e').
  assert (Hk : 0 < Z.pos m * 2 ^ k)
    by (apply Z.mul_pos_pos; [lia | apply Z.pow_pos_nonneg; lia]).
  assert (Hq : Z.pos (m * 4503599627370496) = Z.pos (Z.to_pos (Z.pos m * 2 ^ k)) * 2 ^ n).
  { rewrite Z2Pos.id by exact Hk. rewrite <- Z.mul_assoc, <- Z.pow_add_r by lia.
    replace (k + n) with 52 by lia. reflexivity. }
  rewrite Hq.
  rewrite binary_round_aux_exact.
  - replace (e + -20 + n) with e' by lia. reflexivity.
  - lia.
  - rewrite Zdigits2_to_pos by exact Hk. rewrite digits2_mul_pow2 by lia.
    replace (Z.pos (digits2_pos m) + k + n + (e + -20))
      with (Z.pos (digits2_pos m) + e + 32) by lia.
    fold e'. lia.
Qed.

Lemma iter_xO_pow2 (p k : positive) :
  Z.pos (Pos.iter xO p k) = Z.pos p * 2 ^ Z.pos k.
Proof.
  induction k as [| k IHk] using Pos.peano_ind.
  - simpl. lia.
  - rewrite Pos.iter_succ, Pos2Z.inj_succ, Z.pow_succ_r by lia.
    rewrite Pos2Z.inj_xO, IHk. ring.
Qed.

Lemma binary_round_small (s : bool) (p : positive) :
  Z.pos p < 2 ^ 53 ->
  exists (q : positive) (e : Z),
    binary_round prec emax s p 0 = S754_finite s q e /\
    e <= 0 /\ Z.pos q = Z.pos p * 2 ^ (- e).
Proof.
  intros Hp. pose proof (digits2_bounds p) as [Hlo Hhi].
  assert (Hd : Z.pos (digits2_pos p) <= 53).
  { destruct (Z.leb_spec (Z.pos (digits2_pos p)) 53) as [H | H]; [exact H |].
    pose proof (Z.pow_le_mono_r 2 53 (Z.pos (digits2_pos p) - 1)). lia. }
  unfold binary_round, shl_align.
  replace (fexp prec emax (Z.pos (digits2_pos p) + 0)) with (Z.pos (digits2_pos p) - 53)
    by (unfold fexp, emin, prec, emax; lia).
  rewrite Z.sub_0_r.
  destruct (Z.pos (digits2_pos p) - 53) as [| k | k] eqn:Ek; try lia.
  - exists p, 0. split; [| split; [lia | simpl; lia]].
    rewrite <- (Z.mul_1_r (Z.pos p)). change 1 with (2 ^ 0).
    rewrite binary_round_aux_exact; [reflexivity | lia |].
    unfold fexp, emin, prec, emax. lia.
  - exists (Pos.iter xO p k), (Z.neg k). split; [| split; [lia |]].
    + rewrite <- (Z.mul_1_r (Z.pos (Pos.iter xO p k))). change 1 with (2 ^ 0).
      rewrite binary_round_aux_exact.
      * rewrite Z.add_0_r. reflexivity.
      * lia.
      * pose proof (iter_xO_pow2 p k) as Hq.
        assert (Hdq : Z.pos (digits2_pos (Pos.iter xO p k)) = Z.pos (digits2_pos p) + Z.pos k).
        { pose proof (digits2_mul_pow2 p (Z.pos k)) as H. rewrite <- Hq in H.
          apply H. lia. }
        rewrite Hdq. unfold fexp, emin, prec, emax. lia.
    + apply iter_xO_pow2.
Qed.

Lemma BigInt_of_Z (z : Z) : Z.abs z < 2 ^ 53 -> BigInt (of_Z z) = Ok z.
Proof.
  intros Hz. destruct z as [| p | p]; [reflexivity | |];
    unfold of_Z, binary_normalize;
    [destruct (binary_round_small false p) as (q & e & Hr & He & Hq)
    | destruct (binary_round_small true p) as (q & e & Hr & He & Hq)];
    try (simpl in Hz; lia);
    rewrite Hr; unfold BigInt, is_integral, integral_value;
    (destruct e as [| k | k]; try lia;
     [ simpl in Hq; rewrite Z.leb_refl || idtac; simpl; f_equal; lia |]);
    change (- Z.neg k) with (Z.pos k) in Hq; rewrite Hq;
    rewrite Z.mod_mul, Z.div_mul by (apply Z.pow_nonzero; lia);
    reflexivity.
Qed.

Lemma cond_Zopp_mul (s : bool) (a b : Z) : cond_Zopp s (a * b) = cond_Zopp s a * b.
Proof. destruct s; simpl; lia. Qed.

Lemma floor_half_integral (c : Z) (k : positive) :
  (2 * (c * 2 ^ Z.pos k) + 2 ^ Z.pos k) / 2 ^ (Z.pos k + 1) = c.
Proof.
  assert (H : 0 < 2 ^ Z.pos k) by (apply Z.pow_pos_nonneg; lia).
  rewrite Z.pow_add_r by lia. change (2 ^ 1) with 2.
  replace (2 * (c * 2 ^ Z.pos k) + 2 ^ Z.pos k) with ((2 * c + 1) * 2 ^ Z.pos k) by ring.
  rewrite (Z.mul_comm (2 ^ Z.pos k) 2).
  rewrite Z.div_mul_cancel_r by lia.
  symmetry. apply (Z.div_unique _ 2 c 1); lia.
Qed.

Lemma floor_half_bound (n : Z) (k : positive) :
  Z.abs n < 2 ^ 53 ->
  Z.abs ((2 * n + 2 ^ Z.pos k) / 2 ^ (Z.pos k + 1)) < 2 ^ 53.
Proof.
  intros Hn.
  assert (Hk : 2 <= 2 ^ Z.pos k).
  { change 2 with (2 ^ 1) at 1. apply Z.pow_le_mono_r; lia. }
  rewrite Z.pow_add_r by lia. change (2 ^ 1) with 2.
  set (a := 2 ^ Z.pos k) in *.
  assert (- 2 ^ 53 < (2 * n + a) / (a * 2)).
  { apply Z.lt_le_trans with (- 2 ^ 52); [lia |].
    apply Z.div_le_lower_bound; nia. }
  assert ((2 * n + a) / (a * 2) < 2 ^ 53).
  { apply Z.div_lt_upper_bound; nia. }
  lia.
Qed.

(** [BigInt(Math.round(x))] is [floor (x + 1/2)] for every finite [x]
    with at most 53 mantissa bits. *)
Lemma BigInt_Math_round (s : bool) (m : positive) (e : Z) :
  Z.pos m < 2 ^ 53 ->
  BigInt (Math_round (S754_finite s m e))
  = Ok (floor_half (cond_Zopp s (Z.pos m)) e).
Proof.
  intros Hm. unfold Math_round.
  destruct (is_integral (S754_finite s m e)) eqn:Hint.
  - unfold BigInt. rewrite Hint. f_equal.
    destruct e as [| p | k]; cbn [integral_value floor_half].
    + apply cond_Zopp_mul.
    + apply cond_Zopp_mul.
    + cbn [is_integral] in Hint. apply Z.eqb_eq in Hint.
      assert (Hk : 2 ^ Z.pos k <> 0) by (apply Z.pow_nonzero; lia).
      apply Z.div_exact in Hint; [| exact Hk].
      set (c := Z.pos m / 2 ^ Z.pos k) in *.
      rewrite Hint, (Z.mul_comm (2 ^ Z.pos k) c), cond_Zopp_mul.
      symmetry. apply floor_half_integral.
  - destruct e as [| p | k]; try discriminate Hint.
    cbn [floor_half].
    set (z := (2 * cond_Zopp s (Z.pos m) + 2 ^ Z.pos k) / 2 ^ (Z.pos k + 1)).
    destruct (Z.eqb_spec z 0) as [Hz | Hz].
    + rewrite Hz. reflexivity.
    + apply BigInt_of_Z. apply floor_half_bound. destruct s; simpl; lia.
Qed.

Lemma floor_half_unfold (n e : Z) :
  floor_half n e
  = if e <? 0 then (2 * n + 2 ^ (- e)) / 2 ^ (- e + 1) else n * 2 ^ e.
Proof. destruct e; reflexivity. Qed.

Lemma floor_half_shift (n E k : Z) :
  0 <= k -> floor_half (n * 2 ^ k) (E - k) = floor_half n E.
Proof.
  intros Hk. rewrite !floor_half_unfold.
  assert (Hp : 0 < 2 ^ k) by (apply Z.pow_pos_nonneg; lia).
  destruct (Z.ltb_spec (E - k) 0) as [H1 | H1];
    destruct (Z.ltb_spec E 0) as [H2 | H2]; try lia.
  - replace (- (E - k)) with (- E + k) by lia.
    replace (- E + k + 1) with (- E + 1 + k) by lia.
    rewrite !(Z.pow_add_r 2 _ k) by lia.
    replace (2 * (n * 2 ^ k) + 2 ^ (- E) * 2 ^ k)
      with ((2 * n + 2 ^ (- E)) * 2 ^ k) by ring.
    apply Z.div_mul_cancel_r; [apply Z.pow_nonzero |]; lia.
  - destruct (- (E - k)) as [| j | j] eqn:Ej; try lia.
    replace k with (E + Z.pos j) by lia.
    rewrite Z.pow_add_r by lia.
    replace (n * (2 ^ E * 2 ^ Z.pos j)) with (n * 2 ^ E * 2 ^ Z.pos j) by ring.
    replace (- E + - Z.pos j) with (- (E + Z.pos j)) by lia.
    apply floor_half_integral.
  - rewrite <- Z.mul_assoc, <- Z.pow_add_r by lia. f_equal. f_equal. lia.
Qed.

(** The scaled value as an exact integer: what the code's float pipeline
    returns whenever the product does not overflow. *)
Lemma scaleHashrate_finite_Z (s : bool) (m : positive) (e : Z) :
  bounded prec emax m e = true ->
  scaleHashrate (Def (S754_finite s m e))
  = if Z.pos (digits2_pos m) + e <=? 992
    then Ok (floor_half (cond_Zopp s (Z.pos m)) (e + 32))
    else Throw RangeError.
Proof.
  intros Hb. unfold scaleHashrate. cbn [or_zero truthy].
  destruct (mul_HASHRATE_FACTOR s m e Hb) as [Hk ->].
  apply bounded_inv in Hb as [He Hmax].
  set (e' := fexp prec emax (Z.pos (digits2_pos m) + e + 32)) in *.
  assert (He' : e' = Z.max (Z.pos (digits2_pos m) + e - 21) (-1074))
    by (unfold e', fexp, emin, prec, emax; lia).
  destruct (Z.leb_spec e' 971) as [Hfit | Hover];
    destruct (Z.leb_spec (Z.pos (digits2_pos m) + e) 992) as [Hr | Hr]; try lia.
  - set (k := e + 32 - e') in *.
    assert (Hpos : 0 < Z.pos m * 2 ^ k)
      by (apply Z.mul_pos_pos; [lia | apply Z.pow_pos_nonneg; lia]).
    rewrite BigInt_Math_round.
    + rewrite Z2Pos.id by exact Hpos. rewrite cond_Zopp_mul.
      replace e' with (e + 32 - k) by lia.
      f_equal. apply floor_half_shift. exact Hk.
    + rewrite Z2Pos.id by exact Hpos.
      pose proof (digits2_bounds m) as [_ Hhi].
      apply Z.lt_le_trans with (2 ^ Z.pos (digits2_pos m) * 2 ^ k).
      * apply Z.mul_lt_mono_pos_r; [apply Z.pow_pos_nonneg; lia | exact Hhi].
      * rewrite <- Z.pow_add_r by lia. apply Z.pow_le_mono_r; lia.
  - reflexivity.
Qed.

Lemma half_up_integer (c : Z) : (c * 2 + 1) / 2 = c.
Proof. symmetry. apply (Z.div_unique _ 2 c 1); lia. Qed.

Lemma Qfloor_scaled (s : bool) (m : positive) (e : Z) :
  Qfloor (to_Q (S754_finite s m e) * inject_Z (2 ^ 32) + (1 # 2))
  = floor_half (cond_Zopp s (Z.pos m)) (e + 32).
Proof.
  set (n := cond_Zopp s (Z.pos m)).
  rewrite <- (floor_half_shift n (e + 32) 32) by lia.
  replace (e + 32 - 32) with e by lia.
  unfold to_Q. fold n. destruct e as [| p | k];
    unfold Qfloor, Qplus, Qmult, inject_Z, Qnum, Qden; cbn [floor_half].
  - rewrite !Pos.mul_1_l, Z.mul_1_l.
    replace (n * 2 ^ 0 * 2 ^ 32) with (n * 2 ^ 32 * 2 ^ 0) by ring.
    apply half_up_integer.
  - rewrite !Pos.mul_1_l, Z.mul_1_l.
    replace (n * 2 ^ Z.pos p * 2 ^ 32) with (n * 2 ^ 32 * 2 ^ Z.pos p) by ring.
    apply half_up_integer.
  - rewrite !Pos.mul_1_r, Z.mul_1_l, Pos2Z.inj_mul, Pos2Z.inj_pow.
    rewrite Z.pow_add_r by lia. f_equal. ring.
Qed.

Lemma cond_Zopp_abs (s : bool) (p : positive) : Z.abs (cond_Zopp s (Z.pos p)) = Z.pos p.
Proof. destruct s; reflexivity. Qed.

(** Magnitudes below 2^992 are exactly those whose product with 2^32
    stays below 2^1024. *)
Lemma in_range_iff (s : bool) (m : positive) (e : Z) :
  bounded prec emax m e = true ->
  (Qabs (to_Q (S754_finite s m e)) < inject_Z (2 ^ 992))%Q
  <-> Z.pos (digits2_pos m) + e <= 992.
Proof.
  intros Hb. apply bounded_inv in Hb as [He _].
  pose proof (digits2_bounds m) as [Hlo Hhi].
  unfold to_Q. destruct e as [| p | k].
  - unfold Qabs, inject_Z, Qlt, Qnum, Qden.
    rewrite Z.mul_1_r, <- cond_Zopp_mul, Z.mul_1_r, cond_Zopp_abs, Z.add_0_r.
    split.
    + intros H.
      destruct (Z.leb_spec (Z.pos (digits2_pos m)) 992) as [Hd | Hd]; [exact Hd |].
      pose proof (Z.pow_le_mono_r 2 992 (Z.pos (digits2_pos m) - 1)). lia.
    + intros H.
      pose proof (Z.pow_le_mono_r 2 (Z.pos (digits2_pos m)) 992). lia.
  - unfold Qabs, inject_Z, Qlt, Qnum, Qden.
    rewrite Z.mul_1_r, <- cond_Zopp_mul, Z.mul_1_r.
    assert (Hpp : 0 < 2 ^ Z.pos p) by (apply Z.pow_pos_nonneg; lia).
    replace (Z.abs (cond_Zopp s (Z.pos m * 2 ^ Z.pos p))) with (Z.pos m * 2 ^ Z.pos p)
      by (destruct s; simpl cond_Zopp; lia).
    split.
    + intros H.
      destruct (Z.leb_spec (Z.pos (digits2_pos m) + Z.pos p) 992) as [Hd | Hd];
        [exact Hd |].
      pose proof (Z.pow_le_mono_r 2 992 (Z.pos (digits2_pos m) - 1 + Z.pos p)) as Hm.
      rewrite Z.pow_add_r in Hm by lia. nia.
    + intros H.
      pose proof (Z.pow_le_mono_r 2 (Z.pos (digits2_pos m) + Z.pos p) 992) as Hm.
      rewrite Z.pow_add_r in Hm by lia. nia.
  - split; [intros _; lia | intros _].
    unfold Qabs, inject_Z, Qlt, Qnum, Qden. rewrite cond_Zopp_abs.
    rewrite Pos2Z.inj_pow, Z.mul_1_r.
    assert (Hpk : 1 <= 2 ^ Z.pos k) by (apply Z.lt_le_incl, Z.pow_gt_1; lia).
    pose proof (Z.pow_le_mono_r 2 (Z.pos (digits2_pos m)) 992) as Hm.
    assert (0 < 2 ^ 992) by (apply Z.pow_pos_nonneg; lia).
    nia.
Qed.

Lemma scaleHashrate_zero : scaleHashrate (Def pos_zero) = Ok 0.
Proof. vm_compute. reflexivity. Qed.

(** What [scaleHashrate] returns, for every argument. *)
Lemma scaleHashrate_cases (v : nullable number) :
  representable v ->
  (scales_finitely v -> scaleHashrate v = Ok (spec_normalize v)) /\
  (~ scales_finitely v -> scaleHashrate v = Throw RangeError).
Proof.
  intros Hv. destruct v as [| | x]; try (split; [reflexivity | intros H; now destruct H]).
  destruct x as [s | s | | s m e].
  - split; [intros _; reflexivity | intros H; destruct H; reflexivity].
  - split; [intros [] | intros _; destruct s; reflexivity].
  - split; [intros _; reflexivity | intros H; destruct H; reflexivity].
  - unfold representable, is_double, valid_binary in Hv.
    pose proof (in_range_iff s m e Hv) as Hrange.
    rewrite (scaleHashrate_finite_Z s m e Hv).
    unfold scales_finitely, spec_normalize. rewrite Qfloor_scaled.
    destruct (Z.leb_spec (Z.pos (digits2_pos m) + e) 992) as [H | H]; split.
    + reflexivity.
    + intros Hn. exfalso. apply Hn, Hrange. exact H.
    + intros Hr. apply Hrange in Hr. lia.
    + reflexivity.
Qed.

End Scaling.

(** ** Hashrate normalization *)

(** C1, as the code has it: for every non-negative binary64 input [r]
    below 2^992, [scaleHashrate] returns exactly [round(r * 2^32)] as an
    unbounded integer, and for an absent (undefined) or null input it
    returns 0. *)
Theorem scaleHashrate_rounds_in_range (v : nullable number) :
  (forall r, v = Def r ->
     is_double r /\ is_finite r = true /\
     (0 <= to_Q r)%Q /\ (to_Q r < inject_Z (2 ^ 992))%Q) ->
  scaleHashrate v = Ok (spec_normalize v).
Proof.
  intros Hv. apply scaleHashrate_cases.
  - destruct v as [| | r]; simpl; try exact I. now apply (Hv r).
  - destruct v as [| | r]; simpl; try exact I.
    destruct (Hv r eq_refl) as (_ & Hfin & Hpos & Hlt).
    destruct r; try discriminate Hfin; rewrite Qabs_pos; assumption.
Qed.

Lemma scaleHashrate_rounds_in_range_witness :
  scaleHashrate (Def (S754_finite false 5629499534213120 (-51))) = Ok 10737418240.
Proof.
  apply (scaleHashrate_rounds_in_range (Def (S754_finite false 5629499534213120 (-51)))).
  intros r [= <-]. repeat split; vm_compute; congruence.
Defined.

(** C1 as stated fails at 1e300: a non-negative rational that is a
    binary64 value, whose product with 2^32 overflows to Infinity, on
    which [BigInt] throws. *)
Lemma scaleHashrate_1e300_throws :
  let r := of_Z (10 ^ 300) in
  is_double r /\ is_finite r = true /\ (0 <= to_Q r)%Q /\
  scaleHashrate (Def r) = Throw RangeError /\
  scaleHashrate (Def r) <> Ok (spec_normalize (Def r)).
Proof. vm_compute. repeat split; congruence. Qed.

(** C2, as the code has it: [scaleHashrate] is a function of its argument
    alone; on an absent, null, NaN or zero argument and on every finite
    one of magnitude below 2^992 it returns [round(v * 2^32)] without
    raising, negative arguments included (they are not mapped to 0); on
    an infinite argument and from magnitude 2^992 on it raises a
    RangeError. *)
Theorem scaleHashrate_total (v : nullable number) :
  representable v ->
  (scales_finitely v -> scaleHashrate v = Ok (spec_normalize v)) /\
  (~ scales_finitely v -> scaleHashrate v = Throw RangeError).
Proof. apply scaleHashrate_cases. Qed.

Lemma scaleHashrate_total_witness :
  scaleHashrate (Def (of_Z (-1))) = Ok (- 4294967296).
Proof.
  apply (scaleHashrate_total (Def (of_Z (-1)))); vm_compute; congruence.
Defined.

(** C2 as stated fails: -1 is scaled to -4294967296, not mapped to 0, and
    the Infinity that [JSON.parse] makes of [1e999] raises. *)
Lemma scaleHashrate_negative_and_infinite :
  scaleHashrate (Def (of_Z (-1))) = Ok (- 4294967296) /\
  scaleHashrate (Def (of_Z (-1))) <> Ok 0 /\
  scaleHashrate (Def (S754_infinity false)) = Throw RangeError.
Proof. vm_compute. repeat split; congruence. Qed.

(** ** Batching *)

Section Batches.

Context {A : Type}.
Implicit Types (l : list A) (i : nat).

Lemma batches_unfold l i :
  Batched.batches l i
  = if decide (i < length l)%nat
    then slice l i (i + Batched.BATCH_SIZE) :: Batched.batches l (i + Batched.BATCH_SIZE)
    else [].
Proof.
  rewrite Batched.batches_equation_1. destruct (decide (i < length l)%nat); reflexivity.
Qed.

Lemma slice_batch l i :
  slice l i (i + Batched.BATCH_SIZE) = take Batched.BATCH_SIZE (drop i l).
Proof. unfold slice. f_equal. lia. Qed.

Lemma batches_ind (P : nat -> Prop) l :
  (forall i, (length l <= i)%nat -> P i) ->
  (forall i, (i < length l)%nat -> P (i + Batched.BATCH_SIZE)%nat -> P i) ->
  forall i, P i.
Proof.
  intros Hstop Hstep i.
  remember (length l - i)%nat as n eqn:Hn. revert i Hn.
  induction n as [n IH] using lt_wf_ind. intros i Hn.
  destruct (decide (i < length l)%nat) as [Hlt | Hge].
  - apply Hstep; [exact Hlt |].
    apply (IH (length l - (i + Batched.BATCH_SIZE))%nat); [| reflexivity].
    unfold Batched.BATCH_SIZE. lia.
  - apply Hstop. lia.
Qed.

Lemma concat_batches l i : concat (Batched.batches l i) = drop i l.
Proof.
  revert i. apply (batches_ind _ l); [intros i Hi | intros i Hi IH];
    rewrite batches_unfold; destruct (decide (i < length l)%nat); try lia.
  - now rewrite drop_ge.
  - cbn [concat]. rewrite IH, slice_batch.
    rewrite <- drop_drop. apply take_drop.
Qed.

Lemma length_batches l i :
  length (Batched.batches l i)
  = ((length l - i + (Batched.BATCH_SIZE - 1)) / Batched.BATCH_SIZE)%nat.
Proof.
  revert i. apply (batches_ind _ l); [intros i Hi | intros i Hi IH];
    rewrite batches_unfold; destruct (decide (i < length l)%nat); try lia.
  - replace (length l - i)%nat with 0%nat by lia. reflexivity.
  - cbn [length]. rewrite IH. unfold Batched.BATCH_SIZE.
    destruct (decide (i + 10 <= length l)%nat) as [Hfull | Hlast].
    + replace (length l - i + (10 - 1))%nat
        with ((length l - (i + 10) + (10 - 1)) + 1 * 10)%nat by lia.
      rewrite Nat.div_add by lia. lia.
    + replace (length l - (i + 10))%nat with 0%nat by lia.
      change (S ((0 + (10 - 1)) / 10))%nat with 1%nat.
      apply (Nat.div_unique _ 10 1 (length l - i - 1)); lia.
Qed.

(** Every batch is full except possibly the last one, which is not
    empty. *)
Lemma batches_sizes l i (bs : list (list A)) (b : list A) :
  Batched.batches l i = bs ++ [b] ->
  Forall (fun b' => length b' = Batched.BATCH_SIZE) bs /\
  (0 < length b <= Batched.BATCH_SIZE)%nat.
Proof.
  revert i bs. apply (batches_ind (fun i => forall bs, _ -> _) l);
    [intros i Hi bs | intros i Hi IH bs];
    rewrite batches_unfold; destruct (decide (i < length l)%nat); try lia.
  - intros H. now destruct bs.
  - rewrite slice_batch. intros H.
    destruct bs as [| b0 bs'].
    + injection H as Hb _. subst b. split; [constructor |].
      rewrite length_take, length_drop. unfold Batched.BATCH_SIZE. lia.
    + injection H as Hb0 Hrest. destruct (IH bs' Hrest) as [Hfull Hlast].
      split; [| exact Hlast]. constructor; [| exact Hfull].
      subst b0. rewrite length_take, length_drop.
      assert (length (Batched.batches l (i + Batched.BATCH_SIZE)) <> 0)%nat as Hne
        by (rewrite Hrest, length_app; simpl; lia).
      rewrite length_batches in Hne. unfold Batched.BATCH_SIZE in *.
      destruct (decide (length l - (i + 10) = 0)%nat) as [Hz | Hz]; [| lia].
      rewrite Hz in Hne. now simpl in Hne.
Qed.

Lemma batches_full_but_last l i :
  Forall (fun g => length g = Batched.BATCH_SIZE) (removelast (Batched.batches l i)) /\
  Forall (fun g => (0 < length g <= Batched.BATCH_SIZE)%nat) (Batched.batches l i).
Proof.
  destruct (Batched.batches l i) as [| g0 gs0] eqn:E.
  - split; constructor.
  - destruct (exists_last (l := g0 :: gs0)) as (gs & g & Hg); [discriminate |].
    rewrite Hg in *. destruct (batches_sizes l i gs g E) as [Hfull Hlast].
    rewrite removelast_last. split; [exact Hfull |].
    apply Forall_app. split; [| now constructor].
    eapply Forall_impl; [exact Hfull |]. simpl. unfold Batched.BATCH_SIZE. lia.
Qed.

(** The loop awaits [process] on these batches, in this order. *)
Lemma batch_loop_batches l (process : list A -> M unit) i :
  Batched.batch_loop l process i = for_of (Batched.batches l i) process.
Proof.
  revert i. apply (batches_ind _ l); [intros i Hi | intros i Hi IH];
    rewrite batches_unfold, Batched.batch_loop_equation_1;
    destruct (decide (i < length l)%nat); try lia.
  - reflexivity.
  - cbn. now rewrite IH.
Qed.

End Batches.

(** C5: the coordinator cuts the snapshot's users into consecutive groups
    of [BATCH_SIZE = 10] in snapshot order and awaits them one after the
    other: the groups concatenated are the full list of entries, so each
    address is in exactly one group, once; there are ceil(N/10) groups;
    every group but the last holds 10 entries and the last one between 1
    and 10; and once the snapshot is parsed and the connection open,
    [updateUsersFromJson] is the loop that awaits [Promise.all] on each of
    these groups in turn, followed by [db.destroy()]. *)
Theorem batches_partition (X : externals) (env : environment) (json : P2PoolJson.t) :
  let userEntries := entries (P2PoolJson.users json) in
  let groups := Batched.batches userEntries 0 in
  Batched.BATCH_SIZE = 10%nat /\
  concat groups = userEntries /\
  length groups = ((length userEntries + 9) / 10)%nat /\
  Forall (fun g => length g = 10%nat) (removelast groups) /\
  Forall (fun g => (0 < length g <= 10)%nat) groups /\
  (forall process : list (string * P2PoolUser.t) -> M unit,
     Batched.batch_loop userEntries process 0 = for_of groups process) /\
  (forall w, file env = Parsed json -> connects env = true ->
     Batched.updateUsersFromJson X env w
     = try_finally (for_of groups (Batched.Promise_all X env)) (destroy env) w).
Proof.
  intros userEntries groups.
  split; [reflexivity |]. split; [| split; [| split; [| split; [| split]]]].
  - unfold groups. rewrite concat_batches. apply drop_0.
  - unfold groups. rewrite length_batches. unfold Batched.BATCH_SIZE.
    f_equal. lia.
  - apply (batches_full_but_last userEntries 0).
  - apply (batches_full_but_last userEntries 0).
  - intros process. apply batch_loop_batches.
  - intros w Hfile Hconn.
    unfold Batched.updateUsersFromJson, read_and_parse, getDb.
    rewrite Hfile, Hconn. unfold mbind, M_bind. cbn.
    unfold try_finally. now rewrite batch_loop_batches.
Qed.

Lemma batches_partition_witness :
  let env := Sample.calm (Parsed Sample.eleven_users) in
  let w0 := initial_world empty_store 1 in
  Batched.updateUsersFromJson Sample.externals_stub env w0
  = try_finally
      (for_of (Batched.batches (entries (P2PoolJson.users Sample.eleven_users)) 0)
         (Batched.Promise_all Sample.externals_stub env))
      (destroy env) w0.
Proof.
  intros env w0.
  destruct (batches_partition Sample.externals_stub env Sample.eleven_users)
    as (_ & _ & _ & _ & _ & _ & Hrun).
  apply Hrun; reflexivity.
Defined.

(** ** The pool-level hashrate *)

Section Fallback.

Lemma hashrateFields_spec (p2pool : P2PoolJson.t) :
  hashrateFields p2pool = spec_fallback p2pool.
Proof.
  unfold hashrateFields, spec_fallback.
  destruct (P2PoolJson.computed_hashrate p2pool) as [| | rollup];
    destruct (values (P2PoolJson.users p2pool)) as [| user rest]; cbn; try reflexivity;
    destruct (P2PoolUser.computed_hash_rate user) as [| | aggregate]; cbn;
    try reflexivity;
    destruct (values (P2PoolUser.workers user)) as [| worker others]; cbn;
    try reflexivity;
    destruct (P2PoolWorker.computed_hash_rate worker); reflexivity.
Qed.

Lemma BigInt_round_trip (z : Z) : BigInt_of_string (BigInt_toString z) = Ok z.
Proof.
  unfold BigInt_of_string, BigInt_toString.
  rewrite NilEmpty.isi. f_equal. apply DecimalZ.of_to.
Qed.

(** The row's integers are the fields through [scaleHashrate]. *)
Lemma recorded_columns_spec (f : ComputedHashRate.t) :
  scale_fields f ≫= bigint_columns = recorded_columns f.
Proof.
  unfold scale_fields, recorded_columns, bigint_columns, scaleHashrate_text.
  destruct f as [f1 f2 f3 f4 f5 f6 f7]; cbn.
  destruct (scaleHashrate f1); cbn; [| reflexivity].
  destruct (scaleHashrate f2); cbn; [| reflexivity].
  destruct (scaleHashrate f3); cbn; [| reflexivity].
  destruct (scaleHashrate f4); cbn; [| reflexivity].
  destruct (scaleHashrate f5); cbn; [| reflexivity].
  destruct (scaleHashrate f6); cbn; [| reflexivity].
  destruct (scaleHashrate f7); cbn; [| reflexivity].
  rewrite !BigInt_round_trip. reflexivity.
Qed.

Variable X : externals.
Variable env : environment.

Lemma Seed_recorded (p2pool : P2PoolJson.t) :
  Seed.p2poolToCkpool X env p2pool
    ≫= (fun stats => bigint_columns (PoolStatsData.hashrate stats))
  = recorded_columns (spec_fallback p2pool).
Proof.
  rewrite <- recorded_columns_spec, <- hashrateFields_spec.
  unfold Seed.p2poolToCkpool.
  destruct (scale_fields (hashrateFields p2pool)); reflexivity.
Qed.

Lemma Part001_recorded (p2pool : P2PoolJson.t) :
  Part001.p2poolToCkpool X env p2pool
    ≫= (fun stats => bigint_columns (PoolStatsData.hashrate stats))
  = recorded_columns (spec_fallback p2pool).
Proof.
  rewrite <- recorded_columns_spec, <- hashrateFields_spec.
  unfold Part001.p2poolToCkpool.
  destruct (scale_fields (hashrateFields p2pool)); reflexivity.
Qed.

End Fallback.

(** ** The batched script's rows *)

Section BatchedRows.

Variable X : externals.

Lemma converted_columns_keys (c : nullable ComputedHashRate.t) (columns : object) :
  Batched.converted_columns X c = Ok columns ->
  exists h1m h5m h1hr h1d h7d,
    columns = list_to_map
      [("hashrate1m", h1m); ("hashrate5m", h5m); ("hashrate1hr", h1hr);
       ("hashrate1d", h1d); ("hashrate7d", h7d)].
Proof.
  unfold Batched.converted_columns.
  destruct (nullish c ComputedHashRate.empty) as [f1 f2 f3 f4 f5 f6 f7]; cbn.
  destruct (Batched.converted X f1) as [h1m |]; cbn; [| intros [=]].
  destruct (Batched.converted X f2) as [h5m |]; cbn; [| intros [=]].
  destruct (Batched.converted X f4) as [h1hr |]; cbn; [| intros [=]].
  destruct (Batched.converted X f6) as [h1d |]; cbn; [| intros [=]].
  destruct (Batched.converted X f7) as [h7d |]; cbn; [| intros [=]].
  intros [= <-]. now exists h1m, h5m, h1hr, h1d, h7d.
Qed.

Lemma userStats_lastShare (address : string) (user : P2PoolUser.t) (row : object) :
  Batched.userStats_of X address user = Ok row ->
  row !! "lastShare" = Some (VString (Batched.lastShare X user)).
Proof.
  unfold Batched.userStats_of.
  destruct (Batched.converted_columns X _) as [columns |] eqn:E; cbn; [| intros [=]].
  apply converted_columns_keys in E as (h1m & h5m & h1hr & h1d & h7d & ->).
  intros [= <-]. reflexivity.
Qed.

End BatchedRows.

(** ** [Math.max] *)

Section MathMax.

Lemma SFcompare_finite_lt (s : bool) (m1 m2 : positive) (e1 e2 : Z) :
  SFcompare (S754_finite s m1 e1) (S754_finite s m2 e2)
  = Some (if s
          then CompOpp (match e1 ?= e2 with Eq => (m1 ?= m2)%positive | c => c end)
          else match e1 ?= e2 with Eq => (m1 ?= m2)%positive | c => c end).
Proof. destruct s; simpl; destruct (e1 ?= e2); reflexivity. Qed.

Lemma lex_lt_trans (e1 e2 e3 : Z) (m1 m2 m3 : positive) :
  match e1 ?= e2 with Eq => (m1 ?= m2)%positive | c => c end = Lt ->
  match e2 ?= e3 with Eq => (m2 ?= m3)%positive | c => c end = Lt ->
  match e1 ?= e3 with Eq => (m1 ?= m3)%positive | c => c end = Lt.
Proof.
  destruct (Z.compare_spec e1 e2), (Z.compare_spec e2 e3), (Z.compare_spec e1 e3);
    try discriminate; try lia; try reflexivity;
    rewrite ?Pos.compare_lt_iff; lia.
Qed.

Lemma lex_gt_trans (e1 e2 e3 : Z) (m1 m2 m3 : positive) :
  match e1 ?= e2 with Eq => (m1 ?= m2)%positive | c => c end = Gt ->
  match e2 ?= e3 with Eq => (m2 ?= m3)%positive | c => c end = Gt ->
  match e1 ?= e3 with Eq => (m1 ?= m3)%positive | c => c end = Gt.
Proof.
  destruct (Z.compare_spec e1 e2), (Z.compare_spec e2 e3), (Z.compare_spec e1 e3);
    try discriminate; try lia; try reflexivity;
    rewrite ?Pos.compare_gt_iff; lia.
Qed.

(** [<] on numbers is transitive. *)
Lemma SFltb_trans (a b c : number) :
  SFltb a b = true -> SFltb b c = true -> SFltb a c = true.
Proof.
  unfold SFltb. intros Hab Hbc.
  destruct a as [[] | [] | | [] ma ea], b as [[] | [] | | [] mb eb],
    c as [[] | [] | | [] mc ec];
    try discriminate Hab; try discriminate Hbc; try reflexivity;
    rewrite SFcompare_finite_lt in *; cbn [CompOpp] in *.
  - destruct (match ea ?= eb with Eq => (ma ?= mb)%positive | c => c end) eqn:E1;
      try discriminate;
      destruct (match eb ?= ec with Eq => (mb ?= mc)%positive | c => c end) eqn:E2;
      try discriminate.
    now rewrite (lex_gt_trans _ _ _ _ _ _ E1 E2).
  - destruct (match ea ?= eb with Eq => (ma ?= mb)%positive | c => c end) eqn:E1;
      try discriminate;
      destruct (match eb ?= ec with Eq => (mb ?= mc)%positive | c => c end) eqn:E2;
      try discriminate.
    now rewrite (lex_lt_trans _ _ _ _ _ _ E1 E2).
Qed.

Lemma lex_refl (e : Z) (m : positive) :
  match e ?= e with Eq => (m ?= m)%positive | c => c end = Eq.
Proof. now rewrite Z.compare_refl, Pos.compare_refl. Qed.

Lemma SFltb_irrefl (a : number) : SFltb a a = false.
Proof.
  unfold SFltb. destruct a as [[] | [] | | [] m e]; try reflexivity;
    rewrite SFcompare_finite_lt, lex_refl; reflexivity.
Qed.

Lemma lex_lt_negtrans (e1 e2 e3 : Z) (m1 m2 m3 : positive) :
  match e1 ?= e3 with Eq => (m1 ?= m3)%positive | c => c end = Lt ->
  match e1 ?= e2 with Eq => (m1 ?= m2)%positive | c => c end = Lt \/
  match e2 ?= e3 with Eq => (m2 ?= m3)%positive | c => c end = Lt.
Proof.
  destruct (Z.compare_spec e1 e2), (Z.compare_spec e2 e3), (Z.compare_spec e1 e3);
    try discriminate; try lia; auto;
    rewrite ?Pos.compare_lt_iff; lia.
Qed.

Lemma lex_gt_negtrans (e1 e2 e3 : Z) (m1 m2 m3 : positive) :
  match e1 ?= e3 with Eq => (m1 ?= m3)%positive | c => c end = Gt ->
  match e1 ?= e2 with Eq => (m1 ?= m2)%positive | c => c end = Gt \/
  match e2 ?= e3 with Eq => (m2 ?= m3)%positive | c => c end = Gt.
Proof.
  destruct (Z.compare_spec e1 e2), (Z.compare_spec e2 e3), (Z.compare_spec e1 e3);
    try discriminate; try lia; auto;
    rewrite ?Pos.compare_gt_iff; lia.
Qed.

(** A number below [c] is below any [b], or [b] is below [c]. *)
Lemma SFltb_negtrans (a b c : number) :
  is_nan b = false ->
  SFltb a c = true -> SFltb a b = true \/ SFltb b c = true.
Proof.
  unfold SFltb. intros Hb Hac.
  destruct a as [[] | [] | | [] ma ea], b as [[] | [] | | [] mb eb],
    c as [[] | [] | | [] mc ec];
    try discriminate Hb; try discriminate Hac; auto;
    rewrite !SFcompare_finite_lt in *; cbn [CompOpp] in *.
  - destruct (match ea ?= ec with Eq => (ma ?= mc)%positive | c => c end) eqn:E;
      try discriminate.
    destruct (lex_gt_negtrans ea eb ec ma mb mc E) as [-> | ->]; auto.
  - destruct (match ea ?= ec with Eq => (ma ?= mc)%positive | c => c end) eqn:E;
      try discriminate.
    destruct (lex_lt_negtrans ea eb ec ma mb mc E) as [-> | ->]; auto.
Qed.

Lemma max_step_cases (h x : number) :
  (max_step h x = h \/ max_step h x = x) /\
  SFltb (max_step h x) h = false /\ SFltb (max_step h x) x = false.
Proof.
  assert (Hgen : (if SFltb h x then x else h) = h \/ (if SFltb h x then x else h) = x)
    by (destruct (SFltb h x); auto).
  assert (Hh : SFltb (if SFltb h x then x else h) h = false).
  { destruct (SFltb h x) eqn:E; [| apply SFltb_irrefl].
    destruct (SFltb x h) eqn:E'; [| reflexivity].
    rewrite <- (SFltb_irrefl h). symmetry. now apply (SFltb_trans h x h). }
  assert (Hx : SFltb (if SFltb h x then x else h) x = false)
    by (destruct (SFltb h x) eqn:E; [apply SFltb_irrefl | exact E]).
  unfold max_step.
  destruct h as [[] | | |]; try (now split);
    destruct x as [[] | | |]; try (now split).
  split; [now right | split; reflexivity].
Qed.

(** Folding [max_step] from [h] over NaN-free numbers ends on [h] or on
    one of them, and none of them, nor [h], is greater than the result. *)
Lemma fold_max_step (l : list number) (h : number) :
  Forall (fun x => is_nan x = false) l ->
  is_nan h = false ->
  let r := fold_left max_step l h in
  (r = h \/ r ∈ l) /\ is_nan r = false /\ SFltb r h = false /\
  Forall (fun x => SFltb r x = false) l.
Proof.
  revert h. induction l as [| x l IH]; intros h Hl Hh; cbn.
  - repeat split; auto. apply SFltb_irrefl.
  - inversion Hl as [| ? ? Hx Hl']; subst.
    destruct (max_step_cases h x) as (Hsel & Hgeh & Hgex).
    assert (Hnan : is_nan (max_step h x) = false) by (destruct Hsel as [-> | ->]; auto).
    destruct (IH (max_step h x) Hl' Hnan) as (Hmem & Hr & Hge & Hall).
    set (r := fold_left max_step l (max_step h x)) in *.
    assert (Hdown : forall y, SFltb (max_step h x) y = false -> SFltb r y = false).
    { intros y Hy. destruct (SFltb r y) eqn:E; [| reflexivity].
      destruct (SFltb_negtrans r (max_step h x) y Hnan E) as [H | H]; congruence. }
    repeat split.
    + destruct Hmem as [-> | Hmem].
      * destruct Hsel as [-> | ->]; [now left | right; constructor].
      * right. now constructor.
    + exact Hr.
    + now apply Hdown.
    + constructor; [now apply Hdown | exact Hall].
Qed.

(** [Math.max] of NaN-free arguments, at least one: one of them, and none
    of them is greater. *)
Lemma Math_max_greatest (l : list number) :
  Forall (fun x => is_nan x = false) l -> l <> [] ->
  Math_max l ∈ l /\ Forall (fun x => SFltb (Math_max l) x = false) l.
Proof.
  intros Hl Hne. unfold Math_max.
  replace (existsb is_nan l) with false.
  2:{ symmetry. apply not_true_is_false. intros H.
      apply existsb_exists in H as (x & Hx & Hnan).
      rewrite Forall_forall in Hl. apply list_elem_of_In in Hx.
      specialize (Hl x Hx). congruence. }
  destruct l as [| x l]; [congruence |]. cbn [fold_left].
  inversion Hl as [| ? ? Hx Hl']; subst.
  destruct (max_step_cases neg_infinity x) as (Hsel & _ & Hgex).
  assert (Hfirst : max_step neg_infinity x = x).
  { destruct Hsel as [H | H]; [| exact H]. unfold max_step in *.
    destruct x as [[] | [] | |]; try discriminate Hx; try discriminate H; reflexivity. }
  rewrite Hfirst.
  destruct (fold_max_step l x Hl' Hx) as (Hmem & _ & Hge & Hall).
  split.
  - destruct Hmem as [-> | Hmem]; [constructor | now constructor].
  - now constructor.
Qed.

End MathMax.

Lemma or_zero_not_nan (v : nullable number) : is_nan (or_zero v) = false.
Proof. destruct v as [| | []]; reflexivity. Qed.

(** ** Reasoning on computations *)

Lemma run_bind {A B} (m : M A) (f : A -> M B) (w w' : world) (a : A) :
  m w = (Ok a, w') -> (m ≫= f) w = f a w'.
Proof. intros H. unfold mbind, M_bind. now rewrite H. Qed.

Section Stable.

Context (P : world -> Prop).

Lemma stable_ret {A} (a : A) : stable P (mret a).
Proof. intros w Hw. exact Hw. Qed.

Lemma stable_bind {A B} (m : M A) (f : A -> M B) :
  stable P m -> (forall a, stable P (f a)) -> stable P (m ≫= f).
Proof.
  intros Hm Hf w Hw. unfold mbind, M_bind.
  specialize (Hm w Hw). destruct (m w) as [[a | e] w']; [| exact Hm].
  now apply Hf.
Qed.

Lemma stable_lift {A} (r : result A) : stable P (lift r).
Proof. intros w Hw. exact Hw. Qed.

Lemma stable_throw {A} (e : error) : stable P (throw (A := A) e).
Proof. intros w Hw. exact Hw. Qed.

Lemma stable_get_world : stable P get_world.
Proof. intros w Hw. exact Hw. Qed.

Lemma stable_modify (f : world -> world) :
  (forall w, P w -> P (f w)) -> stable P (modify f).
Proof. intros Hf w Hw. now apply Hf. Qed.

Lemma stable_for_of {A} (l : list A) (body : A -> M unit) :
  (forall x, stable P (body x)) -> stable P (for_of l body).
Proof.
  intros Hbody. induction l as [| x l IH]; cbn [for_of].
  - apply stable_ret.
  - apply stable_bind; [apply Hbody | intros _; exact IH].
Qed.

Lemma stable_try_catch {A} (body : M A) (handler : error -> M A) :
  stable P body -> (forall e, stable P (handler e)) -> stable P (try_catch body handler).
Proof.
  intros Hb Hh w Hw. unfold try_catch.
  specialize (Hb w Hw). destruct (body w) as [[a | e] w']; [exact Hb |].
  now apply Hh.
Qed.

Lemma stable_try_finally {A} (body : M A) (fin : M unit) :
  stable P body -> stable P fin -> stable P (try_finally body fin).
Proof.
  intros Hb Hf w Hw. unfold try_finally.
  specialize (Hb w Hw). destruct (body w) as [r w'].
  specialize (Hf w' Hb). destruct (fin w') as [[[] | e] w'']; exact Hf.
Qed.

Lemma stable_run_query (env : environment) (q : query) : stable P (run_query env q).
Proof. unfold run_query. destruct (fault env q); [apply stable_throw | apply stable_ret]. Qed.

Lemma stable_getDb (env : environment) :
  (forall e w, P w -> P (add_stderr e w)) -> stable P (getDb env).
Proof.
  intros Hprint. unfold getDb. destruct (connects env); [apply stable_ret |].
  apply stable_bind; [| intros _; apply stable_throw].
  apply stable_modify. intros w. apply Hprint.
Qed.

Lemma stable_destroy (env : environment) : stable P (destroy env).
Proof. unfold destroy. destruct (destroys env); [apply stable_ret | apply stable_throw]. Qed.

Lemma stable_read_and_parse (env : environment) : stable P (read_and_parse env).
Proof.
  unfold read_and_parse.
  destruct (file env); [apply stable_throw | apply stable_throw | apply stable_ret].
Qed.

End Stable.

Section StableStore.

Context (Q : store -> Prop) (env : environment).

Lemma both_set_view (h : handle) (s : store) (w : world) :
  both Q w -> Q s -> both Q (set_view h s w).
Proof. intros [Hc Hw] Hs. destruct h; split; assumption. Qed.

Lemma both_view (h : handle) (w : world) : both Q w -> Q (view h w).
Proof. intros [Hc Hw]. destruct h; assumption. Qed.

Lemma both_set_worker_seq (n : Z) (w : world) : both Q w -> both Q (set_worker_seq n w).
Proof. intros H. exact H. Qed.

Lemma both_set_db (b : bool) (w : world) : both Q w -> both Q (set_db b w).
Proof. intros H. exact H. Qed.

Lemma both_add_stderr (e : error) (w : world) : both Q w -> both Q (add_stderr e w).
Proof. intros H. exact H. Qed.

Lemma stable_console_error (e : error) : stable (both Q) (console_error e).
Proof. apply stable_modify. intros w. apply both_add_stderr. Qed.

Lemma stable_User_findOne (h : handle) (address : string) :
  stable (both Q) (User_findOne env h address).
Proof.
  unfold User_findOne.
  apply stable_bind; [apply stable_run_query | intros _].
  apply stable_bind; [apply stable_get_world | intros w; apply stable_ret].
Qed.

Lemma stable_Worker_findOne (h : handle) (address name : string) :
  stable (both Q) (Worker_findOne env h address name).
Proof.
  unfold Worker_findOne.
  apply stable_bind; [apply stable_run_query | intros _].
  apply stable_bind; [apply stable_get_world | intros w; apply stable_ret].
Qed.

(** A write through [h] keeps [both Q] when the new rows satisfy [Q]
    whenever the rows [h] sees do. The world read by [get_world] is the
    current one. *)
Lemma stable_write {A} (h : handle) (q : query) (change : world -> store)
    (after : world -> M A) :
  (forall w, both Q w -> Q (change w)) ->
  (forall w, stable (both Q) (after w)) ->
  stable (both Q)
    (_ ← run_query env q; w ← get_world;
     _ ← modify (set_view h (change w)); after w).
Proof.
  intros Hchange Hafter w Hw. unfold mbind, M_bind, run_query.
  destruct (fault env q); cbn; [exact Hw |].
  apply Hafter. apply both_set_view; [exact Hw | now apply Hchange].
Qed.

Lemma stable_UserStats_save (h : handle) (entity : object) :
  (forall s, Q s -> Q (mkStore (users s) (userStats s ++ [entity]) (workers s)
                         (workerStats s) (poolStats s))) ->
  stable (both Q) (UserStats_save env h entity).
Proof.
  intros HQ. unfold UserStats_save.
  apply (stable_write h _ (fun w => mkStore _ _ _ _ _) (fun _ => mret entity)).
  - intros w Hw. apply HQ. now apply both_view.
  - intros _. apply stable_ret.
Qed.

Lemma stable_WorkerStats_save (h : handle) (entity : object) :
  (forall s, Q s -> Q (mkStore (users s) (userStats s) (workers s)
                         (workerStats s ++ [entity]) (poolStats s))) ->
  stable (both Q) (WorkerStats_save env h entity).
Proof.
  intros HQ. unfold WorkerStats_save.
  apply (stable_write h _ (fun w => mkStore _ _ _ _ _) (fun _ => mret entity)).
  - intros w Hw. apply HQ. now apply both_view.
  - intros _. apply stable_ret.
Qed.

Lemma stable_PoolStats_save (h : handle) (entity : object) :
  (forall s, Q s -> Q (mkStore (users s) (userStats s) (workers s)
                         (workerStats s) (poolStats s ++ [entity]))) ->
  stable (both Q) (PoolStats_save env h entity).
Proof.
  intros HQ. unfold PoolStats_save.
  apply (stable_write h _ (fun w => mkStore _ _ _ _ _) (fun _ => mret entity)).
  - intros w Hw. apply HQ. now apply both_view.
  - intros _. apply stable_ret.
Qed.

Lemma stable_User_save (h : handle) (entity : object) :
  (forall s address,
     Q s -> string_of (entity !! "address") = Some address ->
     Q (mkStore (<[address := entity ∪ default ∅ (users s !! address)]> (users s))
          (userStats s) (workers s) (workerStats s) (poolStats s))) ->
  stable (both Q) (User_save env h entity).
Proof.
  intros HQ w Hw. unfold User_save, mbind, M_bind, run_query.
  destruct (fault env _); cbn; [exact Hw |].
  destruct (string_of (entity !! "address")) as [address |] eqn:E; cbn; [| exact Hw].
  apply both_set_view; [exact Hw |]. apply HQ; [now apply both_view | reflexivity].
Qed.

Lemma stable_Worker_save (h : handle) (entity : object) :
  (forall s rows, Q s -> Q (mkStore (users s) (userStats s) rows
                              (workerStats s) (poolStats s))) ->
  stable (both Q) (Worker_save env h entity).
Proof.
  intros HQ w Hw. unfold Worker_save, mbind, M_bind, run_query.
  destruct (fault env _); cbn; [exact Hw |].
  destruct (id_of (entity !! "id")) as [id |]; cbn.
  - apply both_set_view; [exact Hw |]. apply HQ. now apply both_view.
  - apply both_set_view; [exact Hw |]. apply HQ. now apply (both_view h).
Qed.

Lemma stable_transaction {A} (reaches_commit : bool) (body : M A) :
  stable (both Q) body -> stable (both Q) (transaction reaches_commit body).
Proof.
  intros Hbody w [Hc Hw]. unfold transaction.
  assert (Hstart : both Q (set_working (committed w) w)) by (split; exact Hc).
  specialize (Hbody _ Hstart).
  destruct (body (set_working (committed w) w)) as [[a | e] w']; cbn in *;
    [destruct reaches_commit |]; destruct Hbody as [Hc' Hw']; split; assumption.
Qed.

End StableStore.

(** ** The batched script keeps users active *)

Section BatchedStable.

Context (Q : store -> Prop) (X : externals) (env : environment).

(** [Q] looks at the User rows only, and accepts the save of an entity
    whose [isActive] is [true]. *)
Hypothesis Q_users_only :
  forall s us ws wss ps, Q s -> Q (mkStore (users s) us ws wss ps).
Hypothesis Q_active_save :
  forall s address (entity : object),
    Q s -> entity !! "isActive" = Some (VBool true) ->
    Q (mkStore (<[address := entity ∪ default ∅ (users s !! address)]> (users s))
         (userStats s) (workers s) (workerStats s) (poolStats s)).

Lemma stable_upsert_worker (address : string) (entry : string * P2PoolWorker.t) :
  stable (both Q) (Batched.upsert_worker X env address entry).
Proof.
  destruct entry as [workerName worker]. unfold Batched.upsert_worker.
  apply stable_bind; [apply stable_Worker_findOne | intros dbWorker].
  apply stable_bind; [apply stable_lift | intros workerValues].
  apply stable_bind; [| intros savedWorker].
  - apply stable_Worker_save. intros s rows. apply Q_users_only.
  - apply stable_bind; [| intros _; apply stable_ret].
    apply stable_WorkerStats_save. intros s. apply Q_users_only.
Qed.

Lemma stable_unit_of_work (entry : string * P2PoolUser.t) :
  stable (both Q) (Batched.unit_of_work X env entry).
Proof.
  destruct entry as [address user]. unfold Batched.unit_of_work.
  apply stable_bind; [apply stable_User_findOne | intros dbUser].
  apply stable_bind; [| intros _].
  - apply stable_User_save. intros s a Hs _. apply Q_active_save; [exact Hs |].
    destruct dbUser as [row |]; [| reflexivity].
    rewrite lookup_insert_ne by discriminate. apply lookup_insert_eq.
  - apply stable_bind; [apply stable_lift | intros userStats].
    apply stable_bind; [| intros _].
    + apply stable_UserStats_save. intros s. apply Q_users_only.
    + apply stable_for_of. intros worker. apply stable_upsert_worker.
Qed.

Lemma stable_settle_all (reaches_commit : string -> bool)
    (batch : list (string * P2PoolUser.t)) (w : world) :
  both Q w -> both Q (Batched.settle_all X env reaches_commit batch w).2.
Proof.
  revert w. induction batch as [| entry rest IH]; intros w Hw; cbn; [exact Hw |].
  pose proof (stable_transaction Q (reaches_commit entry.1) _
                (stable_unit_of_work entry) w Hw) as Hstep.
  unfold Batched.settle.
  destruct (transaction _ _ w) as [r w']. specialize (IH w' Hstep).
  destruct (Batched.settle_all X env reaches_commit rest w') as [rs w'']. exact IH.
Qed.

Lemma stable_Promise_all (batch : list (string * P2PoolUser.t)) :
  stable (both Q) (Batched.Promise_all X env batch).
Proof.
  intros w Hw. unfold Batched.Promise_all.
  pose proof (stable_settle_all (fun _ => true) batch w Hw) as H1.
  pose proof (stable_settle_all (survives env) batch w Hw) as H2.
  destruct (Batched.settle_all X env (fun _ => true) batch w) as [outcomes w'].
  destruct (Batched.first_rejection env batch outcomes); [exact H2 | exact H1].
Qed.

Lemma stable_Batched_run : stable (both Q) (Batched.updateUsersFromJson X env).
Proof.
  unfold Batched.updateUsersFromJson.
  apply stable_bind; [apply stable_read_and_parse | intros json].
  apply stable_bind; [apply stable_getDb; intros ? ? H; exact H | intros _].
  apply stable_try_finally; [| apply stable_destroy].
  rewrite batch_loop_batches. apply stable_for_of. intros batch.
  apply stable_Promise_all.
Qed.

Lemma Batched_main_keeps (s : store) (next_id : Z) :
  Q s -> Q (committed (Batched.main X env (initial_world s next_id)).2).
Proof.
  intros Hs. unfold Batched.main.
  assert (Hw : both Q (initial_world s next_id)) by (split; exact Hs).
  pose proof (stable_Batched_run _ Hw) as H.
  destruct (Batched.updateUsersFromJson X env (initial_world s next_id))
    as [[[] | e] w']; apply H.
Qed.

End BatchedStable.

(** ** The scripts that save [{ address }] alone *)

Section PartialSaves.

Context (Q : store -> Prop) (env : environment).

Hypothesis Q_users_only :
  forall s us ws wss ps, Q s -> Q (mkStore (users s) us ws wss ps).
Hypothesis Q_address_save :
  forall s address,
    Q s ->
    Q (mkStore (<[address := {[ "address" := VString address ]}
                              ∪ default ∅ (users s !! address)]> (users s))
         (userStats s) (workers s) (workerStats s) (poolStats s)).

Lemma stable_address_save (h : handle) (address : string) :
  stable (both Q) (User_save env h {[ "address" := VString address ]}).
Proof.
  apply stable_User_save. intros s a Hs Ha.
  rewrite lookup_singleton_eq in Ha. injection Ha as <-. now apply Q_address_save.
Qed.

Lemma stable_FromLogs_worker (json : P2PoolJson.t) (address : string)
    (worker : string * P2PoolWorker.t) :
  stable (both Q) (FromLogs.update_worker env json address worker).
Proof.
  destruct worker as [workerName workerData]. unfold FromLogs.update_worker.
  apply stable_bind; [apply stable_lift | intros columns].
  apply stable_bind; [| intros workerEntity].
  - apply stable_Worker_save. intros s rows. apply Q_users_only.
  - apply stable_bind; [apply stable_lift | intros columns'].
    apply stable_bind; [| intros _; apply stable_ret].
    apply stable_WorkerStats_save. intros s. apply Q_users_only.
Qed.

Lemma stable_FromLogs_user (json : P2PoolJson.t) (entry : string * P2PoolUser.t) :
  stable (both Q) (FromLogs.update_user env json entry).
Proof.
  destruct entry as [address user]. unfold FromLogs.update_user.
  apply stable_bind; [apply stable_address_save | intros _].
  apply stable_bind; [apply stable_lift | intros columns].
  apply stable_bind; [| intros _].
  - apply stable_UserStats_save. intros s. apply Q_users_only.
  - apply stable_for_of. intros worker. apply stable_FromLogs_worker.
Qed.

Lemma stable_FromLogs_run : stable (both Q) (FromLogs.updateUsersFromJson env).
Proof.
  unfold FromLogs.updateUsersFromJson.
  apply stable_try_finally.
  - apply stable_try_catch; [| intros e; apply stable_console_error].
    apply stable_bind; [apply stable_read_and_parse | intros json].
    apply stable_bind; [apply stable_getDb; intros ? ? H; exact H | intros _].
    apply stable_bind; [apply stable_modify; intros w; apply both_set_db | intros _].
    apply stable_for_of. intros entry. apply stable_FromLogs_user.
  - apply stable_bind; [apply stable_get_world | intros w].
    destruct (db w); [apply stable_destroy | apply stable_ret].
Qed.

Lemma stable_Seed_user (timestamp : value) (u : Ranked.t) :
  stable (both Q) (Seed.record_user env timestamp u).
Proof.
  unfold Seed.record_user.
  apply stable_bind; [apply stable_address_save | intros _].
  apply stable_bind; [apply stable_lift | intros hashrate1d].
  apply stable_bind; [| intros _; apply stable_ret].
  apply stable_UserStats_save. intros s. apply Q_users_only.
Qed.

Lemma stable_Seed_run (X : externals) : stable (both Q) (Seed.seed X env).
Proof.
  unfold Seed.seed.
  apply stable_try_finally.
  - apply stable_try_catch; [| intros e; apply stable_console_error].
    apply stable_bind; [apply stable_read_and_parse | intros json].
    apply stable_bind; [apply stable_lift | intros stats].
    apply stable_bind; [apply stable_getDb; intros ? ? H; exact H | intros _].
    apply stable_bind; [apply stable_modify; intros w; apply both_set_db | intros _].
    apply stable_bind; [apply stable_lift | intros hashrates].
    apply stable_bind; [| intros _].
    + apply stable_PoolStats_save. intros s. apply Q_users_only.
    + apply stable_for_of. intros u. apply stable_Seed_user.
  - apply stable_bind; [apply stable_get_world | intros w].
    destruct (db w); [apply stable_destroy | apply stable_ret].
Qed.

Lemma FromLogs_main_keeps (s : store) (next_id : Z) :
  Q s -> Q (committed (FromLogs.main env (initial_world s next_id)).2).
Proof.
  intros Hs. unfold FromLogs.main.
  assert (Hw : both Q (initial_world s next_id)) by (split; exact Hs).
  pose proof (stable_FromLogs_run _ Hw) as H.
  destruct (FromLogs.updateUsersFromJson env (initial_world s next_id))
    as [[[] | e] w']; apply H.
Qed.

Lemma Seed_main_keeps (X : externals) (s : store) (next_id : Z) :
  Q s -> Q (committed (Seed.main X env (initial_world s next_id)).2).
Proof.
  intros Hs. unfold Seed.main.
  assert (Hw : both Q (initial_world s next_id)) by (split; exact Hs).
  pose proof (stable_Seed_run X _ Hw) as H.
  destruct (Seed.seed X env (initial_world s next_id)) as [[[] | e] w']; apply H.
Qed.

End PartialSaves.

Section ActiveFlag.

Variable before : store.

Lemma kept_or_active_refl : kept_or_active before before.
Proof. intros address row H. now left. Qed.

Lemma kept_or_active_users_only (s : store) us ws wss ps :
  kept_or_active before s -> kept_or_active before (mkStore (users s) us ws wss ps).
Proof. intros H. exact H. Qed.

Lemma kept_or_active_save (s : store) (address : string) (entity : object) :
  kept_or_active before s ->
  entity !! "isActive" = Some (VBool true) ->
  kept_or_active before
    (mkStore (<[address := entity ∪ default ∅ (users s !! address)]> (users s))
       (userStats s) (workers s) (workerStats s) (poolStats s)).
Proof.
  intros Hs Hactive a row. cbn [users].
  destruct (decide (address = a)) as [-> | Hne].
  - rewrite lookup_insert_eq. intros [= <-]. right.
    now apply lookup_union_Some_l.
  - rewrite lookup_insert_ne by exact Hne. apply Hs.
Qed.

Lemma never_deactivated_refl : never_deactivated before before.
Proof. intros address row H Hrow. now exists row. Qed.

Lemma never_deactivated_users_only (s : store) us ws wss ps :
  never_deactivated before s ->
  never_deactivated before (mkStore (users s) us ws wss ps).
Proof. intros H. exact H. Qed.

Lemma never_deactivated_address_save (s : store) (address : string) :
  never_deactivated before s ->
  never_deactivated before
    (mkStore (<[address := {[ "address" := VString address ]}
                              ∪ default ∅ (users s !! address)]> (users s))
       (userStats s) (workers s) (workerStats s) (poolStats s)).
Proof.
  intros Hs a row. cbn [users].
  destruct (decide (address = a)) as [-> | Hne].
  - rewrite lookup_insert_eq. intros [= <-] Hflag.
    rewrite lookup_union_r in Hflag by now apply lookup_singleton_ne.
    destruct (users s !! a) as [old |] eqn:Hold; cbn in Hflag.
    + now apply (Hs a old).
    + now rewrite lookup_empty in Hflag.
  - rewrite lookup_insert_ne by exact Hne. apply Hs.
Qed.

End ActiveFlag.

(** C9: no run sets a user's [isActive] to false. After the batched
    script, every user row is the row it was before the run or has
    [isActive = true], the value its two assignments give. The scripts
    that save [{ address }] alone assign no [isActive]: after them a row
    is inactive only if it was so before. *)
Theorem isActive_only_set_true (X : externals) (env : environment)
    (s : store) (next_id : Z) :
  kept_or_active s (committed (Batched.main X env (initial_world s next_id)).2) /\
  never_deactivated s (committed (FromLogs.main env (initial_world s next_id)).2) /\
  never_deactivated s (committed (Seed.main X env (initial_world s next_id)).2).
Proof.
  split; [| split].
  - apply Batched_main_keeps.
    + intros s' us ws wss ps. apply kept_or_active_users_only.
    + intros s' address entity. apply kept_or_active_save.
    + apply kept_or_active_refl.
  - apply FromLogs_main_keeps.
    + intros s' us ws wss ps. apply never_deactivated_users_only.
    + intros s' address. apply never_deactivated_address_save.
    + apply never_deactivated_refl.
  - apply Seed_main_keeps.
    + intros s' us ws wss ps. apply never_deactivated_users_only.
    + intros s' address. apply never_deactivated_address_save.
    + apply never_deactivated_refl.
Qed.

(** ** Writes made through the transaction's manager *)

Section ManagerWrites.

Context (P : world -> Prop) (X : externals) (env : environment).

(** [P] does not look at the rows the open transaction sees, nor at the
    Worker sequence. *)
Hypothesis P_working : forall s w, P w -> P (set_working s w).
Hypothesis P_seq : forall n w, P w -> P (set_worker_seq n w).

Lemma manager_User_findOne (address : string) :
  stable P (User_findOne env EntityManager address).
Proof.
  unfold User_findOne.
  apply stable_bind; [apply stable_run_query | intros _].
  apply stable_bind; [apply stable_get_world | intros w; apply stable_ret].
Qed.

Lemma manager_Worker_findOne (address name : string) :
  stable P (Worker_findOne env EntityManager address name).
Proof.
  unfold Worker_findOne.
  apply stable_bind; [apply stable_run_query | intros _].
  apply stable_bind; [apply stable_get_world | intros w; apply stable_ret].
Qed.

Lemma manager_User_save (entity : object) :
  stable P (User_save env EntityManager entity).
Proof.
  intros w Hw. unfold User_save, mbind, M_bind, run_query.
  destruct (fault env _); cbn; [exact Hw |].
  destruct (string_of (entity !! "address")); cbn; [| exact Hw].
  now apply P_working.
Qed.

Lemma manager_UserStats_save (entity : object) :
  stable P (UserStats_save env EntityManager entity).
Proof.
  intros w Hw. unfold UserStats_save, mbind, M_bind, run_query.
  destruct (fault env _); cbn; [exact Hw |]. now apply P_working.
Qed.

Lemma manager_Worker_save (entity : object) :
  stable P (Worker_save env EntityManager entity).
Proof.
  intros w Hw. unfold Worker_save, mbind, M_bind, run_query.
  destruct (fault env _); cbn; [exact Hw |].
  destruct (id_of (entity !! "id")); cbn.
  - now apply P_working.
  - apply (P_working _ (set_worker_seq _ w)). now apply P_seq.
Qed.

Lemma manager_WorkerStats_save (entity : object) :
  stable P (WorkerStats_save env EntityManager entity).
Proof.
  intros w Hw. unfold WorkerStats_save, mbind, M_bind, run_query.
  destruct (fault env _); cbn; [exact Hw |]. now apply P_working.
Qed.

(** One address's unit of work writes through the manager only. *)
Lemma manager_unit_of_work (entry : string * P2PoolUser.t) :
  stable P (Batched.unit_of_work X env entry).
Proof.
  destruct entry as [address user]. unfold Batched.unit_of_work.
  apply stable_bind; [apply manager_User_findOne | intros dbUser].
  apply stable_bind; [apply manager_User_save | intros _].
  apply stable_bind; [apply stable_lift | intros userStats].
  apply stable_bind; [apply manager_UserStats_save | intros _].
  apply stable_for_of. intros [workerName worker]. unfold Batched.upsert_worker.
  apply stable_bind; [apply manager_Worker_findOne | intros dbWorker].
  apply stable_bind; [apply stable_lift | intros workerValues].
  apply stable_bind; [apply manager_Worker_save | intros savedWorker].
  apply stable_bind; [apply manager_WorkerStats_save | intros _; apply stable_ret].
Qed.

End ManagerWrites.

(** One address's transaction is all or nothing: when it rejects, the
    committed rows are those from before it; when it resolves, they are
    the rows its manager saw at the end of the unit of work, which ran to
    its end without touching the committed rows. *)
Lemma settle_atomic (X : externals) (env : environment)
    (reaches_commit : string -> bool) (entry : string * P2PoolUser.t) (w : world) :
  let '(r, w') := Batched.settle X env reaches_commit entry w in
  match r with
  | Throw _ => committed w' = committed w
  | Ok _ =>
      exists w_end,
        Batched.unit_of_work X env entry (set_working (committed w) w) = (Ok tt, w_end) /\
        committed w_end = committed w /\
        committed w' = working w_end
  end.
Proof.
  unfold Batched.settle, transaction.
  pose proof (manager_unit_of_work (fun w0 => committed w0 = committed w) X env
                (fun _ _ H => H) (fun _ _ H => H) entry
                (set_working (committed w) w) eq_refl) as Hkept.
  destruct (Batched.unit_of_work X env entry (set_working (committed w) w))
    as [[[] | e] w_end]; cbn in *.
  - destruct (reaches_commit entry.1); cbn.
    + exists w_end. repeat split. exact Hkept.
    + exact Hkept.
  - exact Hkept.
Qed.

(** ** A rejected batch *)

Lemma for_of_app {A} (l1 l2 : list A) (body : A -> M unit) (w : world) :
  for_of (l1 ++ l2) body w
  = match for_of l1 body w with
    | (Ok _, w1) => for_of l2 body w1
    | (Throw e, w1) => (Throw e, w1)
    end.
Proof.
  revert w. induction l1 as [| x l1 IH]; intros w; cbn; [reflexivity |].
  unfold mbind, M_bind. destruct (body x w) as [[[] | e] w']; [apply IH | reflexivity].
Qed.

Section FirstRejection.

Context (env : environment).



Lemma elem_of_rejections (batch : list (string * P2PoolUser.t))
    (outcomes : list (result unit)) (t : nat) (e : error) :
  (t, e) ∈ Batched.rejections env batch outcomes <->
  exists i entry,
    batch !! i = Some entry /\ outcomes !! i = Some (Throw e) /\
    t = settled_at env entry.1.
Proof.
  unfold Batched.rejections. rewrite list_elem_of_omap. split.
  - intros ([entry r] & Hin & Hsome).
    apply elem_of_lookup_zip_with in Hin as (i & entry' & r' & [= -> ->] & Hb & Ho).
    cbn in Hsome. destruct r' as [[] | e']; [discriminate |].
    injection Hsome as <- <-. now exists i, entry'.
  - intros (i & entry & Hb & Ho & ->). exists (entry, Throw e). split; [| reflexivity].
    apply elem_of_lookup_zip_with. now exists i, entry, (Throw e).
Qed.


(** No rejection at all: every outcome is a success. *)
Lemma first_rejection_None (batch : list (string * P2PoolUser.t))
    (outcomes : list (result unit)) :
  Batched.first_rejection env batch outcomes = None ->
  forall i entry e, batch !! i = Some entry -> outcomes !! i <> Some (Throw e).
Proof.
  unfold Batched.first_rejection.
  destruct (Batched.rejections env batch outcomes) as [| r rs] eqn:Hrs; [| discriminate].
  intros _ i entry e Hb Ho.
  assert (Hin : (settled_at env entry.1, e) ∈ Batched.rejections env batch outcomes)
    by (apply elem_of_rejections; now exists i, entry).
  rewrite Hrs in Hin. inversion Hin.
Qed.

End FirstRejection.






(** ** Atomicity in the two user scripts *)

(** C3 on the sequential script of [updateUsersFromLogs.js]: its writes
    go through the data source, outside any transaction. When the
    WorkerStats insert of [addr1]'s worker fails, the User row, the
    UserStats row and the Worker row of [addr1] stay committed. On the
    same input the batched script leaves nothing of [addr1]. *)
Theorem sequential_script_not_atomic :
  let sequential :=
    committed (FromLogs.main Sample.workerStats_fail (initial_world empty_store 1)).2 in
  let batched :=
    committed (Batched.main Sample.externals_stub Sample.workerStats_fail
                 (initial_world empty_store 1)).2 in
  users sequential !! "addr1" ≫= (.!! "address") = Some (VString "addr1") /\
  length (userStats sequential) = 1%nat /\
  (string_of <$> ((.!! "name") <$> workers sequential)) = [Some "rig1"] /\
  workerStats sequential = [] /\
  batched = empty_store.
Proof. vm_compute. repeat split; reflexivity. Qed.

(** ** Exit status *)

(** The status of the script of [src/unnamed/part_001] is 1 in one case
    only: the snapshot was read and scaled, the connection was opened,
    and [db.destroy()] rejected in the [finally] block. *)
Lemma Part001_status (X : externals) (env : environment) (s : store) (next_id : Z) :
  (Part001.main X env (initial_world s next_id)).1
  = if match file env with
       | Parsed json =>
           match Part001.p2poolToCkpool X env json with
           | Ok _ => connects env && negb (destroys env)
           | Throw _ => false
           end
       | _ => false
       end
    then 1 else 0.
Proof.
  unfold Part001.main, Part001.seed, Part001.fetchPoolStats, Part001.readP2PoolJson,
    read_and_parse, getDb, destroy, try_finally, try_catch, PoolStats_save, run_query.
  unfold mbind, M_bind, mret, M_ret, throw, lift, console_error, modify, get_world.
  destruct (file env) as [| | json]; cbn; [reflexivity | reflexivity |].
  destruct (Part001.p2poolToCkpool X env json) as [stats |]; cbn; [| reflexivity].
  destruct (connects env); cbn; [| reflexivity].
  destruct (bigint_columns (PoolStatsData.hashrate stats)) as [hashrates |]; cbn.
  - destruct (fault env _); cbn; destruct (destroys env); reflexivity.
  - destruct (destroys env); reflexivity.
Qed.

(** The batched user script always ends with status 0. *)
Lemma Batched_status (X : externals) (env : environment) (w : world) :
  (Batched.main X env w).1 = 0.
Proof.
  unfold Batched.main. destruct (Batched.updateUsersFromJson X env w) as [[[] | e] w'];
    reflexivity.
Qed.

(** C8 on the code: when the snapshot cannot be read, cannot be parsed,
    or the storage backend cannot be reached, [seed] of
    [src/unnamed/part_001] prints the error in its own [catch] and
    resolves, so the [process.exit(1)] of the top level is not reached:
    the status is 0. The batched user script ends with status 0 as well,
    its top level being [.catch(console.error)]. A connection error is
    printed twice, by [getDb] and by the script. *)
Theorem fatal_errors_exit_zero :
  let run env := Part001.main Sample.externals_stub env (initial_world empty_store 1) in
  let run_users env :=
    Batched.main Sample.externals_stub env (initial_world empty_store 1) in
  ((run (Sample.calm Unreadable)).1 = 0 /\
   stderr (run (Sample.calm Unreadable)).2 = [ReadFailure FileError]) /\
  ((run (Sample.calm Malformed)).1 = 0 /\
   stderr (run (Sample.calm Malformed)).2 = [ReadFailure SyntaxError]) /\
  ((run Sample.unreachable).1 = 0 /\
   stderr (run Sample.unreachable).2 = [ConnectionError; ConnectionError]) /\
  ((run_users (Sample.calm Unreadable)).1 = 0 /\
   stderr (run_users (Sample.calm Unreadable)).2 = [FileError]) /\
  ((run_users (Sample.calm Malformed)).1 = 0 /\
   stderr (run_users (Sample.calm Malformed)).2 = [SyntaxError]) /\
  ((run_users Sample.unreachable).1 = 0 /\
   stderr (run_users Sample.unreachable).2 = [ConnectionError; ConnectionError]).
Proof. vm_compute. repeat split; reflexivity. Qed.

(** ** The sign of a binary64 difference *)

Section Subtraction.

Lemma shr_record_of_loc_m (m : Z) (l : location) : shr_m (shr_record_of_loc m l) = m.
Proof. destruct l as [| []]; reflexivity. Qed.

(** Dropping the bits below the format's least exponent never empties a
    positive mantissa whose exponent is at least [emin]. *)
Lemma shr_fexp_pos (M E : Z) (l : location) :
  0 < M -> -1074 <= E ->
  0 < shr_m (shr_fexp prec emax M E l).1 /\ -1074 <= (shr_fexp prec emax M E l).2.
Proof.
  intros HM HE. unfold shr_fexp, shr.
  destruct M as [| p | p]; try lia. cbn [Zdigits2].
  pose proof (digits2_bounds p) as [Hlo Hhi].
  destruct (fexp prec emax (Z.pos (digits2_pos p) + E) - E) as [| n | n] eqn:En;
    cbn [fst snd]; rewrite ?shr_record_of_loc_m; try (split; lia).
  rewrite iter_pos_nat, iter_shr_1_pos, shr_record_of_loc_m, positive_nat_Z
    by (rewrite shr_record_of_loc_m; lia).
  unfold fexp, emin, prec, emax in En.
  assert (Hn : Z.pos n = Z.pos (digits2_pos p) - 53) by lia.
  split; [| lia].
  apply Z.div_str_pos. split; [apply Z.pow_pos_nonneg; lia |].
  apply Z.le_trans with (2 ^ (Z.pos (digits2_pos p) - 1)); [| exact Hlo].
  apply Z.pow_le_mono_r; lia.
Qed.

Lemma round_nearest_even_pos (m : Z) (l : location) :
  0 < m -> 0 < round_nearest_even m l.
Proof. intros Hm. destruct l as [| []]; cbn; try destruct (Z.even m); lia. Qed.

Lemma binary_round_aux_sign (s : bool) (M E : Z) :
  0 < M -> -1074 <= E ->
  comparator_sign (binary_round_aux prec emax s M E loc_Exact) = if s then Lt else Gt.
Proof.
  intros HM HE. unfold binary_round_aux.
  destruct (shr_fexp_pos M E loc_Exact HM HE) as [Hm1 He1].
  destruct (shr_fexp prec emax M E loc_Exact) as [mrs1 e1]. cbn [fst snd] in *.
  pose proof (round_nearest_even_pos (shr_m mrs1) (loc_of_shr_record mrs1) Hm1) as Hm2.
  destruct (shr_fexp_pos _ e1 loc_Exact Hm2 He1) as [Hm3 _].
  destruct (shr_fexp prec emax _ e1 loc_Exact) as [mrs2 e2]. cbn [fst snd] in *.
  destruct (shr_m mrs2) as [| m | m]; try lia.
  destruct (e2 <=? emax - prec); reflexivity.
Qed.

Lemma binary_normalize_sign (z e : Z) :
  -1074 <= e ->
  comparator_sign (binary_normalize prec emax z e false) = (z ?= 0).
Proof.
  intros He.
  assert (Hround : forall s p,
    comparator_sign (binary_round prec emax s p e) = if s then Lt else Gt).
  { intros s p. unfold binary_round, shl_align.
    assert (Hf : -1074 <= fexp prec emax (Z.pos (digits2_pos p) + e))
      by (unfold fexp, emin, prec, emax; lia).
    destruct (fexp prec emax (Z.pos (digits2_pos p) + e) - e);
      apply binary_round_aux_sign; lia. }
  destruct z as [| p | p]; cbn [binary_normalize]; [reflexivity | |]; apply Hround.
Qed.

Lemma shl_align_value (m : positive) (e ez : Z) :
  ez <= e -> Z.pos (shl_align m e ez).1 = Z.pos m * 2 ^ (e - ez).
Proof.
  intros Hle. unfold shl_align.
  destruct (ez - e) as [| d | d] eqn:Ed; cbn [fst]; try lia.
  - replace (e - ez) with 0 by lia. lia.
  - rewrite iter_xO_pow2. f_equal. f_equal. lia.
Qed.

Lemma to_Q_units (x : number) :
  is_double x -> (to_Q x == units x # 2 ^ 1074)%Q.
Proof.
  destruct x as [s | s | | s m e]; try reflexivity.
  unfold is_double, valid_binary. intros Hb. apply bounded_inv in Hb as [He _].
  assert (Hpow : Z.pos (2 ^ 1074) = 2 ^ 1074) by reflexivity.
  unfold to_Q, units, Qeq. set (n := cond_Zopp s (Z.pos m)).
  destruct e as [| p | k]; cbn [Qnum Qden inject_Z]; rewrite Hpow.
  - change (0 + 1074) with 1074. rewrite Z.pow_0_r. generalize (2 ^ 1074). intros D. ring.
  - rewrite Z.pow_add_r by lia. generalize (2 ^ 1074), (2 ^ Z.pos p). intros D E. ring.
  - rewrite Pos2Z.inj_pow.
    replace (2 ^ 1074) with (2 ^ (Z.neg k + 1074) * 2 ^ Z.pos k)
      by (rewrite <- Z.pow_add_r by lia; f_equal; lia).
    generalize (2 ^ (Z.neg k + 1074)), (2 ^ Z.pos k). intros D E. ring.
Qed.

(** On binary64 values that are finite, the order by value is the order
    of the integers [units]. *)
Lemma Qcompare_units (x y : number) :
  is_double x -> is_double y -> (to_Q x ?= to_Q y)%Q = (units x ?= units y).
Proof.
  intros Hx Hy. rewrite (to_Q_units x Hx), (to_Q_units y Hy).
  unfold Qcompare. cbn [Qnum Qden]. symmetry. apply Zmult_compare_compat_r. lia.
Qed.

Lemma sub_finite_sign (sb sa : bool) (mb ma : positive) (eb ea : Z) :
  bounded prec emax mb eb = true -> bounded prec emax ma ea = true ->
  comparator_sign (sub (S754_finite sb mb eb) (S754_finite sa ma ea))
  = (units (S754_finite sb mb eb) ?= units (S754_finite sa ma ea)).
Proof.
  intros Hb Ha. apply bounded_inv in Hb as [Hb _]. apply bounded_inv in Ha as [Ha _].
  unfold sub, SFsub. set (ez := Z.min eb ea).
  rewrite binary_normalize_sign by lia.
  rewrite !shl_align_value by lia. rewrite <- Z.compare_sub.
  unfold units.
  assert (Hpos : 2 ^ (ez + 1074) > 0) by (apply Z.lt_gt, Z.pow_pos_nonneg; lia).
  rewrite (Zmult_compare_compat_r _ _ _ Hpos).
  rewrite !cond_Zopp_mul, <- !Z.mul_assoc, <- !Z.pow_add_r by lia.
  f_equal; f_equal; f_equal; lia.
Qed.

(** The comparator of the ranking, [b.hashrate - a.hashrate], has the
    sign of the order by value. *)
Lemma sub_sign (b a : number) :
  json_number b -> json_number a ->
  comparator_sign (sub b a) = compare_values b a.
Proof.
  intros [Hb Hnb] [Ha Hna].
  destruct b as [sb | sb | | sb mb eb]; try discriminate Hnb;
    destruct a as [sa | sa | | sa ma ea]; try discriminate Hna.
  - destruct sb, sa; reflexivity.
  - destruct sa; reflexivity.
  - unfold compare_values. rewrite Qcompare_units by assumption.
    cbn [sub SFsub comparator_sign units].
    destruct sa; cbn [negb cond_Zopp]; symmetry;
      [apply Z.compare_gt_iff | apply Z.compare_lt_iff];
      pose proof (Z.pow_pos_nonneg 2 (ea + 1074));
      apply bounded_inv in Ha; nia.
  - destruct sb; reflexivity.
  - destruct sb, sa; reflexivity.
  - destruct sb; reflexivity.
  - unfold compare_values. rewrite Qcompare_units by assumption.
    cbn [sub SFsub comparator_sign units].
    destruct sb; cbn [cond_Zopp]; symmetry;
      [apply Z.compare_lt_iff | apply Z.compare_gt_iff];
      pose proof (Z.pow_pos_nonneg 2 (eb + 1074));
      apply bounded_inv in Hb; nia.
  - destruct sa; reflexivity.
  - unfold compare_values. rewrite Qcompare_units by assumption.
    now apply sub_finite_sign.
Qed.

End Subtraction.

(** ** [Array.prototype.sort] *)

Section Sorting.

Context {A : Type} (comparefn : A -> A -> number).

Local Abbreviation before := (stays_before comparefn).

Lemma sort_insert_perm (x : A) (l : list A) :
  Permutation (sort_insert comparefn x l) (x :: l).
Proof.
  induction l as [| y l IH]; cbn; [reflexivity |].
  destruct (comparator_sign (comparefn x y)); try reflexivity.
  rewrite IH. apply perm_swap.
Qed.

Lemma Array_sort_perm (l : list A) : Permutation (Array_sort comparefn l) l.
Proof.
  induction l as [| x l IH]; cbn; [reflexivity |].
  fold (Array_sort comparefn l). rewrite sort_insert_perm. now constructor.
Qed.

(** Stability: elements that never compare greater than one another keep
    their order. *)
Lemma sort_insert_filter (f : A -> bool) (x : A) (l : list A) :
  (forall y, y ∈ l -> f x = true -> f y = true -> before x y) ->
  List.filter f (sort_insert comparefn x l) = List.filter f (x :: l).
Proof.
  induction l as [| y l IH]; intros Hf; [reflexivity |].
  cbn [sort_insert].
  destruct (comparator_sign (comparefn x y)) eqn:E; try reflexivity.
  cbn [List.filter]. rewrite IH by (intros z Hz; apply Hf; now constructor).
  cbn [List.filter].
  destruct (f x) eqn:Ex, (f y) eqn:Ey; try reflexivity.
  exfalso. apply (Hf y); [constructor | reflexivity | assumption..].
Qed.

Lemma Array_sort_filter (f : A -> bool) (l : list A) :
  (forall x y, x ∈ l -> y ∈ l -> f x = true -> f y = true -> before x y) ->
  List.filter f (Array_sort comparefn l) = List.filter f l.
Proof.
  induction l as [| x l IH]; intros Hf; [reflexivity |].
  cbn [Array_sort foldr]. fold (Array_sort comparefn l).
  rewrite sort_insert_filter.
  - cbn [List.filter]. rewrite IH; [reflexivity |].
    intros y z Hy Hz. apply Hf; now constructor.
  - intros y Hy. rewrite (Array_sort_perm l) in Hy.
    apply Hf; [constructor | now constructor].
Qed.

(** Sortedness, for a comparator that is a total preorder on the elements
    that satisfy [ok]. *)
Context (ok : A -> Prop).
Hypothesis greater_is_after :
  forall x y, ok x -> ok y -> comparator_sign (comparefn x y) = Gt -> before y x.
Hypothesis before_trans :
  forall x y z, ok x -> ok y -> ok z -> before x y -> before y z -> before x z.

Lemma sort_insert_sorted (x : A) (l : list A) :
  Forall ok (x :: l) ->
  StronglySorted before l -> StronglySorted before (sort_insert comparefn x l).
Proof.
  intros Hok Hl. induction Hl as [| y l Hl IH Hy]; cbn [sort_insert].
  - repeat constructor.
  - inversion Hok as [| ? ? Hx Hok']; subst.
    inversion Hok' as [| ? ? Hyok Hlok]; subst.
    destruct (comparator_sign (comparefn x y)) eqn:E.
    + constructor; [now constructor |].
      constructor; [unfold stays_before; congruence |].
      rewrite Forall_forall in *. intros z Hz.
      apply (before_trans x y z); auto. unfold stays_before. congruence.
    + constructor; [now constructor |].
      constructor; [unfold stays_before; congruence |].
      rewrite Forall_forall in *. intros z Hz.
      apply (before_trans x y z); auto. unfold stays_before. congruence.
    + constructor; [apply IH; now constructor |].
      rewrite (sort_insert_perm x l). constructor; [| exact Hy].
      now apply greater_is_after.
Qed.

Lemma Array_sort_sorted (l : list A) :
  Forall ok l -> StronglySorted before (Array_sort comparefn l).
Proof.
  induction l as [| x l IH]; intros Hok; cbn; [constructor |].
  fold (Array_sort comparefn l). inversion Hok as [| ? ? Hx Hl]; subst.
  apply sort_insert_sorted; [| now apply IH].
  constructor; [exact Hx |]. now rewrite (Array_sort_perm l).
Qed.

End Sorting.

(** ** The order by value *)

Section ValueOrder.

Lemma Qcompare_ge_trans (p q r : Q) :
  (p ?= q)%Q <> Lt -> (q ?= r)%Q <> Lt -> (p ?= r)%Q <> Lt.
Proof.
  rewrite <- !Qlt_alt. intros Hpq Hqr Hpr.
  apply Qnot_lt_le in Hpq, Hqr.
  apply (Qlt_irrefl p). apply Qlt_le_trans with r; [exact Hpr |].
  now apply Qle_trans with q.
Qed.

Lemma Qcompare_eq_trans (p q r : Q) :
  (p ?= r)%Q = Eq -> (q ?= r)%Q = Eq -> (q ?= p)%Q = Eq.
Proof.
  rewrite <- !Qeq_alt. intros Hp Hq. now rewrite Hp, Hq.
Qed.

Lemma compare_values_antisym (a b : number) :
  compare_values b a = CompOpp (compare_values a b).
Proof.
  destruct a as [sa | [] | | sa ma ea], b as [sb | [] | | sb mb eb];
    cbn [compare_values CompOpp]; try reflexivity; symmetry; apply Qcompare_antisym.
Qed.

Lemma compare_values_ge_trans (a b c : number) :
  compare_values a b <> Lt -> compare_values b c <> Lt -> compare_values a c <> Lt.
Proof.
  destruct a as [sa | [] | | sa ma ea], b as [sb | [] | | sb mb eb],
    c as [sc | [] | | sc mc ec];
    cbn [compare_values]; try congruence; apply Qcompare_ge_trans.
Qed.

Lemma compare_values_eq_trans (a b h : number) :
  compare_values a h = Eq -> compare_values b h = Eq -> compare_values b a = Eq.
Proof.
  destruct a as [sa | [] | | sa ma ea], b as [sb | [] | | sb mb eb],
    h as [sh | [] | | sh mh eh];
    cbn [compare_values]; try congruence; apply Qcompare_eq_trans.
Qed.

Lemma StronglySorted_weaken {A} (R R' : A -> A -> Prop) (ok : A -> Prop) (l : list A) :
  (forall x y, ok x -> ok y -> R x y -> R' x y) ->
  Forall ok l -> StronglySorted R l -> StronglySorted R' l.
Proof.
  intros HR Hok Hl. induction Hl as [| x l Hl IH Hx]; [constructor |].
  inversion Hok as [| ? ? Hokx Hokl]; subst.
  constructor; [now apply IH |].
  rewrite Forall_forall in *. intros y Hy. apply HR; auto.
Qed.

(** The ranking comparator, on numbers of the document. *)
Lemma by_hashrate_desc_sign (a b : Ranked.t) :
  json_number (Ranked.hashrate a) -> json_number (Ranked.hashrate b) ->
  comparator_sign (Seed.by_hashrate_desc a b)
  = compare_values (Ranked.hashrate b) (Ranked.hashrate a).
Proof. intros Ha Hb. now apply sub_sign. Qed.

Lemma before_at_least (a b : Ranked.t) :
  json_number (Ranked.hashrate a) -> json_number (Ranked.hashrate b) ->
  comparator_sign (Seed.by_hashrate_desc a b) <> Gt <-> at_least a b.
Proof.
  intros Ha Hb. rewrite by_hashrate_desc_sign by assumption.
  unfold at_least. rewrite (compare_values_antisym (Ranked.hashrate a)).
  destruct (compare_values (Ranked.hashrate a) (Ranked.hashrate b)); cbn;
    split; congruence.
Qed.

End ValueOrder.

(** ** The top ten *)

Section TopTen.

Variable usersArray : list (string * P2PoolUser.t).
Hypothesis numbers : ranked_by_json_numbers usersArray.

Local Abbreviation ranked := (Seed.rank <$> usersArray).
Local Abbreviation sorted :=
  (Array_sort Seed.by_hashrate_desc (Seed.rank <$> usersArray)).

Lemma ranked_ok : Forall (fun u => json_number (Ranked.hashrate u)) ranked.
Proof. rewrite Forall_fmap. exact numbers. Qed.

Lemma sorted_ok : Forall (fun u => json_number (Ranked.hashrate u)) sorted.
Proof. rewrite (Array_sort_perm _ ranked). exact ranked_ok. Qed.

Lemma ranking_sorted : StronglySorted at_least sorted.
Proof.
  apply (StronglySorted_weaken
           (fun x y => comparator_sign (Seed.by_hashrate_desc x y) <> Gt) at_least
           (fun u => json_number (Ranked.hashrate u))).
  - intros x y Hx Hy. now apply before_at_least.
  - exact sorted_ok.
  - apply (Array_sort_sorted _ (fun u => json_number (Ranked.hashrate u))).
    + intros x y Hx Hy Hgt. unfold stays_before.
      rewrite by_hashrate_desc_sign in * by assumption.
      rewrite (compare_values_antisym (Ranked.hashrate y) (Ranked.hashrate x)), Hgt.
      discriminate.
    + intros x y z Hx Hy Hz Hxy Hyz. unfold stays_before in *.
      apply before_at_least in Hxy, Hyz; try assumption.
      apply before_at_least; try assumption.
      unfold at_least in *. now apply compare_values_ge_trans with (Ranked.hashrate y).
    + exact ranked_ok.
Qed.

Lemma ranking_stable (h : number) :
  List.filter (tied_at h) sorted = List.filter (tied_at h) ranked.
Proof.
  apply Array_sort_filter. intros x y Hx Hy Htx Hty.
  pose proof ranked_ok as Hok. rewrite Forall_forall in Hok.
  unfold stays_before.
  rewrite by_hashrate_desc_sign by (apply Hok; assumption).
  unfold tied_at in *.
  destruct (compare_values (Ranked.hashrate x) h) eqn:Ex; try discriminate.
  destruct (compare_values (Ranked.hashrate y) h) eqn:Ey; try discriminate.
  rewrite (compare_values_eq_trans _ _ h Ex Ey). discriminate.
Qed.

Lemma topUsers_take : Seed.topUsers usersArray = take 10 sorted.
Proof. reflexivity. Qed.

Lemma StronglySorted_app_cross {A} (R : A -> A -> Prop) (l1 l2 : list A) :
  StronglySorted R (l1 ++ l2) -> forall x y, x ∈ l1 -> y ∈ l2 -> R x y.
Proof.
  induction l1 as [| a l1 IH]; intros Hs x y Hx Hy; [inversion Hx |].
  cbn in Hs. inversion Hs as [| ? ? Hl Ha]; subst.
  apply elem_of_cons in Hx as [-> | Hx]; [| now apply IH].
  rewrite Forall_forall in Ha. apply Ha. apply elem_of_app. now right.
Qed.

Lemma top_outranks_rest (u v : Ranked.t) :
  u ∈ Seed.topUsers usersArray -> v ∈ drop 10 sorted -> at_least u v.
Proof.
  rewrite topUsers_take. apply StronglySorted_app_cross.
  rewrite take_drop. exact ranking_sorted.
Qed.

Lemma top_length :
  (10 < length usersArray)%nat -> length (Seed.topUsers usersArray) = 10%nat.
Proof.
  intros Hn. rewrite topUsers_take, length_take.
  pose proof (Permutation_length (Array_sort_perm Seed.by_hashrate_desc ranked)) as Hlen.
  rewrite length_fmap in Hlen. lia.
Qed.

End TopTen.

(** ** What the top-ten script writes *)

Lemma stable_for_of_in {A} (P : world -> Prop) (l : list A) (body : A -> M unit) :
  (forall x, x ∈ l -> stable P (body x)) -> stable P (for_of l body).
Proof.
  induction l as [| x l IH]; intros Hbody; cbn [for_of].
  - apply stable_ret.
  - apply stable_bind; [apply Hbody; constructor | intros _].
    apply IH. intros y Hy. apply Hbody. now constructor.
Qed.

Section SeedWrites.

Context (X : externals) (env : environment) (before : store) (selected : list string).

Lemma written_only_for_refl : written_only_for selected before before.
Proof. split; [reflexivity |]. exists []. split; [now rewrite app_nil_r | constructor]. Qed.

Lemma written_only_for_poolStats (s : store) (entity : object) :
  written_only_for selected before s ->
  written_only_for selected before
    (mkStore (users s) (userStats s) (workers s) (workerStats s)
       (poolStats s ++ [entity])).
Proof. intros H. exact H. Qed.

Lemma written_only_for_user (s : store) (address : string) (row : object) :
  address ∈ selected ->
  written_only_for selected before s ->
  written_only_for selected before
    (mkStore (<[address := row]> (users s)) (userStats s) (workers s)
       (workerStats s) (poolStats s)).
Proof.
  intros Hin [Husers Hstats]. split; [| exact Hstats].
  intros a Ha. cbn [users]. rewrite lookup_insert_ne; [now apply Husers |].
  intros ->. contradiction.
Qed.

Lemma written_only_for_userStats (s : store) (address : string) (entity : object) :
  address ∈ selected ->
  string_of (entity !! "userAddress") = Some address ->
  written_only_for selected before s ->
  written_only_for selected before
    (mkStore (users s) (userStats s ++ [entity]) (workers s)
       (workerStats s) (poolStats s)).
Proof.
  intros Hin Hentity [Husers (appended & Happ & Hall)]. split; [exact Husers |].
  exists (appended ++ [entity]). cbn [userStats]. split.
  - now rewrite Happ, app_assoc.
  - apply Forall_app. split; [exact Hall |]. constructor; [| constructor].
    now exists address.
Qed.

Lemma stable_record_selected (timestamp : value) (u : Ranked.t) :
  Ranked.address u ∈ selected ->
  stable (both (written_only_for selected before)) (Seed.record_user env timestamp u).
Proof.
  intros Hin. unfold Seed.record_user.
  apply stable_bind; [| intros _].
  - apply stable_User_save. intros s a Hs Ha.
    rewrite lookup_singleton_eq in Ha. injection Ha as <-.
    now apply written_only_for_user.
  - apply stable_bind; [apply stable_lift | intros hashrate1d].
    apply stable_bind; [| intros _; apply stable_ret].
    apply stable_UserStats_save. intros s.
    now apply (written_only_for_userStats s (Ranked.address u)).
Qed.

End SeedWrites.

Lemma Seed_writes_top_only (X : externals) (env : environment) (s : store)
    (next_id : Z) (json : P2PoolJson.t) :
  file env = Parsed json ->
  written_only_for
    (Ranked.address <$> Seed.topUsers (entries (P2PoolJson.users json))) s
    (committed (Seed.main X env (initial_world s next_id)).2).
Proof.
  intros Hfile.
  set (selected := Ranked.address <$> Seed.topUsers (entries (P2PoolJson.users json))).
  assert (Hrun : stable (both (written_only_for selected s)) (Seed.seed X env)).
  { unfold Seed.seed, Seed.readP2PoolJson, read_and_parse. rewrite Hfile.
    apply stable_try_finally.
    - apply stable_try_catch; [| intros e; apply stable_console_error].
      intros w Hw. revert w Hw.
      change (stable (both (written_only_for selected s))
        (stats ← lift (Seed.p2poolToCkpool X env json);
         _ ← getDb env;
         _ ← modify (set_db true);
         hashrates ← lift (bigint_columns (PoolStatsData.hashrate stats));
         _ ← PoolStats_save env DataSource (hashrates ∪ plain_columns stats);
         for_of (Seed.topUsers (entries (P2PoolJson.users json)))
           (Seed.record_user env (PoolStatsData.timestamp stats)))).
      apply stable_bind; [apply stable_lift | intros stats].
      apply stable_bind; [apply stable_getDb; intros ? ? H; exact H | intros _].
      apply stable_bind; [apply stable_modify; intros w; apply both_set_db | intros _].
      apply stable_bind; [apply stable_lift | intros hashrates].
      apply stable_bind; [| intros _].
      + apply stable_PoolStats_save. intros s'. apply written_only_for_poolStats.
      + apply stable_for_of_in. intros u Hu. apply stable_record_selected.
        unfold selected. now apply list_elem_of_fmap_2.
    - apply stable_bind; [apply stable_get_world | intros w].
      destruct (db w); [apply stable_destroy | apply stable_ret]. }
  assert (Hw : both (written_only_for selected s) (initial_world s next_id))
    by (split; apply written_only_for_refl).
  specialize (Hrun _ Hw). unfold Seed.main.
  destruct (Seed.seed X env (initial_world s next_id)) as [[[] | e] w']; apply Hrun.
Qed.

(** The selection of the top ten: for a snapshot whose 1-day hashrates
    are numbers of the document, the top-N recorder sorts the users by
    that hashrate with a stable sort and keeps the first 10: with more
    than 10 users exactly 10 are selected; they come in descending order
    and none of the others ranks above any of them; users with equal
    hashrates keep their snapshot order; and the run changes User rows
    and appends UserStats rows for the selected addresses only. *)
Theorem top_ten_by_hashrate (X : externals) (env : environment) (s : store)
    (next_id : Z) (json : P2PoolJson.t) :
  file env = Parsed json ->
  let usersArray := entries (P2PoolJson.users json) in
  ranked_by_json_numbers usersArray ->
  let ranked := Seed.rank <$> usersArray in
  let sorted := Array_sort Seed.by_hashrate_desc ranked in
  let top := Seed.topUsers usersArray in
  top = take 10 sorted /\
  Permutation sorted ranked /\
  ((10 < length usersArray)%nat -> length top = 10%nat) /\
  StronglySorted at_least sorted /\
  (forall u v, u ∈ top -> v ∈ drop 10 sorted -> at_least u v) /\
  (forall h, List.filter (tied_at h) sorted = List.filter (tied_at h) ranked) /\
  written_only_for (Ranked.address <$> top) s
    (committed (Seed.main X env (initial_world s next_id)).2).
Proof.
  intros Hfile usersArray Hnumbers ranked sorted top.
  split; [reflexivity |].
  split; [apply Array_sort_perm |].
  split; [apply top_length |].
  split; [now apply ranking_sorted |].
  split; [now apply top_outranks_rest |].
  split; [now apply ranking_stable |].
  now apply Seed_writes_top_only.
Qed.

Lemma top_ten_by_hashrate_witness :
  length (Seed.topUsers (entries (P2PoolJson.users Sample.twelve_users))) = 10%nat.
Proof.
  apply (top_ten_by_hashrate Sample.externals_stub
           (Sample.calm (Parsed Sample.twelve_users)) empty_store 1
           Sample.twelve_users).
  - reflexivity.
  - repeat constructor.
  - vm_compute. lia.
Defined.

Example top_ten_of_twelve :
  (fun u => Ranked.address u)
    <$> Seed.topUsers (entries (P2PoolJson.users Sample.twelve_users))
  = ["user06"; "user04"; "user10"; "user02"; "user05"; "user12"; "user08";
     "user01"; "user07"; "user09"].
Proof. vm_compute. reflexivity. Qed.

(** With a backend that accepts every write, the run on the twelve users
    leaves a User row for each of the ten selected addresses and for no
    other, and one UserStats row for each, in ranking order. *)
Example top_ten_rows_of_twelve :
  let run := Seed.main Sample.externals_stub
               (Sample.calm (Parsed Sample.twelve_users))
               (initial_world empty_store 1) in
  run.1 = 0 /\
  (fun row => string_of (row !! "userAddress")) <$> userStats (committed run.2)
  = Some <$> ["user06"; "user04"; "user10"; "user02"; "user05"; "user12";
              "user08"; "user01"; "user07"; "user09"] /\
  (fun address => bool_decide (is_Some (users (committed run.2) !! address)))
    <$> ["user01"; "user02"; "user03"; "user04"; "user05"; "user06";
         "user07"; "user08"; "user09"; "user10"; "user11"; "user12"]
  = [true; true; false; true; true; true; true; true; true; true; false; true].
Proof. vm_compute. repeat split; reflexivity. Qed.

(** C7 on the code: the ten users are selected as claimed, but the loop
    converts each 1-day hashrate with [BigInt(u.hashrate)], which throws
    on a number with a fractional part. Of twelve users whose third
    highest hashrate is 8.5, the ten highest are selected, in descending
    order, the tied ones in snapshot order; the first two receive their
    User and UserStats rows; the third, [user10], receives its User row
    and no UserStats row; the other seven selected users receive no row
    at all; the RangeError is printed and the status is 0. *)
Theorem top_ten_stops_at_fractional_hashrate :
  let json := Edge.twelve_one_fractional in
  let run := Seed.main Sample.externals_stub (Sample.calm (Parsed json))
               (initial_world empty_store 1) in
  (fun u => Ranked.address u) <$> Seed.topUsers (entries (P2PoolJson.users json))
  = ["user06"; "user04"; "user10"; "user02"; "user05"; "user12"; "user08";
     "user01"; "user07"; "user09"] /\
  run.1 = 0 /\
  stderr run.2 = [RangeError] /\
  (fun row => string_of (row !! "userAddress")) <$> userStats (committed run.2)
  = [Some "user06"; Some "user04"] /\
  (fun address => bool_decide (is_Some (users (committed run.2) !! address)))
    <$> ["user01"; "user02"; "user03"; "user04"; "user05"; "user06";
         "user07"; "user08"; "user09"; "user10"; "user11"; "user12"]
  = [false; false; false; true; false; true; false; false; false; true; false; false].
Proof. vm_compute. repeat split; reflexivity. Qed.

(** ** The pool row of a run *)

Section PoolRow.

Context (X : externals) (env : environment) (s : store) (next_id : Z)
  (json : P2PoolJson.t) (stats : PoolStatsData.t) (columns : object).

Hypothesis Hfile : file env = Parsed json.
Hypothesis Hconn : connects env = true.
Hypothesis Hcolumns : recorded_columns (spec_fallback json) = Ok columns.
Hypothesis Hfault : fault env (Save TPoolStats (columns ∪ plain_columns stats)) = false.

Local Abbreviation row := (columns ∪ plain_columns stats).

Lemma PoolStats_save_row (w : world) :
  PoolStats_save env DataSource row w
  = (Ok row,
     set_committed
       (mkStore (users (committed w)) (userStats (committed w)) (workers (committed w))
          (workerStats (committed w)) (poolStats (committed w) ++ [row])) w).
Proof.
  unfold PoolStats_save.
  erewrite run_bind by (unfold run_query; now rewrite Hfault).
  reflexivity.
Qed.

(** The top-ten script appends the row before its loop over the users,
    and nothing after that touches the pool rows. *)
Lemma Seed_pool_row :
  Seed.p2poolToCkpool X env json = Ok stats ->
  poolStats (committed (Seed.main X env (initial_world s next_id)).2)
  = poolStats s ++ [row].
Proof.
  intros Hstats.
  pose proof (Seed_recorded X env json) as Hrec.
  rewrite Hstats, Hcolumns in Hrec. cbn in Hrec.
  set (P := fun w : world => poolStats (committed w) = poolStats s ++ [row]).
  assert (Hloop : forall l timestamp,
            stable P (for_of l (Seed.record_user env timestamp))).
  { intros l timestamp. apply stable_for_of. intros u w Hw.
    unfold Seed.record_user, User_save, UserStats_save, mbind, M_bind, run_query, lift.
    destruct (fault env (Save TUser _)); cbn; [exact Hw |].
    rewrite lookup_singleton_eq. cbn.
    destruct (BigInt (Ranked.hashrate u)) as [n | e]; cbn; [| exact Hw].
    destruct (fault env (Save TUserStats _)); cbn; exact Hw. }
  assert (Hfin : stable P (w ← get_world; if db w then destroy env else mret tt)).
  { apply stable_bind; [apply stable_get_world | intros w].
    destruct (db w); [apply stable_destroy | apply stable_ret]. }
  unfold Seed.main, Seed.seed, try_finally, try_catch.
  erewrite run_bind by (unfold Seed.readP2PoolJson, read_and_parse; now rewrite Hfile).
  erewrite run_bind by (unfold lift; now rewrite Hstats).
  erewrite run_bind by (unfold getDb; now rewrite Hconn).
  erewrite run_bind by reflexivity.
  erewrite run_bind by (unfold lift; now rewrite Hrec).
  erewrite run_bind by apply PoolStats_save_row.
  match goal with |- context [for_of ?l (Seed.record_user env ?timestamp) ?w1] =>
    assert (Hw1 : P w1) by reflexivity;
    specialize (Hloop l timestamp w1 Hw1);
    destruct (for_of l (Seed.record_user env timestamp) w1) as [[[] | e] w2];
    cbn [snd] in Hloop
  end.
  - specialize (Hfin w2 Hloop).
    destruct ((get_world ≫= _) w2) as [[[] | e] w3]; apply Hfin.
  - assert (Hw2 : P (add_stderr e w2)) by exact Hloop.
    specialize (Hfin _ Hw2). unfold console_error, modify.
    destruct ((get_world ≫= _) (add_stderr e w2)) as [[[] | e'] w3]; apply Hfin.
Qed.

Lemma Part001_pool_row :
  Part001.p2poolToCkpool X env json = Ok stats ->
  poolStats (committed (Part001.main X env (initial_world s next_id)).2)
  = poolStats s ++ [row].
Proof.
  intros Hstats.
  pose proof (Part001_recorded X env json) as Hrec.
  rewrite Hstats, Hcolumns in Hrec. cbn in Hrec.
  unfold Part001.main, Part001.seed, try_finally, try_catch.
  erewrite run_bind.
  2:{ unfold Part001.fetchPoolStats.
      erewrite run_bind
        by (unfold Part001.readP2PoolJson, try_catch, read_and_parse; now rewrite Hfile).
      unfold lift. now rewrite Hstats. }
  erewrite run_bind by (unfold getDb; now rewrite Hconn).
  erewrite run_bind by reflexivity.
  erewrite run_bind by (unfold lift; now rewrite Hrec).
  erewrite run_bind by apply PoolStats_save_row.
  cbn. unfold destroy. destruct (destroys env); reflexivity.
Qed.

End PoolRow.

(** C6, as the code has it: the hashrate fields of the pool rollup are
    the snapshot's top-level computed rollup if present; otherwise the
    first user's aggregate; otherwise the first user's first worker's
    aggregate; otherwise all-zero; the recorded integers are these fields
    through [scaleHashrate], and a run that reads the snapshot, connects
    and has its insert accepted appends one pool row that holds them. In
    particular, for a snapshot with no top-level rollup whose first user
    has no aggregate of its own and whose first worker has a rollup, the
    recorded pool hashrate is that worker's rollup, scaled by 2^32. *)
Theorem pool_hashrate_fallback (X : externals) (env : environment)
    (p2pool : P2PoolJson.t) :
  hashrateFields p2pool = spec_fallback p2pool /\
  (Part001.p2poolToCkpool X env p2pool
     ≫= (fun stats => bigint_columns (PoolStatsData.hashrate stats))
   = recorded_columns (spec_fallback p2pool)) /\
  (Seed.p2poolToCkpool X env p2pool
     ≫= (fun stats => bigint_columns (PoolStatsData.hashrate stats))
   = recorded_columns (spec_fallback p2pool)) /\
  (forall s next_id stats columns,
     file env = Parsed p2pool ->
     connects env = true ->
     recorded_columns (spec_fallback p2pool) = Ok columns ->
     fault env (Save TPoolStats (columns ∪ plain_columns stats)) = false ->
     (Part001.p2poolToCkpool X env p2pool = Ok stats ->
      poolStats (committed (Part001.main X env (initial_world s next_id)).2)
      = poolStats s ++ [columns ∪ plain_columns stats]) /\
     (Seed.p2poolToCkpool X env p2pool = Ok stats ->
      poolStats (committed (Seed.main X env (initial_world s next_id)).2)
      = poolStats s ++ [columns ∪ plain_columns stats])) /\
  (forall user others worker more rollup,
     missing (P2PoolJson.computed_hashrate p2pool) = true ->
     values (P2PoolJson.users p2pool) = user :: others ->
     missing (P2PoolUser.computed_hash_rate user) = true ->
     values (P2PoolUser.workers user) = worker :: more ->
     P2PoolWorker.computed_hash_rate worker = Def rollup ->
     spec_fallback p2pool = rollup).
Proof.
  split; [apply hashrateFields_spec |].
  split; [apply Part001_recorded |].
  split; [apply Seed_recorded |].
  split.
  - intros s next_id stats columns Hfile Hconn Hcolumns Hfault. split; intros Hstats.
    + eapply Part001_pool_row; eassumption.
    + eapply Seed_pool_row; eassumption.
  - intros user others worker more rollup Htop Husers Huser Hworkers Hworker.
    unfold spec_fallback. rewrite Husers, Hworkers, Hworker.
    destruct (P2PoolJson.computed_hashrate p2pool); try discriminate Htop;
      destruct (P2PoolUser.computed_hash_rate user); try discriminate Huser;
      reflexivity.
Qed.

Lemma pool_hashrate_fallback_witness :
  let env := Sample.calm (Parsed Sample.worker_rollup_only) in
  (Seed.p2poolToCkpool Sample.externals_stub env Sample.worker_rollup_only
     ≫= (fun stats => bigint_columns (PoolStatsData.hashrate stats))
   = recorded_columns (Sample.day_rate 2)) /\
  (last (poolStats (committed
           (Seed.main Sample.externals_stub env (initial_world empty_store 1)).2))
     ≫= (.!! "hashrate1d")
   = Some (VBigInt 8589934592)).
Proof.
  intros env.
  pose proof (pool_hashrate_fallback Sample.externals_stub env
                Sample.worker_rollup_only) as (_ & _ & Hseed & Hrow & Hworker).
  assert (Hrollup : spec_fallback Sample.worker_rollup_only = Sample.day_rate 2)
    by exact (Hworker _ [] (Sample.worker_with 2) [] (Sample.day_rate 2)
                eq_refl eq_refl eq_refl eq_refl eq_refl).
  split; [exact (eq_trans Hseed (f_equal recorded_columns Hrollup)) |].
  assert (Hstats : exists stats,
            Seed.p2poolToCkpool Sample.externals_stub env Sample.worker_rollup_only
            = Ok stats) by (vm_compute; eexists; reflexivity).
  assert (Hcolumns : exists columns,
            recorded_columns (spec_fallback Sample.worker_rollup_only) = Ok columns
            /\ columns !! "hashrate1d" = Some (VBigInt 8589934592))
    by (eexists; split; [reflexivity | vm_compute; reflexivity]).
  destruct Hstats as [stats Hstats]. destruct Hcolumns as (columns & Hcolumns & Hday).
  destruct (Hrow empty_store 1 stats columns eq_refl eq_refl Hcolumns eq_refl)
    as [_ Hrun].
  rewrite (Hrun Hstats). cbn [poolStats empty_store app]. cbn [last mbind option_bind].
  now apply lookup_union_Some_l.
Defined.

(** C6 as stated fails when the first user has an aggregate of its own:
    the pool hashrate is then that aggregate (1, scaled), not the rollup
    of the user's worker (2, scaled). *)
Lemma worker_rollup_not_used :
  let hashrate1d (columns : result object) :=
    match columns with Ok row => row !! "hashrate1d" | Throw _ => None end in
  missing (P2PoolJson.computed_hashrate Sample.user_and_worker_rollups) = true /\
  (exists address user others name more,
     entries (P2PoolJson.users Sample.user_and_worker_rollups)
       = (address, user) :: others /\
     entries (P2PoolUser.workers user) = (name, Sample.worker_with 2) :: more) /\
  hashrate1d
    (Seed.p2poolToCkpool Sample.externals_stub (Sample.calm Unreadable)
         Sample.user_and_worker_rollups
       ≫= (fun stats => bigint_columns (PoolStatsData.hashrate stats)))
  = Some (VBigInt 4294967296) /\
  hashrate1d (recorded_columns (Sample.day_rate 2)) = Some (VBigInt 8589934592).
Proof.
  split; [reflexivity |]. split; [now eexists _, _, _, _, _ |].
  vm_compute. split; reflexivity.
Qed.

(** * Further properties of the scripts *)

(** ** Scaling keeps the order of hashrates *)

Lemma scales_finitely_dec (v : nullable number) :
  {scales_finitely v} + {~ scales_finitely v}.
Proof.
  destruct v as [| | x]; try (left; exact I).
  destruct x as [s | s | | s m e]; cbn.
  - destruct (Qlt_le_dec (Qabs 0) (inject_Z (2 ^ 992))) as [H | H]; [now left | right].
    now apply Qle_not_lt.
  - right. intros [].
  - destruct (Qlt_le_dec (Qabs 0) (inject_Z (2 ^ 992))) as [H | H]; [now left | right].
    now apply Qle_not_lt.
  - destruct (Qlt_le_dec (Qabs (to_Q (S754_finite s m e))) (inject_Z (2 ^ 992)))
      as [H | H]; [now left | right].
    now apply Qle_not_lt.
Qed.

Lemma scaleHashrate_Ok (r : number) (z : Z) :
  is_double r -> scaleHashrate (Def r) = Ok z ->
  z = Qfloor (to_Q r * inject_Z (2 ^ 32) + (1 # 2)).
Proof.
  intros Hr Hz.
  destruct (scaleHashrate_cases (Def r) Hr) as [Hin Hout].
  destruct (scales_finitely_dec (Def r)) as [H | H].
  - rewrite (Hin H) in Hz. now injection Hz as <-.
  - rewrite (Hout H) in Hz. discriminate Hz.
Qed.

Lemma Qfloor_step (x y : Q) : (x + 1 <= y)%Q -> Qfloor x + 1 <= Qfloor y.
Proof.
  intros H. rewrite <- (Qfloor_Z (Qfloor x + 1)). apply Qfloor_resp_le.
  rewrite inject_Z_plus. apply Qle_trans with (x + 1)%Q; [| exact H].
  apply Qplus_le_l. apply Qfloor_le.
Qed.

(** X1: [scaleHashrate] keeps the order of the hashrates it scales. Of two
    binary64 inputs it accepts, the one that is not greater gets the
    integer that is not greater; two inputs at least 2^-32 apart get
    different integers; and an input that is not negative never gets a
    negative integer. *)
Theorem scaleHashrate_keeps_order (r1 r2 : number) (z1 z2 : Z) :
  is_double r1 -> is_double r2 ->
  scaleHashrate (Def r1) = Ok z1 ->
  scaleHashrate (Def r2) = Ok z2 ->
  ((to_Q r1 <= to_Q r2)%Q -> z1 <= z2) /\
  ((to_Q r1 + (1 # 2 ^ 32) <= to_Q r2)%Q -> z1 < z2) /\
  ((0 <= to_Q r1)%Q -> 0 <= z1).
Proof.
  intros H1 H2 Hz1 Hz2.
  apply scaleHashrate_Ok in Hz1; [| exact H1]. apply scaleHashrate_Ok in Hz2; [| exact H2].
  subst z1 z2. split; [| split].
  - intros Hle. apply Qfloor_resp_le. apply Qplus_le_l.
    apply Qmult_le_compat_r; [exact Hle | discriminate].
  - intros Hle.
    assert (H : Qfloor (to_Q r1 * inject_Z (2 ^ 32) + (1 # 2)) + 1
                <= Qfloor (to_Q r2 * inject_Z (2 ^ 32) + (1 # 2))).
    { apply Qfloor_step.
      apply Qle_trans with ((to_Q r1 + (1 # 2 ^ 32)) * inject_Z (2 ^ 32) + (1 # 2))%Q.
      - apply Qle_lteq. right.
        change (inject_Z (2 ^ 32)) with (4294967296 # 1).
        change (1 # 2 ^ 32) with (1 # 4294967296). ring.
      - apply Qplus_le_l. apply Qmult_le_compat_r; [exact Hle | discriminate]. }
    lia.
  - intros Hpos. change 0 with (Qfloor 0). apply Qfloor_resp_le.
    apply Qle_trans with (0 * inject_Z (2 ^ 32) + 0)%Q; [discriminate |].
    apply Qplus_le_compat; [| discriminate].
    apply Qmult_le_compat_r; [exact Hpos | discriminate].
Qed.

Lemma scaleHashrate_keeps_order_witness :
  4294967296 < 6442450944 /\ 0 <= 4294967296.
Proof.
  destruct (scaleHashrate_keeps_order (of_Z 1) Edge.one_and_a_half
              4294967296 6442450944) as (_ & Hlt & Hpos); try reflexivity.
  split; [apply Hlt | apply Hpos]; vm_compute; discriminate.
Defined.

(** ** What a run leaves of the script's own state *)

Section Blind.

Context (P : world -> Prop) (X : externals) (env : environment).

(** [P] looks at neither the rows nor the Worker sequence. *)
Hypothesis P_committed : forall s w, P w -> P (set_committed s w).
Hypothesis P_working : forall s w, P w -> P (set_working s w).
Hypothesis P_seq : forall n w, P w -> P (set_worker_seq n w).

Lemma P_view (h : handle) (s : store) (w : world) : P w -> P (set_view h s w).
Proof. destruct h; [apply P_committed | apply P_working]. Qed.

Lemma blind_User_save (h : handle) (entity : object) :
  stable P (User_save env h entity).
Proof.
  intros w Hw. unfold User_save, mbind, M_bind, run_query.
  destruct (fault env _); cbn; [exact Hw |].
  destruct (string_of (entity !! "address")); cbn; [| exact Hw].
  now apply P_view.
Qed.

Lemma blind_UserStats_save (h : handle) (entity : object) :
  stable P (UserStats_save env h entity).
Proof.
  intros w Hw. unfold UserStats_save, mbind, M_bind, run_query.
  destruct (fault env _); cbn; [exact Hw |]. now apply P_view.
Qed.

Lemma blind_Worker_save (h : handle) (entity : object) :
  stable P (Worker_save env h entity).
Proof.
  intros w Hw. unfold Worker_save, mbind, M_bind, run_query.
  destruct (fault env _); cbn; [exact Hw |].
  destruct (id_of (entity !! "id")); cbn.
  - now apply P_view.
  - apply (P_view _ _ (set_worker_seq _ w)). now apply P_seq.
Qed.

Lemma blind_WorkerStats_save (h : handle) (entity : object) :
  stable P (WorkerStats_save env h entity).
Proof.
  intros w Hw. unfold WorkerStats_save, mbind, M_bind, run_query.
  destruct (fault env _); cbn; [exact Hw |]. now apply P_view.
Qed.

Lemma blind_PoolStats_save (h : handle) (entity : object) :
  stable P (PoolStats_save env h entity).
Proof.
  intros w Hw. unfold PoolStats_save, mbind, M_bind, run_query.
  destruct (fault env _); cbn; [exact Hw |]. now apply P_view.
Qed.

Lemma blind_FromLogs_user (json : P2PoolJson.t) (entry : string * P2PoolUser.t) :
  stable P (FromLogs.update_user env json entry).
Proof.
  destruct entry as [address user]. unfold FromLogs.update_user.
  apply stable_bind; [apply blind_User_save | intros _].
  apply stable_bind; [apply stable_lift | intros columns].
  apply stable_bind; [apply blind_UserStats_save | intros _].
  apply stable_for_of. intros [workerName workerData]. unfold FromLogs.update_worker.
  apply stable_bind; [apply stable_lift | intros columns'].
  apply stable_bind; [apply blind_Worker_save | intros workerEntity].
  apply stable_bind; [apply stable_lift | intros columns''].
  apply stable_bind; [apply blind_WorkerStats_save | intros _; apply stable_ret].
Qed.

Lemma blind_Seed_user (timestamp : value) (u : Ranked.t) :
  stable P (Seed.record_user env timestamp u).
Proof.
  unfold Seed.record_user.
  apply stable_bind; [apply blind_User_save | intros _].
  apply stable_bind; [apply stable_lift | intros hashrate1d].
  apply stable_bind; [apply blind_UserStats_save | intros _; apply stable_ret].
Qed.

End Blind.

(** ** The exit status of every script *)

Section Status.

Context (X : externals) (env : environment) (s : store) (next_id : Z).

Local Abbreviation w0 := (initial_world s next_id).
Local Abbreviation assigned := (fun w : world => db w = true).

(** The [finally] block of a script whose [db] is assigned. *)
Lemma finally_destroys (w : world) :
  db w = true ->
  (w ← get_world; if db w then destroy env else mret tt) w
  = if destroys env then (Ok tt, w) else (Throw DestroyError, w).
Proof.
  intros Hdb. unfold mbind, M_bind, get_world. rewrite Hdb. unfold destroy.
  destruct (destroys env); reflexivity.
Qed.

Lemma FromLogs_status :
  (FromLogs.main env w0).1
  = if match file env with Parsed _ => connects env && negb (destroys env) | _ => false end
    then 1 else 0.
Proof.
  unfold FromLogs.main, FromLogs.updateUsersFromJson, try_finally, try_catch.
  unfold read_and_parse.
  destruct (file env) as [| | json]; [reflexivity | reflexivity |].
  erewrite run_bind by reflexivity.
  unfold getDb. destruct (connects env); [| reflexivity].
  erewrite run_bind by reflexivity. erewrite run_bind by reflexivity.
  pose proof (stable_for_of assigned (entries (P2PoolJson.users json))
                (FromLogs.update_user env json)
                (blind_FromLogs_user assigned env (fun _ _ H => H) (fun _ _ H => H)
                   (fun _ _ H => H) json) (set_db true w0) eq_refl) as Hdb.
  destruct (for_of _ _ (set_db true w0)) as [[[] | e] w1]; cbn [snd] in Hdb.
  - rewrite (finally_destroys w1 Hdb). cbn. destruct (destroys env); reflexivity.
  - unfold console_error, modify.
    rewrite (finally_destroys (add_stderr e w1) Hdb). cbn.
    destruct (destroys env); reflexivity.
Qed.

Lemma Seed_status :
  (Seed.main X env w0).1
  = if match file env with
       | Parsed json =>
           match Seed.p2poolToCkpool X env json with
           | Ok _ => connects env && negb (destroys env)
           | Throw _ => false
           end
       | _ => false
       end
    then 1 else 0.
Proof.
  unfold Seed.main, Seed.seed, try_finally, try_catch.
  unfold Seed.readP2PoolJson, read_and_parse.
  destruct (file env) as [| | json]; [reflexivity | reflexivity |].
  erewrite run_bind by reflexivity.
  destruct (Seed.p2poolToCkpool X env json) as [stats | e]; [| reflexivity].
  erewrite run_bind by reflexivity.
  unfold getDb. destruct (connects env); [| reflexivity].
  erewrite run_bind by reflexivity. erewrite run_bind by reflexivity.
  set (body := (lift (bigint_columns (PoolStatsData.hashrate stats)) ≫= _)).
  assert (Hbody : stable assigned body).
  { apply stable_bind; [apply stable_lift | intros hashrates].
    apply stable_bind;
      [apply blind_PoolStats_save; intros ? ? H; exact H | intros _].
    apply stable_for_of. intros u.
    apply blind_Seed_user; intros ? ? H; exact H. }
  specialize (Hbody (set_db true w0) eq_refl).
  destruct (body (set_db true w0)) as [[[] | e] w1]; cbn [snd] in Hbody.
  - rewrite (finally_destroys w1 Hbody). cbn. destruct (destroys env); reflexivity.
  - unfold console_error, modify.
    rewrite (finally_destroys (add_stderr e w1) Hbody). cbn.
    destruct (destroys env); reflexivity.
Qed.

End Status.

(** X2: a script ends with status 1 in one case only: it has opened the
    connection and [db.destroy()] rejects in its [finally] block. The
    sequential user script opens it when the snapshot parses and the
    backend connects; the two seed scripts when, besides, the pool
    hashrates could be scaled. Whatever else fails is printed and the
    status is 0; the batched user script always ends with status 0. *)
Theorem exit_status_one_only_when_destroy_rejects (X : externals) (env : environment)
    (s : store) (next_id : Z) :
  let w0 := initial_world s next_id in
  let status (opened : bool) : exit_status :=
    if opened && negb (destroys env) then 1 else 0 in
  let scaled (p2poolToCkpool : P2PoolJson.t -> result PoolStatsData.t) :=
    match file env with
    | Parsed json =>
        match p2poolToCkpool json with Ok _ => connects env | Throw _ => false end
    | _ => false
    end in
  (FromLogs.main env w0).1
  = status (match file env with Parsed _ => connects env | _ => false end) /\
  (Seed.main X env w0).1 = status (scaled (Seed.p2poolToCkpool X env)) /\
  (Part001.main X env w0).1 = status (scaled (Part001.p2poolToCkpool X env)) /\
  (Batched.main X env w0).1 = 0.
Proof.
  intros w0 status scaled. split; [| split; [| split]].
  - unfold w0. rewrite FromLogs_status. unfold status.
    destruct (file env); reflexivity.
  - unfold w0. rewrite Seed_status. unfold status, scaled.
    destruct (file env) as [| | json]; try reflexivity.
    destruct (Seed.p2poolToCkpool X env json); reflexivity.
  - unfold w0. rewrite Part001_status. unfold status, scaled.
    destruct (file env) as [| | json]; try reflexivity.
    destruct (Part001.p2poolToCkpool X env json); reflexivity.
  - apply Batched_status.
Qed.

(** ** Runs that fail before the connection is open *)

Section EarlyFailure.

Context (X : externals) (env : environment) (s : store) (next_id : Z).

Local Abbreviation w0 := (initial_world s next_id).

Lemma read_error_runs (e : error) :
  read_error env = Some e ->
  FromLogs.main env w0 = (0, add_stderr e w0) /\
  Batched.main X env w0 = (0, add_stderr e w0) /\
  Seed.main X env w0 = (0, add_stderr e w0) /\
  Part001.main X env w0 = (0, add_stderr (ReadFailure e) w0).
Proof.
  unfold read_error. intros He.
  unfold FromLogs.main, FromLogs.updateUsersFromJson, Batched.main,
    Batched.updateUsersFromJson, Seed.main, Seed.seed, Seed.readP2PoolJson,
    Part001.main, Part001.seed, Part001.fetchPoolStats, Part001.readP2PoolJson,
    try_finally, try_catch, read_and_parse, mbind, M_bind.
  destruct (file env); try discriminate He; injection He as <-; cbn; repeat split.
Qed.

Lemma unreachable_runs (json : P2PoolJson.t) :
  file env = Parsed json -> connects env = false ->
  FromLogs.main env w0 = (0, twice_printed ConnectionError w0) /\
  Batched.main X env w0 = (0, twice_printed ConnectionError w0) /\
  (forall stats, Seed.p2poolToCkpool X env json = Ok stats ->
     Seed.main X env w0 = (0, twice_printed ConnectionError w0)) /\
  (forall stats, Part001.p2poolToCkpool X env json = Ok stats ->
     Part001.main X env w0 = (0, twice_printed ConnectionError w0)).
Proof.
  intros Hfile Hconn. unfold twice_printed.
  unfold FromLogs.main, FromLogs.updateUsersFromJson, Batched.main,
    Batched.updateUsersFromJson, Seed.main, Seed.seed, Seed.readP2PoolJson,
    Part001.main, Part001.seed, Part001.fetchPoolStats, Part001.readP2PoolJson,
    try_finally, try_catch, read_and_parse, getDb, console_error, modify, throw,
    mbind, M_bind, lift.
  rewrite Hfile, Hconn. cbn.
  split; [reflexivity |]. split; [reflexivity |].
  split; intros stats ->; reflexivity.
Qed.

Lemma unscalable_runs (json : P2PoolJson.t) :
  file env = Parsed json ->
  (forall e, Seed.p2poolToCkpool X env json = Throw e ->
     Seed.main X env w0 = (0, add_stderr e w0)) /\
  (forall e, Part001.p2poolToCkpool X env json = Throw e ->
     Part001.main X env w0 = (0, add_stderr e w0)).
Proof.
  intros Hfile.
  unfold Seed.main, Seed.seed, Seed.readP2PoolJson,
    Part001.main, Part001.seed, Part001.fetchPoolStats, Part001.readP2PoolJson,
    try_finally, try_catch, read_and_parse, getDb, mbind, M_bind, lift.
  rewrite Hfile. cbn. split; intros e ->; reflexivity.
Qed.

End EarlyFailure.

(** X3: a run that fails before its connection is open changes no row.
    When the snapshot cannot be read or parsed, each of the four scripts
    ends with status 0 in the world it started in, the error printed
    once (the script of [src/unnamed/part_001] prints a read error
    wrapped in its own). When the snapshot parses but [getDb()] rejects,
    each ends with status 0 in that world with the connection error
    printed twice: by the [catch] handler of [getDb], then by the
    script. *)
Theorem failure_before_connection_writes_nothing (X : externals) (env : environment)
    (s : store) (next_id : Z) :
  let w0 := initial_world s next_id in
  (forall e, read_error env = Some e ->
     FromLogs.main env w0 = (0, add_stderr e w0) /\
     Batched.main X env w0 = (0, add_stderr e w0) /\
     Seed.main X env w0 = (0, add_stderr e w0) /\
     Part001.main X env w0 = (0, add_stderr (ReadFailure e) w0)) /\
  (forall json, file env = Parsed json -> connects env = false ->
     FromLogs.main env w0 = (0, twice_printed ConnectionError w0) /\
     Batched.main X env w0 = (0, twice_printed ConnectionError w0) /\
     (forall stats, Seed.p2poolToCkpool X env json = Ok stats ->
        Seed.main X env w0 = (0, twice_printed ConnectionError w0)) /\
     (forall stats, Part001.p2poolToCkpool X env json = Ok stats ->
        Part001.main X env w0 = (0, twice_printed ConnectionError w0))).
Proof.
  intros w0. split.
  - intros e. apply read_error_runs.
  - intros json. apply unreachable_runs.
Qed.

Lemma failure_before_connection_writes_nothing_witness :
  committed (FromLogs.main (Sample.calm Malformed) (initial_world empty_store 1)).2
  = empty_store /\
  (Batched.main Sample.externals_stub Sample.unreachable (initial_world empty_store 1)).2
  = mkWorld empty_store empty_store 1 false [ConnectionError; ConnectionError].
Proof.
  destruct (failure_before_connection_writes_nothing Sample.externals_stub
              (Sample.calm Malformed) empty_store 1) as [Hread _].
  destruct (failure_before_connection_writes_nothing Sample.externals_stub
              Sample.unreachable empty_store 1) as [_ Hconn].
  destruct (Hread SyntaxError eq_refl) as (-> & _).
  destruct (Hconn Sample.one_worker eq_refl eq_refl) as (_ & -> & _).
  split; reflexivity.
Defined.

(** ** A pool hashrate that cannot be scaled *)

Lemma scaleHashrate_text_cases (v : nullable number) :
  representable v ->
  (scales_finitely v -> exists s, scaleHashrate_text v = Ok s) /\
  (~ scales_finitely v -> scaleHashrate_text v = Throw RangeError).
Proof.
  intros Hv. destruct (scaleHashrate_cases v Hv) as [Hin Hout].
  unfold scaleHashrate_text. split; intros H.
  - rewrite (Hin H). cbn. eexists. reflexivity.
  - rewrite (Hout H). reflexivity.
Qed.

Lemma scale_fields_cases (f : ComputedHashRate.t) :
  Forall representable (fields_of f) ->
  (Forall scales_finitely (fields_of f) -> exists h, scale_fields f = Ok h) /\
  (Exists (fun v => ~ scales_finitely v) (fields_of f) ->
   scale_fields f = Throw RangeError).
Proof.
  destruct f as [f1 f2 f3 f4 f5 f6 f7]. unfold fields_of, scale_fields. cbn.
  intros Hrep.
  repeat match goal with
         | H : Forall _ (_ :: _) |- _ => apply Forall_cons in H as [? H]
         end.
  split.
  - intros Hall.
    repeat match goal with
           | H : Forall _ (_ :: _) |- _ => apply Forall_cons in H as [? H]
           end.
    repeat match goal with
           | Hr : representable ?v, Hs : scales_finitely ?v |- _ =>
               destruct (scaleHashrate_text_cases v Hr) as [Hok _];
               destruct (Hok Hs) as [? ->]; clear Hok Hr Hs; cbn
           end.
    eexists. reflexivity.
  - intros Hex.
    repeat match goal with
           | Hr : representable ?v |- context [scaleHashrate_text ?v] =>
               destruct (scaleHashrate_text_cases v Hr) as [Hok Hbad];
               destruct (scales_finitely_dec v) as [Hs | Hs];
               [destruct (Hok Hs) as [? ->]; cbn
               | rewrite (Hbad Hs); reflexivity];
               clear Hok Hbad Hr;
               apply Exists_cons in Hex as [Hex | Hex]; [contradiction |]; clear Hs
           end.
    inversion Hex.
Qed.

(** X4: the pool hashrates are scaled before the connection is asked for.
    When each of the seven fields of the rollup [p2poolToCkpool] picks is
    absent or a binary64 value of magnitude below 2^992, the
    transformation returns, in both seed scripts; when one of them is
    infinite or larger, both scripts print the RangeError and end with
    status 0 in the world they started in: no connection is opened and no
    row is written. *)
Theorem out_of_range_pool_hashrate_aborts_seed (X : externals) (env : environment)
    (s : store) (next_id : Z) (json : P2PoolJson.t) :
  let fields := fields_of (hashrateFields json) in
  let w0 := initial_world s next_id in
  file env = Parsed json ->
  Forall representable fields ->
  (Forall scales_finitely fields ->
   exists stats stats',
     Seed.p2poolToCkpool X env json = Ok stats /\
     Part001.p2poolToCkpool X env json = Ok stats') /\
  (Exists (fun v => ~ scales_finitely v) fields ->
   Seed.main X env w0 = (0, add_stderr RangeError w0) /\
   Part001.main X env w0 = (0, add_stderr RangeError w0)).
Proof.
  intros fields w0 Hfile Hrep.
  destruct (scale_fields_cases (hashrateFields json) Hrep) as [Hok Hbad]. split.
  - intros Hall. destruct (Hok Hall) as [h Hh].
    unfold Seed.p2poolToCkpool, Part001.p2poolToCkpool. rewrite Hh. cbn.
    eexists _, _. split; reflexivity.
  - intros Hex. specialize (Hbad Hex).
    destruct (unscalable_runs X env s next_id json Hfile) as [Hseed Hpart].
    split; [apply Hseed | apply Hpart];
      unfold Seed.p2poolToCkpool, Part001.p2poolToCkpool; now rewrite Hbad.
Qed.

Lemma out_of_range_pool_hashrate_aborts_seed_witness :
  Seed.main Sample.externals_stub (Sample.calm (Parsed Edge.infinite_7d))
    (initial_world empty_store 1)
  = (0, add_stderr RangeError (initial_world empty_store 1)).
Proof.
  apply (out_of_range_pool_hashrate_aborts_seed Sample.externals_stub
           (Sample.calm (Parsed Edge.infinite_7d)) empty_store 1 Edge.infinite_7d).
  - reflexivity.
  - repeat constructor.
  - do 6 apply Exists_cons_tl. apply Exists_cons_hd. intros H. exact H.
Defined.

(** ** The top-ten loop, row by row *)

Section TopTenLoop.

Context (X : externals) (env : environment) (timestamp : value).
Hypothesis Haccepts : accepts_all env.

Lemma record_user_run (u : Ranked.t) (w : world) :
  Seed.record_user env timestamp u w
  = if is_integral (Ranked.hashrate u)
    then (Ok tt, set_committed (recorded timestamp (committed w) u) w)
    else (Throw RangeError,
          set_committed (saved_address (committed w) (Ranked.address u)) w).
Proof.
  unfold Seed.record_user, User_save, UserStats_save, mbind, M_bind, run_query, lift.
  rewrite !Haccepts. cbn. rewrite lookup_singleton_eq. cbn.
  unfold BigInt. destruct (is_integral (Ranked.hashrate u)); cbn; [| reflexivity].
  rewrite Haccepts. reflexivity.
Qed.

Lemma record_users_run (l : list Ranked.t) (w : world) :
  Forall (fun u => is_integral (Ranked.hashrate u) = true) l ->
  for_of l (Seed.record_user env timestamp) w
  = (Ok tt, match l with
            | [] => w
            | _ => set_committed (foldl (recorded timestamp) (committed w) l) w
            end).
Proof.
  revert w. induction l as [| u l IH]; intros w Hl; [reflexivity |].
  inversion Hl as [| ? ? Hu Hl']; subst.
  cbn [for_of]. erewrite run_bind by (rewrite record_user_run, Hu; reflexivity).
  rewrite IH by exact Hl'. destruct l; reflexivity.
Qed.

Lemma record_users_stop (pre post : list Ranked.t) (u : Ranked.t) (w : world) :
  Forall (fun u => is_integral (Ranked.hashrate u) = true) pre ->
  is_integral (Ranked.hashrate u) = false ->
  for_of (pre ++ u :: post) (Seed.record_user env timestamp) w
  = (Throw RangeError,
     set_committed
       (saved_address (foldl (recorded timestamp) (committed w) pre) (Ranked.address u))
       w).
Proof.
  intros Hpre Hu. rewrite for_of_app, record_users_run by exact Hpre.
  cbn [for_of]. unfold mbind, M_bind. rewrite record_user_run, Hu.
  destruct pre; reflexivity.
Qed.

End TopTenLoop.

Section Recorded.

Context (timestamp : value).

Lemma recorded_userStats (l : list Ranked.t) (s : store) :
  userStats (foldl (recorded timestamp) s l)
  = userStats s ++ (top_stats_row timestamp <$> l).
Proof.
  revert s. induction l as [| u l IH]; intros s; cbn; [now rewrite app_nil_r |].
  rewrite IH. cbn. now rewrite <- app_assoc.
Qed.

Lemma recorded_users (l : list Ranked.t) (s : store) (a : string) :
  users (foldl (recorded timestamp) s l) !! a
  = if decide (a ∈ Ranked.address <$> l)
    then Some ({[ "address" := VString a ]} ∪ default ∅ (users s !! a))
    else users s !! a.
Proof.
  revert s. induction l as [| u l IH]; intros s; cbn [foldl fmap list_fmap].
  - destruct (decide (a ∈ [])) as [H | H]; [inversion H | reflexivity].
  - rewrite IH. cbn [recorded saved_address users].
    destruct (decide (a = Ranked.address u)) as [-> | Hne].
    + rewrite lookup_insert_eq. cbn [default]. unfold id.
      rewrite (assoc_L (∪)), (idemp_L (∪)).
      destruct (decide (Ranked.address u ∈ Ranked.address <$> l));
        destruct (decide (Ranked.address u ∈ Ranked.address u :: (Ranked.address <$> l)))
        as [H | H]; try reflexivity; exfalso; apply H; constructor.
    + rewrite lookup_insert_ne by congruence.
      destruct (decide (a ∈ Ranked.address <$> l)) as [Hin | Hin];
        destruct (decide (a ∈ Ranked.address u :: (Ranked.address <$> l))) as [H | H];
        try reflexivity.
      * exfalso. apply H. now constructor.
      * exfalso. apply elem_of_cons in H as [H | H]; [congruence | contradiction].
Qed.

End Recorded.

(** [BigInt(stats.hashrateNN)] reads back what [scaleHashrate] printed. *)
Lemma bigint_columns_total (f : ComputedHashRate.t) (h : scaled_hashrates) :
  scale_fields f = Ok h -> exists columns, bigint_columns h = Ok columns.
Proof.
  unfold scale_fields, scaleHashrate_text.
  destruct f as [f1 f2 f3 f4 f5 f6 f7]; cbn.
  destruct (scaleHashrate f1); cbn; [| intros [=]].
  destruct (scaleHashrate f2); cbn; [| intros [=]].
  destruct (scaleHashrate f3); cbn; [| intros [=]].
  destruct (scaleHashrate f4); cbn; [| intros [=]].
  destruct (scaleHashrate f5); cbn; [| intros [=]].
  destruct (scaleHashrate f6); cbn; [| intros [=]].
  destruct (scaleHashrate f7); cbn; [| intros [=]].
  intros [= <-]. unfold bigint_columns. cbn. rewrite !BigInt_round_trip. cbn.
  eexists. reflexivity.
Qed.

Lemma Seed_columns (X : externals) (env : environment) (json : P2PoolJson.t)
    (stats : PoolStatsData.t) :
  Seed.p2poolToCkpool X env json = Ok stats ->
  exists columns, bigint_columns (PoolStatsData.hashrate stats) = Ok columns.
Proof.
  unfold Seed.p2poolToCkpool.
  destruct (scale_fields (hashrateFields json)) as [h |] eqn:Hh; cbn; [| intros [=]].
  intros [= <-]. cbn. now apply (bigint_columns_total (hashrateFields json)).
Qed.

Section SeedRun.

Context (X : externals) (env : environment) (s : store) (next_id : Z)
  (json : P2PoolJson.t) (stats : PoolStatsData.t).

Hypothesis Hfile : file env = Parsed json.
Hypothesis Hconn : connects env = true.
Hypothesis Hstats : Seed.p2poolToCkpool X env json = Ok stats.

Local Abbreviation w0 := (initial_world s next_id).
Local Abbreviation top := (Seed.topUsers (entries (P2PoolJson.users json))).
Local Abbreviation timestamp := (PoolStatsData.timestamp stats).

(** The run up to the pool insert, then the loop, the [catch] and the
    [finally]. *)
Lemma Seed_main_run (columns : object) :
  bigint_columns (PoolStatsData.hashrate stats) = Ok columns ->
  Seed.main X env w0
  = if fault env (Save TPoolStats (columns ∪ plain_columns stats))
    then if destroys env then (0, add_stderr QueryError (set_db true w0))
         else (1, add_stderr DestroyError (add_stderr QueryError (set_db true w0)))
    else
      let w1 :=
        set_committed
          (mkStore (users s) (userStats s) (workers s) (workerStats s)
             (poolStats s ++ [columns ∪ plain_columns stats])) (set_db true w0) in
      let '(r, w2) := for_of top (Seed.record_user env timestamp) w1 in
      let w3 := match r with Ok _ => w2 | Throw e => add_stderr e w2 end in
      if destroys env then (0, w3) else (1, add_stderr DestroyError w3).
Proof.
  intros Hcolumns.
  unfold Seed.main, Seed.seed, try_finally, try_catch.
  erewrite run_bind by (unfold Seed.readP2PoolJson, read_and_parse; now rewrite Hfile).
  erewrite run_bind by (unfold lift; now rewrite Hstats).
  erewrite run_bind by (unfold getDb; now rewrite Hconn).
  erewrite run_bind by reflexivity.
  erewrite run_bind by (unfold lift; now rewrite Hcolumns).
  destruct (fault env (Save TPoolStats (columns ∪ plain_columns stats))) eqn:Hfault.
  - unfold PoolStats_save, run_query, mbind, M_bind. rewrite Hfault. cbn.
    unfold destroy. destruct (destroys env); reflexivity.
  - erewrite run_bind by (apply PoolStats_save_row; exact Hfault).
    cbv zeta.
    set (w1 := set_committed
                 (mkStore (users s) (userStats s) (workers s) (workerStats s)
                    (poolStats s ++ [columns ∪ plain_columns stats])) (set_db true w0)).
    match goal with |- context [for_of _ _ ?wa] => change wa with w1 end.
    match goal with |- context [for_of ?l ?body ?w1] =>
      pose proof (stable_for_of (fun w => db w = true) l body
                    (blind_Seed_user (fun w => db w = true) env (fun _ _ H => H)
                       (fun _ _ H => H) timestamp) w1 eq_refl) as Hdb;
      destruct (for_of l body w1) as [[[] | e] w2]
    end; cbn [snd] in Hdb.
    + rewrite (finally_destroys env w2 Hdb). destruct (destroys env); reflexivity.
    + unfold console_error, modify.
      rewrite (finally_destroys env (add_stderr e w2) Hdb).
      destruct (destroys env); reflexivity.
Qed.

End SeedRun.

(** X5: the pool row is inserted before any user is written. When the
    backend rejects the PoolStats insert of the top-ten script, the run
    leaves the rows as they were, prints the rejection, closes the
    connection, and ends with status 0, or with status 1 when
    [db.destroy()] rejects as well. *)
Theorem rejected_pool_insert_ends_seed (X : externals) (env : environment)
    (s : store) (next_id : Z) (json : P2PoolJson.t) (stats : PoolStatsData.t) :
  file env = Parsed json ->
  connects env = true ->
  Seed.p2poolToCkpool X env json = Ok stats ->
  (forall entity, fault env (Save TPoolStats entity) = true) ->
  let run := Seed.main X env (initial_world s next_id) in
  committed run.2 = s /\
  stderr run.2 = QueryError :: (if destroys env then [] else [DestroyError]) /\
  run.1 = if destroys env then 0 else 1.
Proof.
  intros Hfile Hconn Hstats Hfault run.
  destruct (Seed_columns X env json stats Hstats) as [columns Hcolumns].
  unfold run. rewrite (Seed_main_run X env s next_id json stats Hfile Hconn Hstats
                         columns Hcolumns).
  rewrite Hfault. destruct (destroys env); repeat split.
Qed.

Lemma rejected_pool_insert_ends_seed_witness :
  let run := Seed.main Sample.externals_stub Edge.poolStats_fail
               (initial_world empty_store 1) in
  committed run.2 = empty_store /\ stderr run.2 = [QueryError] /\ run.1 = 0.
Proof.
  eapply (rejected_pool_insert_ends_seed Sample.externals_stub Edge.poolStats_fail
            empty_store 1 Sample.twelve_users).
  - reflexivity.
  - reflexivity.
  - vm_compute. reflexivity.
  - intros entity. reflexivity.
Defined.

Section TopTenRows.

Context (X : externals) (env : environment) (s : store) (next_id : Z)
  (json : P2PoolJson.t) (stats : PoolStatsData.t).

Hypothesis Haccepts : accepts_all env.
Hypothesis Hfile : file env = Parsed json.
Hypothesis Hconn : connects env = true.
Hypothesis Hstats : Seed.p2poolToCkpool X env json = Ok stats.

Local Abbreviation run := (Seed.main X env (initial_world s next_id)).
Local Abbreviation timestamp := (PoolStatsData.timestamp stats).

Lemma Seed_rows_stop (pre post : list Ranked.t) (u : Ranked.t) :
  Seed.topUsers (entries (P2PoolJson.users json)) = pre ++ u :: post ->
  Forall (fun v => is_integral (Ranked.hashrate v) = true) pre ->
  is_integral (Ranked.hashrate u) = false ->
  exists row,
    committed run.2
    = saved_address
        (foldl (recorded timestamp)
           (mkStore (users s) (userStats s) (workers s) (workerStats s)
              (poolStats s ++ [row])) pre)
        (Ranked.address u) /\
    stderr run.2 = RangeError :: (if destroys env then [] else [DestroyError]).
Proof.
  intros Htop Hpre Hu.
  destruct (Seed_columns X env json stats Hstats) as [columns Hcolumns].
  exists (columns ∪ plain_columns stats).
  rewrite (Seed_main_run X env s next_id json stats Hfile Hconn Hstats columns Hcolumns).
  rewrite Haccepts. cbv zeta. rewrite Htop.
  rewrite (record_users_stop env timestamp Haccepts pre post u _ Hpre Hu).
  destruct (destroys env); split; reflexivity.
Qed.

Lemma Seed_rows_all :
  Forall (fun v => is_integral (Ranked.hashrate v) = true)
    (Seed.topUsers (entries (P2PoolJson.users json))) ->
  exists row,
    committed run.2
    = foldl (recorded timestamp)
        (mkStore (users s) (userStats s) (workers s) (workerStats s)
           (poolStats s ++ [row]))
        (Seed.topUsers (entries (P2PoolJson.users json))) /\
    stderr run.2 = (if destroys env then [] else [DestroyError]).
Proof.
  intros Htop.
  destruct (Seed_columns X env json stats Hstats) as [columns Hcolumns].
  exists (columns ∪ plain_columns stats).
  rewrite (Seed_main_run X env s next_id json stats Hfile Hconn Hstats columns Hcolumns).
  rewrite Haccepts. cbv zeta.
  rewrite (record_users_run env timestamp Haccepts _ _ Htop).
  destruct (Seed.topUsers (entries (P2PoolJson.users json)));
    destruct (destroys env); split; reflexivity.
Qed.

End TopTenRows.

(** X6: [BigInt(u.hashrate)] throws on a hashrate with a fractional part,
    after the user's row has been saved. With a backend that accepts
    every call, when the selected users before [u] have whole 1-day
    hashrates and [u] has not, the run prints the RangeError; the users
    before [u] have their UserStats row, in ranking order; [u] and they
    have their User row ([{ address }] merged into the row that was
    there); [u] has no UserStats row, and the users after [u] are not
    written at all. *)
Theorem fractional_hashrate_stops_top_ten (X : externals) (env : environment)
    (s : store) (next_id : Z) (json : P2PoolJson.t) (stats : PoolStatsData.t)
    (pre post : list Ranked.t) (u : Ranked.t) :
  accepts_all env ->
  file env = Parsed json ->
  connects env = true ->
  Seed.p2poolToCkpool X env json = Ok stats ->
  Seed.topUsers (entries (P2PoolJson.users json)) = pre ++ u :: post ->
  Forall (fun v => is_integral (Ranked.hashrate v) = true) pre ->
  is_integral (Ranked.hashrate u) = false ->
  let run := Seed.main X env (initial_world s next_id) in
  let after := committed run.2 in
  stderr run.2 = RangeError :: (if destroys env then [] else [DestroyError]) /\
  userStats after
  = userStats s ++ (top_stats_row (PoolStatsData.timestamp stats) <$> pre) /\
  (forall a,
     users after !! a
     = if decide (a ∈ Ranked.address <$> pre ++ [u])
       then Some ({[ "address" := VString a ]} ∪ default ∅ (users s !! a))
       else users s !! a).
Proof.
  intros Haccepts Hfile Hconn Hstats Htop Hpre Hu run after.
  destruct (Seed_rows_stop X env s next_id json stats Haccepts Hfile Hconn Hstats
              pre post u Htop Hpre Hu) as (row & Hafter & Herr).
  split; [exact Herr |]. unfold after, run. rewrite Hafter. split.
  - cbn [saved_address userStats]. now rewrite recorded_userStats.
  - intros a. cbn [saved_address users].
    pose proof (recorded_users (PoolStatsData.timestamp stats) pre
                  (mkStore (users s) (userStats s) (workers s) (workerStats s)
                     (poolStats s ++ [row])) a) as Hpre_users.
    cbn [users] in Hpre_users. rewrite fmap_app. cbn [fmap list_fmap].
    destruct (decide (a = Ranked.address u)) as [-> | Hne].
    + rewrite lookup_insert_eq, Hpre_users.
      destruct (decide (Ranked.address u ∈ (Ranked.address <$> pre) ++ [Ranked.address u]))
        as [_ | H]; [| exfalso; apply H, elem_of_app; right; constructor].
      destruct (decide (Ranked.address u ∈ Ranked.address <$> pre)); [| reflexivity].
      cbn [default]. unfold id. now rewrite (assoc_L (∪)), (idemp_L (∪)).
    + rewrite lookup_insert_ne by congruence. rewrite Hpre_users.
      destruct (decide (a ∈ Ranked.address <$> pre)) as [Hin | Hin];
        destruct (decide (a ∈ (Ranked.address <$> pre) ++ [Ranked.address u])) as [H | H];
        try reflexivity.
      * exfalso. apply H, elem_of_app. now left.
      * exfalso. apply elem_of_app in H as [H | H]; [contradiction |].
        apply list_elem_of_singleton in H. congruence.
Qed.

Lemma fractional_hashrate_stops_top_ten_witness :
  let run := Seed.main Sample.externals_stub (Sample.calm (Parsed Edge.fractional_second))
               (initial_world empty_store 1) in
  stderr run.2 = [RangeError] /\
  (fun row => string_of (row !! "userAddress")) <$> userStats (committed run.2)
  = [Some "userA"] /\
  users (committed run.2) !! "userB" = Some {[ "address" := VString "userB" ]} /\
  users (committed run.2) !! "userC" = None.
Proof.
  intros run.
  assert (Hstats : exists stats,
            Seed.p2poolToCkpool Sample.externals_stub
              (Sample.calm (Parsed Edge.fractional_second)) Edge.fractional_second
            = Ok stats)
    by (vm_compute; eexists; reflexivity).
  destruct Hstats as [stats Hstats].
  destruct (fractional_hashrate_stops_top_ten Sample.externals_stub
              (Sample.calm (Parsed Edge.fractional_second)) empty_store 1
              Edge.fractional_second stats
              [Seed.rank (Edge.user_rated "userA" (of_Z 3))]
              [Seed.rank (Edge.user_rated "userC" (of_Z 1))]
              (Seed.rank (Edge.user_rated "userB" Edge.one_and_a_half)))
    as (Herr & Hrows & Husers).
  - intros q. reflexivity.
  - reflexivity.
  - reflexivity.
  - exact Hstats.
  - vm_compute. reflexivity.
  - repeat constructor.
  - reflexivity.
  - split; [exact Herr |]. split; [| split].
    + fold run in Hrows. rewrite Hrows. reflexivity.
    + fold run in Husers. rewrite Husers. reflexivity.
    + fold run in Husers. rewrite Husers. reflexivity.
Defined.

(** X7: with a backend that accepts every call and whole 1-day hashrates,
    the top-ten script writes every selected user: one UserStats row
    each, appended in ranking order, holding the address, the hashrate as
    an integer (not scaled) and the pool row's timestamp; and for each a
    User row, [{ address }] merged into the row that was there. The rows
    of the other addresses are as before; nothing is printed unless
    [db.destroy()] rejects. *)
Theorem whole_hashrates_record_top_ten (X : externals) (env : environment)
    (s : store) (next_id : Z) (json : P2PoolJson.t) (stats : PoolStatsData.t) :
  accepts_all env ->
  file env = Parsed json ->
  connects env = true ->
  Seed.p2poolToCkpool X env json = Ok stats ->
  let top := Seed.topUsers (entries (P2PoolJson.users json)) in
  Forall (fun v => is_integral (Ranked.hashrate v) = true) top ->
  let run := Seed.main X env (initial_world s next_id) in
  let after := committed run.2 in
  stderr run.2 = (if destroys env then [] else [DestroyError]) /\
  userStats after
  = userStats s ++ (top_stats_row (PoolStatsData.timestamp stats) <$> top) /\
  (forall a,
     users after !! a
     = if decide (a ∈ Ranked.address <$> top)
       then Some ({[ "address" := VString a ]} ∪ default ∅ (users s !! a))
       else users s !! a).
Proof.
  intros Haccepts Hfile Hconn Hstats top Htop run after.
  destruct (Seed_rows_all X env s next_id json stats Haccepts Hfile Hconn Hstats Htop)
    as (row & Hafter & Herr).
  split; [exact Herr |]. unfold after, run. rewrite Hafter. split.
  - now rewrite recorded_userStats.
  - intros a. now rewrite recorded_users.
Qed.

Lemma whole_hashrates_record_top_ten_witness :
  let run := Seed.main Sample.externals_stub (Sample.calm (Parsed Sample.twelve_users))
               (initial_world empty_store 1) in
  stderr run.2 = [] /\
  length (userStats (committed run.2)) = 10%nat /\
  users (committed run.2) !! "user06" = Some {[ "address" := VString "user06" ]} /\
  users (committed run.2) !! "user03" = None.
Proof.
  intros run.
  assert (Hstats : exists stats,
            Seed.p2poolToCkpool Sample.externals_stub
              (Sample.calm (Parsed Sample.twelve_users)) Sample.twelve_users = Ok stats)
    by (vm_compute; eexists; reflexivity).
  destruct Hstats as [stats Hstats].
  destruct (whole_hashrates_record_top_ten Sample.externals_stub
              (Sample.calm (Parsed Sample.twelve_users)) empty_store 1
              Sample.twelve_users stats)
    as (Herr & Hrows & Husers).
  - intros q. reflexivity.
  - reflexivity.
  - reflexivity.
  - exact Hstats.
  - vm_compute. repeat constructor.
  - split; [exact Herr |]. split; [| split].
    + fold run in Hrows. rewrite Hrows. reflexivity.
    + fold run in Husers. rewrite Husers. reflexivity.
    + fold run in Husers. rewrite Husers. reflexivity.
Defined.

(** ** A batched run that resolves *)

Section ManagerRows.

Context (Q : store -> Prop) (X : externals) (env : environment).

Hypothesis Q_users_only :
  forall s us ws wss ps, Q s -> Q (mkStore (users s) us ws wss ps).

(** [Q] holds of the rows the open transaction sees. *)
Local Abbreviation seen := (fun w : world => Q (working w)).

Lemma seen_UserStats_save (entity : object) :
  stable seen (UserStats_save env EntityManager entity).
Proof.
  intros w Hw. unfold UserStats_save, mbind, M_bind, run_query.
  destruct (fault env _); cbn; [exact Hw |]. now apply Q_users_only.
Qed.

Lemma seen_Worker_save (entity : object) :
  stable seen (Worker_save env EntityManager entity).
Proof.
  intros w Hw. unfold Worker_save, mbind, M_bind, run_query.
  destruct (fault env _); cbn; [exact Hw |].
  destruct (id_of (entity !! "id")); cbn; now apply Q_users_only.
Qed.

Lemma seen_WorkerStats_save (entity : object) :
  stable seen (WorkerStats_save env EntityManager entity).
Proof.
  intros w Hw. unfold WorkerStats_save, mbind, M_bind, run_query.
  destruct (fault env _); cbn; [exact Hw |]. now apply Q_users_only.
Qed.

Lemma seen_upsert_worker (address : string) (entry : string * P2PoolWorker.t) :
  stable seen (Batched.upsert_worker X env address entry).
Proof.
  destruct entry as [workerName worker]. unfold Batched.upsert_worker.
  apply stable_bind; [| intros dbWorker].
  { unfold Worker_findOne.
    apply stable_bind; [apply stable_run_query | intros _].
    apply stable_bind; [apply stable_get_world | intros w; apply stable_ret]. }
  apply stable_bind; [apply stable_lift | intros workerValues].
  apply stable_bind; [apply seen_Worker_save | intros savedWorker].
  apply stable_bind; [apply seen_WorkerStats_save | intros _; apply stable_ret].
Qed.

Lemma seen_after_user (address : string) (user : P2PoolUser.t) :
  stable seen
    (userStats ← lift (Batched.userStats_of X address user);
     _ ← UserStats_save env EntityManager userStats;
     for_of (entries (P2PoolUser.workers user)) (Batched.upsert_worker X env address)).
Proof.
  apply stable_bind; [apply stable_lift | intros userStats].
  apply stable_bind; [apply seen_UserStats_save | intros _].
  apply stable_for_of. intros worker. apply seen_upsert_worker.
Qed.

End ManagerRows.

Section KeyedRows.

Context (X : externals) (env : environment).

Lemma keyed_users_only (s : store) us ws wss ps :
  keyed s -> keyed (mkStore (users s) us ws wss ps).
Proof. intros H. exact H. Qed.

Lemma keyed_save (s : store) (address : string) (entity : object) :
  keyed s ->
  string_of (entity !! "address") = Some address ->
  keyed (mkStore (<[address := entity ∪ default ∅ (users s !! address)]> (users s))
           (userStats s) (workers s) (workerStats s) (poolStats s)).
Proof.
  intros Hs Ha a row. cbn [users].
  destruct (decide (address = a)) as [-> | Hne].
  - rewrite lookup_insert_eq. intros [= <-]. apply lookup_union_Some_l.
    destruct (entity !! "address") as [[] |]; try discriminate Ha. now injection Ha as ->.
  - rewrite lookup_insert_ne by exact Hne. apply Hs.
Qed.

Lemma keyed_unit_of_work (entry : string * P2PoolUser.t) :
  stable (both keyed) (Batched.unit_of_work X env entry).
Proof.
  destruct entry as [address user]. unfold Batched.unit_of_work.
  apply stable_bind; [apply stable_User_findOne | intros dbUser].
  apply stable_bind; [| intros _].
  - apply stable_User_save. intros s a Hs Ha. now apply keyed_save.
  - apply stable_bind; [apply stable_lift | intros userStats].
    apply stable_bind; [| intros _].
    + apply stable_UserStats_save. intros s. apply keyed_users_only.
    + apply stable_for_of. intros worker.
      apply (stable_upsert_worker keyed). intros s us ws wss ps. apply keyed_users_only.
Qed.

Lemma keyed_settle_all (reaches_commit : string -> bool)
    (batch : list (string * P2PoolUser.t)) (w : world) :
  both keyed w -> both keyed (Batched.settle_all X env reaches_commit batch w).2.
Proof.
  revert w. induction batch as [| entry rest IH]; intros w Hw; cbn; [exact Hw |].
  pose proof (stable_transaction keyed (reaches_commit entry.1) _
                (keyed_unit_of_work entry) w Hw) as Hstep.
  unfold Batched.settle.
  destruct (transaction _ _ w) as [r w']. specialize (IH w' Hstep).
  destruct (Batched.settle_all X env reaches_commit rest w') as [rs w'']. exact IH.
Qed.

Lemma keyed_Promise_all (batch : list (string * P2PoolUser.t)) :
  stable (both keyed) (Batched.Promise_all X env batch).
Proof.
  intros w Hw. unfold Batched.Promise_all.
  pose proof (keyed_settle_all (fun _ => true) batch w Hw) as H1.
  pose proof (keyed_settle_all (survives env) batch w Hw) as H2.
  destruct (Batched.settle_all X env (fun _ => true) batch w) as [outcomes w'].
  destruct (Batched.first_rejection env batch outcomes); [exact H2 | exact H1].
Qed.

End KeyedRows.

Section Activated.

Context (X : externals) (env : environment).

Lemma active_row_save (a : string) (s : store) (address : string) (entity : object) :
  active_row a s ->
  entity !! "isActive" = Some (VBool true) ->
  active_row a
    (mkStore (<[address := entity ∪ default ∅ (users s !! address)]> (users s))
       (userStats s) (workers s) (workerStats s) (poolStats s)).
Proof.
  intros (row & Hrow & Hactive) Hentity. unfold active_row. cbn [users].
  destruct (decide (address = a)) as [-> | Hne].
  - rewrite lookup_insert_eq. eexists. split; [reflexivity |].
    now apply lookup_union_Some_l.
  - rewrite lookup_insert_ne by exact Hne. now exists row.
Qed.

Lemma active_settle_all (a : string) (reaches_commit : string -> bool)
    (batch : list (string * P2PoolUser.t)) (w : world) :
  both (active_row a) w ->
  both (active_row a) (Batched.settle_all X env reaches_commit batch w).2.
Proof.
  apply (stable_settle_all (active_row a)).
  - intros s us ws wss ps H. exact H.
  - intros s address entity. apply active_row_save.
Qed.

Lemma active_Promise_all (a : string) (batch : list (string * P2PoolUser.t)) :
  stable (both (active_row a)) (Batched.Promise_all X env batch).
Proof.
  apply (stable_Promise_all (active_row a)).
  - intros s us ws wss ps H. exact H.
  - intros s address entity. apply active_row_save.
Qed.

Lemma User_findOne_run (h : handle) (address : string) (w : world) :
  User_findOne env h address w
  = if fault env (Find TUser {[ "address" := VString address ]})
    then (Throw QueryError, w)
    else (Ok (users (view h w) !! address), w).
Proof.
  unfold User_findOne, run_query, mbind, M_bind.
  destruct (fault env _); reflexivity.
Qed.

(** The manager sees the address active once its unit of work is done. *)
Lemma unit_of_work_activates (a : string) (user : P2PoolUser.t) (w w' : world) :
  keyed (working w) ->
  Batched.unit_of_work X env (a, user) w = (Ok tt, w') ->
  active_row a (working w').
Proof.
  intros Hkeyed. unfold Batched.unit_of_work. unfold mbind at 1, M_bind at 1.
  rewrite User_findOne_run.
  destruct (fault env (Find TUser _)); [intros [=] |]. cbn [view].
  match goal with |- context [User_save env EntityManager ?e] => set (entity := e) end.
  assert (Hentity : entity !! "address" = Some (VString a) /\
                    entity !! "isActive" = Some (VBool true)).
  { unfold entity. destruct (users (working w) !! a) as [row |] eqn:Hrow.
    - split.
      + rewrite !lookup_insert_ne by discriminate. now apply Hkeyed.
      + rewrite lookup_insert_ne by discriminate. apply lookup_insert_eq.
    - split; reflexivity. }
  destruct Hentity as [Haddress Hactive].
  unfold mbind at 1, M_bind at 1.
  destruct (User_save env EntityManager entity w) as [[saved | e] w2] eqn:Hsave;
    [| intros [=]].
  assert (Hw2 : active_row a (working w2)).
  { revert Hsave. unfold User_save, mbind, M_bind, run_query.
    destruct (fault env _); cbn; [intros [=] |].
    rewrite Haddress. cbn. intros [= _ <-]. cbn.
    unfold active_row. cbn [users]. rewrite lookup_insert_eq.
    eexists. split; [reflexivity |]. now apply lookup_union_Some_l. }
  intros Hrest.
  pose proof (seen_after_user (active_row a) X env (fun _ _ _ _ _ H => H) a user w2 Hw2)
    as Hstable.
  rewrite Hrest in Hstable. exact Hstable.
Qed.

Lemma settle_activates (a : string) (user : P2PoolUser.t) (w w' : world) :
  both keyed w ->
  Batched.settle X env (fun _ => true) (a, user) w = (Ok tt, w') ->
  both (active_row a) w'.
Proof.
  intros [Hc _]. unfold Batched.settle, transaction. cbn [fst].
  destruct (Batched.unit_of_work X env (a, user) (set_working (committed w) w))
    as [[[] | e] w_end] eqn:Hunit; [| intros [=]].
  intros [= <-].
  apply unit_of_work_activates in Hunit; [| exact Hc].
  split; exact Hunit.
Qed.

Lemma first_rejection_cons (entry : string * P2PoolUser.t)
    (batch : list (string * P2PoolUser.t)) (r : result unit) (rs : list (result unit)) :
  Batched.first_rejection env (entry :: batch) (r :: rs) = None ->
  r = Ok tt /\ Batched.first_rejection env batch rs = None.
Proof.
  unfold Batched.first_rejection, Batched.rejections. cbn.
  destruct r as [[] | e]; [auto | discriminate].
Qed.

Lemma settle_all_activates (batch : list (string * P2PoolUser.t)) (w : world) :
  both keyed w ->
  Batched.first_rejection env batch
    (Batched.settle_all X env (fun _ => true) batch w).1 = None ->
  forall entry, entry ∈ batch ->
    both (active_row entry.1) (Batched.settle_all X env (fun _ => true) batch w).2.
Proof.
  revert w. induction batch as [| [a user] rest IH]; intros w Hw Hnone entry Hin;
    [inversion Hin |].
  pose proof (keyed_settle_all X env (fun _ => true) [(a, user)] w Hw) as Hkeyed.
  pose proof (active_settle_all entry.1 (fun _ => true) rest) as Hkeep.
  cbn in Hnone, Hkeyed |- *.
  destruct (Batched.settle X env (fun _ => true) (a, user) w) as [r w1] eqn:Hsettle.
  specialize (IH w1). specialize (Hkeep w1).
  destruct (Batched.settle_all X env (fun _ => true) rest w1) as [rs w2].
  cbn in Hnone, Hkeyed, IH, Hkeep |- *.
  apply first_rejection_cons in Hnone as [-> Hnone].
  apply elem_of_cons in Hin as [-> | Hin].
  - apply Hkeep. now apply (settle_activates a user w).
  - now apply IH.
Qed.

Lemma Promise_all_activates (batch : list (string * P2PoolUser.t)) (w w' : world) :
  both keyed w ->
  Batched.Promise_all X env batch w = (Ok tt, w') ->
  forall entry, entry ∈ batch -> both (active_row entry.1) w'.
Proof.
  intros Hw. unfold Batched.Promise_all.
  pose proof (settle_all_activates batch w Hw) as H.
  destruct (Batched.settle_all X env (fun _ => true) batch w) as [outcomes w1].
  cbn [fst snd] in H.
  destruct (Batched.first_rejection env batch outcomes); [intros [=] |].
  intros [= <-]. now apply H.
Qed.

Lemma batches_activate (groups : list (list (string * P2PoolUser.t))) (w w' : world) :
  both keyed w ->
  for_of groups (Batched.Promise_all X env) w = (Ok tt, w') ->
  forall entry, entry ∈ concat groups -> both (active_row entry.1) w'.
Proof.
  revert w. induction groups as [| batch groups IH]; intros w Hw Hrun entry Hin;
    [inversion Hin |].
  cbn [for_of] in Hrun. unfold mbind, M_bind in Hrun.
  destruct (Batched.Promise_all X env batch w) as [[[] | e] w1] eqn:Hbatch;
    [| discriminate Hrun].
  pose proof (keyed_Promise_all X env batch w Hw) as Hkeyed. rewrite Hbatch in Hkeyed.
  cbn [concat] in Hin. apply elem_of_app in Hin as [Hin | Hin].
  - pose proof (stable_for_of _ groups _ (active_Promise_all entry.1) w1
                  (Promise_all_activates batch w w1 Hw Hbatch entry Hin)) as Hkeep.
    now rewrite Hrun in Hkeep.
  - now apply (IH w1).
Qed.

End Activated.

(** X8: when the batched user script resolves, every address of the
    snapshot has a User row with [isActive = true], whatever rows the
    table held before (each found under the address it holds): the
    upsert of every member of every batch has been committed, and no
    later member undoes it. *)
Theorem resolved_batched_run_activates_every_user (X : externals) (env : environment)
    (s : store) (next_id : Z) (json : P2PoolJson.t) :
  keyed s ->
  file env = Parsed json ->
  (Batched.updateUsersFromJson X env (initial_world s next_id)).1 = Ok tt ->
  forall address user,
    (address, user) ∈ entries (P2PoolJson.users json) ->
    active_row address (committed (Batched.main X env (initial_world s next_id)).2).
Proof.
  intros Hs Hfile Hrun address user Hin.
  unfold Batched.main.
  destruct (Batched.updateUsersFromJson X env (initial_world s next_id))
    as [r w'] eqn:Hrun'. cbn [fst] in Hrun. subst r. cbn [snd].
  revert Hrun'. unfold Batched.updateUsersFromJson, read_and_parse. rewrite Hfile.
  erewrite run_bind by reflexivity. unfold getDb.
  destruct (connects env); [| intros [=]].
  erewrite run_bind by reflexivity. unfold try_finally.
  rewrite batch_loop_batches.
  destruct (for_of _ _ (initial_world s next_id)) as [[[] | e] w1] eqn:Hloop.
  - intros Hfin.
    assert (Hw1 : w' = w1).
    { destruct (destroy env w1) as [[[] | e] w2] eqn:Hd; [| discriminate Hfin].
      unfold destroy in Hd. destruct (destroys env); [| discriminate Hd].
      injection Hd as <-. now injection Hfin as <-. }
    subst w'.
    assert (Hkeyed : both keyed (initial_world s next_id)) by (split; exact Hs).
    pose proof (batches_activate X env _ _ _ Hkeyed Hloop (address, user)) as H.
    rewrite concat_batches, drop_0 in H. now apply H.
  - intros Hfin. destruct (destroy env w1) as [[[] | e'] w2]; discriminate Hfin.
Qed.

Lemma resolved_batched_run_activates_every_user_witness :
  active_row "user11"
    (committed (Batched.main Sample.externals_stub
                  (Sample.calm (Parsed Sample.eleven_users))
                  (initial_world empty_store 1)).2).
Proof.
  apply (resolved_batched_run_activates_every_user Sample.externals_stub
           (Sample.calm (Parsed Sample.eleven_users)) empty_store 1 Sample.eleven_users)
    with (user := Sample.bare_user).
  - intros address row H. vm_compute in H. discriminate H.
  - reflexivity.
  - vm_compute. reflexivity.
  - apply (list_elem_of_lookup_2 _ 10%nat). reflexivity.
Defined.

(** ** The Worker and WorkerStats tables *)


Section WorkerTables.

Context (X : externals) (env : environment).

Lemma workers_distinct_same (seq : Z) (s s' : store) :
  workers s' = workers s -> workers_distinct seq s -> workers_distinct seq s'.
Proof. unfold workers_distinct. now intros ->. Qed.

Lemma stats_linked_same (s s' : store) :
  workers s' = workers s -> workerStats s' = workerStats s ->
  stats_linked s -> stats_linked s'.
Proof. unfold stats_linked. now intros -> ->. Qed.

Lemma workers_distinct_later (seq seq' : Z) (s : store) :
  seq <= seq' -> workers_distinct seq s -> workers_distinct seq' s.
Proof.
  intros Hle (Hids & Hnd & Hkeys). split; [| now split].
  eapply Forall_impl; [exact Hids |]. intros row (id & Hid & Hlt). exists id. split; [easy | lia].
Qed.

(** Calls that leave the Worker rows, the WorkerStats rows and the
    sequence as they are. *)
Lemma consistent_frame (w w' : world) :
  worker_seq w' = worker_seq w ->
  workers (committed w') = workers (committed w) ->
  workerStats (committed w') = workerStats (committed w) ->
  workers (working w') = workers (working w) ->
  workerStats (working w') = workerStats (working w) ->
  tables_consistent w -> tables_consistent w'.
Proof.
  intros Hseq Hc Hcs Hw Hws [[H1 H2] [H3 H4]]. unfold tables_consistent. rewrite Hseq.
  split; split.
  - now apply (workers_distinct_same _ (committed w)).
  - now apply (stats_linked_same (committed w)).
  - now apply (workers_distinct_same _ (working w)).
  - now apply (stats_linked_same (working w)).
Qed.

Lemma consistent_User_findOne (h : handle) (address : string) :
  stable tables_consistent (User_findOne env h address).
Proof.
  intros w Hw. rewrite User_findOne_run. now destruct (fault env _).
Qed.

Lemma consistent_User_save (h : handle) (entity : object) :
  stable tables_consistent (User_save env h entity).
Proof.
  intros w Hw. unfold User_save, mbind, M_bind, run_query.
  destruct (fault env _); cbn; [exact Hw |].
  destruct (string_of (entity !! "address")); cbn; [| exact Hw].
  destruct h; (eapply consistent_frame; [.. | exact Hw]; reflexivity).
Qed.

Lemma consistent_UserStats_save (h : handle) (entity : object) :
  stable tables_consistent (UserStats_save env h entity).
Proof.
  intros w Hw. unfold UserStats_save, mbind, M_bind, run_query.
  destruct (fault env _); cbn; [exact Hw |].
  destruct h; (eapply consistent_frame; [.. | exact Hw]; reflexivity).
Qed.

(** The properties [workerValues] has not. *)
Lemma workerValues_keys (worker : P2PoolWorker.t) (workerValues : object) :
  Batched.workerValues_of X worker = Ok workerValues ->
  workerValues !! "id" = None /\ workerValues !! "userAddress" = None /\
  workerValues !! "name" = None /\ workerValues !! "workerId" = None.
Proof.
  unfold Batched.workerValues_of.
  destruct (Batched.converted_columns X _) as [columns |] eqn:E; cbn; [| intros [=]].
  apply converted_columns_keys in E as (h1m & h5m & h1hr & h1d & h7d & ->).
  intros [= <-]. repeat split.
Qed.

Lemma NoDup_fmap_eq {A B} (f : A -> B) (l : list A) (x y : A) :
  NoDup (f <$> l) -> x ∈ l -> y ∈ l -> f x = f y -> x = y.
Proof.
  induction l as [| a l IH]; intros Hnd Hx Hy Hf; [inversion Hx |].
  cbn in Hnd. apply NoDup_cons in Hnd as [Ha Hnd].
  apply elem_of_cons in Hx as [-> | Hx]; apply elem_of_cons in Hy as [-> | Hy].
  - reflexivity.
  - exfalso. apply Ha. rewrite Hf. now apply list_elem_of_fmap_2.
  - exfalso. apply Ha. rewrite <- Hf. now apply list_elem_of_fmap_2.
  - now apply IH.
Qed.

Lemma find_is_worker_Some (address name : string) (rows : list object) (row : object) :
  List.find (is_worker address name) rows = Some row ->
  row ∈ rows /\ worker_key row = (Some address, Some name).
Proof.
  intros H. apply find_some in H as [Hin Hkey]. split; [now apply list_elem_of_In |].
  unfold is_worker in Hkey. apply bool_decide_eq_true in Hkey as [H1 H2].
  unfold worker_key. now rewrite H1, H2.
Qed.

Lemma find_is_worker_None (address name : string) (rows : list object) :
  List.find (is_worker address name) rows = None ->
  (Some address, Some name) ∉ worker_key <$> rows.
Proof.
  intros H Hin. apply list_elem_of_fmap in Hin as (row & Hkey & Hrow).
  apply list_elem_of_In in Hrow.
  pose proof (find_none _ _ H row Hrow) as Hno.
  unfold is_worker in Hno. apply bool_decide_eq_false in Hno. apply Hno.
  unfold worker_key in Hkey. injection Hkey as H1 H2. now split.
Qed.

Lemma Worker_findOne_run (h : handle) (address name : string) (w : world) :
  Worker_findOne env h address name w
  = if fault env (Find TWorker
         (<[ "userAddress" := VString address ]> {[ "name" := VString name ]}))
    then (Throw QueryError, w)
    else (Ok (List.find (is_worker address name) (workers (view h w))), w).
Proof.
  unfold Worker_findOne, run_query, mbind, M_bind.
  destruct (fault env _); reflexivity.
Qed.

Lemma Worker_save_run (h : handle) (entity : object) (w : world) :
  Worker_save env h entity w
  = if fault env (Save TWorker entity) then (Throw QueryError, w)
    else
      let s := view h w in
      match id_of (entity !! "id") with
      | Some id =>
          (Ok entity,
           set_view h
             (mkStore (users s) (userStats s)
                ((fun row => if has_id id row then entity ∪ row else row) <$> workers s)
                (workerStats s) (poolStats s)) w)
      | None =>
          (Ok (<[ "id" := VId (worker_seq w) ]> entity),
           set_view h
             (mkStore (users s) (userStats s)
                (workers s ++ [<[ "id" := VId (worker_seq w) ]> entity])
                (workerStats s) (poolStats s))
             (set_worker_seq (worker_seq w + 1) w))
      end.
Proof.
  unfold Worker_save, run_query, mbind, M_bind.
  destruct (fault env _); [reflexivity |]. cbn.
  destruct (id_of (entity !! "id")); destruct h; reflexivity.
Qed.

Lemma WorkerStats_save_run (h : handle) (entity : object) (w : world) :
  WorkerStats_save env h entity w
  = if fault env (Save TWorkerStats entity) then (Throw QueryError, w)
    else
      let s := view h w in
      (Ok entity,
       set_view h
         (mkStore (users s) (userStats s) (workers s)
            (workerStats s ++ [entity]) (poolStats s)) w).
Proof.
  unfold WorkerStats_save, run_query, mbind, M_bind.
  destruct (fault env _); reflexivity.
Qed.

(** A row keeps its id through the update of the rows of id [id]. *)
Lemma updated_id (id : Z) (entity row : object) :
  entity !! "id" = Some (VId id) ->
  (if has_id id row then entity ∪ row else row) !! "id" = row !! "id".
Proof.
  intros He. destruct (has_id id row) eqn:Hid; [| reflexivity].
  unfold has_id in Hid. apply bool_decide_eq_true in Hid.
  rewrite (lookup_union_Some_l _ _ _ _ He).
  destruct (row !! "id") as [[] |]; try discriminate Hid. now injection Hid as ->.
Qed.

Lemma stats_linked_rows (s : store) (rows : list object) (us ps : list object)
    (um : gmap string object) :
  (forall worker, worker ∈ workers s ->
     exists worker', worker' ∈ rows /\ worker' !! "id" = worker !! "id") ->
  stats_linked s ->
  stats_linked (mkStore um us rows (workerStats s) ps).
Proof.
  intros Hrows Hs. unfold stats_linked in *. cbn [workers workerStats].
  eapply Forall_impl; [exact Hs |].
  intros stats (id & worker & Hstats & Hin & Hid).
  destruct (Hrows worker Hin) as (worker' & Hin' & Hid').
  exists id, worker'. repeat split; [exact Hstats | exact Hin' | congruence].
Qed.

Lemma stats_linked_snoc (s : store) (stats worker : object) (id : Z)
    (us ps : list object) (um : gmap string object) :
  stats !! "workerId" = Some (VId id) ->
  worker ∈ workers s -> worker !! "id" = Some (VId id) ->
  stats_linked s ->
  stats_linked (mkStore um us (workers s) (workerStats s ++ [stats]) ps).
Proof.
  intros Hstats Hin Hid Hs. unfold stats_linked in *. cbn [workers workerStats].
  apply Forall_app. split; [exact Hs |]. constructor; [| constructor].
  now exists id, worker.
Qed.

Lemma worker_id_Some (row : object) (id : Z) :
  worker_id row = Some id <-> row !! "id" = Some (VId id).
Proof.
  unfold worker_id, id_of. split.
  - destruct (row !! "id") as [[] |]; try discriminate. now intros [= ->].
  - now intros ->.
Qed.

Lemma lookup_over (values row : object) (k : string) :
  values !! k = None -> (values ∪ row ∪ row) !! k = row !! k.
Proof.
  intros Hk. rewrite lookup_union, (lookup_union_r values) by exact Hk.
  now destruct (row !! k).
Qed.

(** Updating the row [row] of id [id] with [values ∪ row]. *)
Lemma workers_distinct_update (seq id : Z) (values row : object) (s : store) :
  workers_distinct seq s ->
  row ∈ workers s -> worker_id row = Some id ->
  values !! "id" = None -> values !! "userAddress" = None -> values !! "name" = None ->
  workers_distinct seq
    (mkStore (users s) (userStats s)
       ((fun r => if has_id id r then values ∪ row ∪ r else r) <$> workers s)
       (workerStats s) (poolStats s)).
Proof.
  intros (Hids & Hnd & Hkeys) Hin Hid Hvid Hvua Hvname.
  assert (Hentity : (values ∪ row) !! "id" = Some (VId id)).
  { rewrite lookup_union_r by exact Hvid. now apply worker_id_Some. }
  assert (Hsame_id : forall r,
            worker_id (if has_id id r then values ∪ row ∪ r else r) = worker_id r).
  { intros r. unfold worker_id. now rewrite (updated_id id (values ∪ row) r Hentity). }
  assert (Hsame_key : forall r, r ∈ workers s ->
            worker_key (if has_id id r then values ∪ row ∪ r else r) = worker_key r).
  { intros r Hr. destruct (has_id id r) eqn:Hr_id; [| reflexivity].
    unfold has_id in Hr_id. apply bool_decide_eq_true in Hr_id.
    assert (r = row) as ->.
    { apply (NoDup_fmap_eq worker_id (workers s)); try assumption.
      unfold worker_id at 1. now rewrite Hr_id, Hid. }
    unfold worker_key. now rewrite !lookup_over. }
  unfold workers_distinct. cbn [workers]. split; [| split].
  - apply Forall_fmap. eapply Forall_impl; [exact Hids |].
    intros r (j & Hj & Hlt). exists j. cbn. now rewrite Hsame_id.
  - rewrite <- list_fmap_compose.
    erewrite (list_fmap_ext _ worker_id); [exact Hnd |].
    intros k r _. apply Hsame_id.
  - rewrite <- list_fmap_compose.
    erewrite (Forall_fmap_ext_1 _ worker_key); [exact Hkeys |].
    apply Forall_forall. intros r Hr. now apply Hsame_key.
Qed.

Lemma stats_linked_update (id : Z) (entity : object) (s : store) :
  entity !! "id" = Some (VId id) ->
  stats_linked s ->
  stats_linked
    (mkStore (users s) (userStats s)
       ((fun r => if has_id id r then entity ∪ r else r) <$> workers s)
       (workerStats s) (poolStats s)).
Proof.
  intros Hentity Hs. apply (stats_linked_rows s); [| exact Hs]. intros worker Hin.
  exists (if has_id id worker then entity ∪ worker else worker). split.
  - now apply (list_elem_of_fmap_2 (fun r => if has_id id r then entity ∪ r else r)).
  - now apply updated_id.
Qed.

(** Inserting [entity], which has no id, under the next id. *)
Lemma workers_distinct_insert (seq : Z) (entity : object) (address name : string)
    (s : store) :
  workers_distinct seq s ->
  (Some address, Some name) ∉ worker_key <$> workers s ->
  entity !! "userAddress" = Some (VString address) ->
  entity !! "name" = Some (VString name) ->
  workers_distinct (seq + 1)
    (mkStore (users s) (userStats s) (workers s ++ [<[ "id" := VId seq ]> entity])
       (workerStats s) (poolStats s)).
Proof.
  intros (Hids & Hnd & Hkeys) Hnew Hua Hname.
  unfold workers_distinct. cbn [workers]. split; [| split].
  - apply Forall_app. split.
    + eapply Forall_impl; [exact Hids |].
      intros r (j & Hj & Hlt). exists j. split; [exact Hj | lia].
    + constructor; [| constructor]. exists seq. split; [| lia].
      apply worker_id_Some, lookup_insert_eq.
  - rewrite fmap_app. apply NoDup_app. split; [exact Hnd | split].
    + intros i Hi Hi'. cbn in Hi'. apply list_elem_of_singleton in Hi'. subst i.
      apply list_elem_of_fmap in Hi as (r & Hr & Hin).
      rewrite Forall_forall in Hids. destruct (Hids r Hin) as (j & Hj & Hlt).
      unfold worker_id at 1 in Hr. rewrite lookup_insert_eq in Hr. cbn in Hr.
      rewrite Hj in Hr. injection Hr as ->. lia.
    + cbn. apply NoDup_singleton.
  - rewrite fmap_app. apply NoDup_app. split; [exact Hkeys | split].
    + intros k Hk Hk'. cbn in Hk'. apply list_elem_of_singleton in Hk'. subst k.
      apply Hnew. revert Hk. unfold worker_key at 1.
      rewrite !lookup_insert_ne by discriminate. now rewrite Hua, Hname.
    + cbn. apply NoDup_singleton.
Qed.

Lemma stats_linked_insert (saved : object) (s : store) :
  stats_linked s ->
  stats_linked
    (mkStore (users s) (userStats s) (workers s ++ [saved]) (workerStats s) (poolStats s)).
Proof.
  intros Hs. apply (stats_linked_rows s); [| exact Hs]. intros worker Hin.
  exists worker. split; [| reflexivity]. apply elem_of_app. now left.
Qed.

Lemma consistent_upsert_worker (address : string) (entry : string * P2PoolWorker.t) :
  stable tables_consistent (Batched.upsert_worker X env address entry).
Proof.
  destruct entry as [name worker]. intros w Hw.
  unfold Batched.upsert_worker. unfold mbind at 1, M_bind at 1.
  rewrite Worker_findOne_run. destruct (fault env _); [exact Hw |]. cbn [view].
  unfold mbind at 1, M_bind at 1. unfold lift at 1.
  destruct (Batched.workerValues_of X worker) as [values |] eqn:Hvalues; [| exact Hw].
  destruct (workerValues_keys worker values Hvalues) as (Hvid & Hvua & Hvname & Hvwid).
  unfold mbind at 1, M_bind at 1. rewrite Worker_save_run.
  destruct (fault env (Save TWorker _)); [exact Hw |]. cbn [view].
  destruct Hw as [[Hc Hcl] [Hd Hl]].
  destruct (List.find (is_worker address name) (workers (working w))) as [row |] eqn:Hfind.
  - apply find_is_worker_Some in Hfind as [Hin Hkey].
    destruct Hd as (Hids & Hnd & Hkeys).
    pose proof Hids as Hids'. rewrite Forall_forall in Hids'.
    destruct (Hids' row Hin) as (id & Hid & Hlt).
    assert (Hentity : (values ∪ row) !! "id" = Some (VId id)).
    { rewrite lookup_union_r by exact Hvid. now apply worker_id_Some. }
    rewrite Hentity. cbn [id_of]. cbv zeta.
    set (s1 := mkStore _ _ _ _ _).
    assert (Hs1 : workers_distinct (worker_seq w) s1)
      by now apply workers_distinct_update.
    assert (Hl1 : stats_linked s1) by now apply stats_linked_update.
    unfold mbind at 1, M_bind at 1. rewrite WorkerStats_save_run. rewrite Hentity.
    destruct (fault env _); cbn [snd]; [now split |].
    cbn [view set_view working set_working mbind M_bind mret M_ret snd].
    split; [now split |]. split; [exact Hs1 |].
    apply (stats_linked_snoc s1 _ (values ∪ row ∪ row) id).
    + rewrite lookup_union_r by exact Hvwid. apply lookup_singleton_eq.
    + unfold s1. cbn [workers].
      apply list_elem_of_fmap. exists row. split; [| exact Hin].
      unfold has_id. fold (worker_id row). rewrite Hid.
      now rewrite bool_decide_eq_true_2.
    + rewrite lookup_over by exact Hvid. now apply worker_id_Some.
    + exact Hl1.
  - apply find_is_worker_None in Hfind.
    set (entity := values ∪ list_to_map _).
    assert (Hno_id : entity !! "id" = None)
      by (unfold entity; rewrite lookup_union_r by exact Hvid; reflexivity).
    assert (Hua : entity !! "userAddress" = Some (VString address))
      by (unfold entity; rewrite lookup_union_r by exact Hvua; reflexivity).
    assert (Hname : entity !! "name" = Some (VString name))
      by (unfold entity; rewrite lookup_union_r by exact Hvname; reflexivity).
    rewrite Hno_id. cbn [id_of]. cbv zeta.
    set (saved := <[ "id" := VId (worker_seq w) ]> entity).
    set (s1 := mkStore _ _ _ _ _).
    assert (Hs1 : workers_distinct (worker_seq w + 1) s1)
      by now apply (workers_distinct_insert _ _ address name).
    assert (Hl1 : stats_linked s1) by now apply stats_linked_insert.
    assert (Hc1 : workers_distinct (worker_seq w + 1) (committed w))
      by (apply (workers_distinct_later (worker_seq w)); [lia | exact Hc]).
    unfold mbind at 1, M_bind at 1. rewrite WorkerStats_save_run.
    assert (Hsaved : saved !! "id" = Some (VId (worker_seq w))) by apply lookup_insert_eq.
    rewrite Hsaved.
    destruct (fault env _); cbn [snd]; [now split |].
    cbn [view set_view working set_working mbind M_bind mret M_ret snd].
    split; [now split |]. split; [exact Hs1 |].
    apply (stats_linked_snoc s1 _ saved (worker_seq w)).
    + rewrite lookup_union_r by exact Hvwid. apply lookup_singleton_eq.
    + unfold s1. cbn [workers]. apply elem_of_app. right. constructor.
    + exact Hsaved.
    + exact Hl1.
Qed.

Lemma consistent_unit_of_work (entry : string * P2PoolUser.t) :
  stable tables_consistent (Batched.unit_of_work X env entry).
Proof.
  destruct entry as [address user]. unfold Batched.unit_of_work.
  apply stable_bind; [apply consistent_User_findOne | intros dbUser].
  apply stable_bind; [apply consistent_User_save | intros _].
  apply stable_bind; [apply stable_lift | intros userStats].
  apply stable_bind; [apply consistent_UserStats_save | intros _].
  apply stable_for_of. intros worker. apply consistent_upsert_worker.
Qed.

Lemma consistent_transaction {A} (reaches_commit : bool) (body : M A) :
  stable tables_consistent body ->
  stable tables_consistent (transaction reaches_commit body).
Proof.
  intros Hbody w [Hc _]. unfold transaction.
  assert (Hstart : tables_consistent (set_working (committed w) w)) by (split; exact Hc).
  specialize (Hbody _ Hstart).
  destruct (body (set_working (committed w) w)) as [[a | e] w']; cbn in *;
    [destruct reaches_commit |]; destruct Hbody as [Hc' Hw']; split; assumption.
Qed.

Lemma consistent_settle_all (reaches_commit : string -> bool)
    (batch : list (string * P2PoolUser.t)) (w : world) :
  tables_consistent w ->
  tables_consistent (Batched.settle_all X env reaches_commit batch w).2.
Proof.
  revert w. induction batch as [| entry rest IH]; intros w Hw; cbn; [exact Hw |].
  pose proof (consistent_transaction (reaches_commit entry.1) _
                (consistent_unit_of_work entry) w Hw) as Hstep.
  unfold Batched.settle.
  destruct (transaction _ _ w) as [r w']. specialize (IH w' Hstep).
  destruct (Batched.settle_all X env reaches_commit rest w') as [rs w'']. exact IH.
Qed.

Lemma consistent_Batched_run :
  stable tables_consistent (Batched.updateUsersFromJson X env).
Proof.
  unfold Batched.updateUsersFromJson.
  apply stable_bind; [apply stable_read_and_parse | intros json].
  apply stable_bind; [apply stable_getDb; intros ? ? H; exact H | intros _].
  apply stable_try_finally; [| apply stable_destroy].
  rewrite batch_loop_batches. apply stable_for_of. intros batch.
  intros w Hw. unfold Batched.Promise_all.
  pose proof (consistent_settle_all (fun _ => true) batch w Hw) as H1.
  pose proof (consistent_settle_all (survives env) batch w Hw) as H2.
  destruct (Batched.settle_all X env (fun _ => true) batch w) as [outcomes w'].
  destruct (Batched.first_rejection env batch outcomes); [exact H2 | exact H1].
Qed.

End WorkerTables.

(** X9: the batched user script keeps the Worker table free of duplicates
    and the WorkerStats rows linked. When, before the run, every Worker
    row has an id below the sequence, no id and no (userAddress, name)
    occurs twice, and every WorkerStats row carries the id of a Worker
    row, the same holds after the run, however it ends: a worker that is
    found is updated in place under its id, one that is not is inserted
    under the next id, and each WorkerStats row takes the id of the row
    just saved. *)
Theorem batched_run_keeps_worker_tables (X : externals) (env : environment)
    (s : store) (next_id : Z) :
  workers_distinct next_id s ->
  stats_linked s ->
  let after := (Batched.main X env (initial_world s next_id)).2 in
  workers_distinct (worker_seq after) (committed after) /\
  stats_linked (committed after).
Proof.
  intros Hd Hl after.
  assert (Hw : tables_consistent (initial_world s next_id)) by (split; split; assumption).
  pose proof (consistent_Batched_run X env _ Hw) as H.
  unfold after, Batched.main.
  destruct (Batched.updateUsersFromJson X env (initial_world s next_id))
    as [[[] | e] w']; apply H.
Qed.

Lemma batched_run_keeps_worker_tables_witness :
  let after := (Batched.main Sample.externals_stub (Sample.calm (Parsed Sample.one_worker))
                  (initial_world empty_store 1)).2 in
  workers_distinct (worker_seq after) (committed after) /\
  stats_linked (committed after).
Proof.
  apply (batched_run_keeps_worker_tables Sample.externals_stub
           (Sample.calm (Parsed Sample.one_worker)) empty_store 1).
  - repeat constructor.
  - constructor.
Defined.

(** ** The sequential user script, row by row *)


Section Sequential.

Context (env : environment).

Lemma scaled_columns_keys (c : nullable ComputedHashRate.t) (columns : object) :
  FromLogs.scaled_columns c = Ok columns ->
  exists h1m h5m h1hr h1d h7d,
    columns = list_to_map
      [("hashrate1m", VBigInt h1m); ("hashrate5m", VBigInt h5m);
       ("hashrate1hr", VBigInt h1hr); ("hashrate1d", VBigInt h1d);
       ("hashrate7d", VBigInt h7d)].
Proof.
  unfold FromLogs.scaled_columns.
  destruct (scaleHashrate (opt_member c ComputedHashRate.hashrate_1m)) as [h1m |];
    cbn; [| intros [=]].
  destruct (scaleHashrate (opt_member c ComputedHashRate.hashrate_5m)) as [h5m |];
    cbn; [| intros [=]].
  destruct (scaleHashrate (opt_member c ComputedHashRate.hashrate_1hr)) as [h1hr |];
    cbn; [| intros [=]].
  destruct (scaleHashrate (opt_member c ComputedHashRate.hashrate_1d)) as [h1d |];
    cbn; [| intros [=]].
  destruct (scaleHashrate (opt_member c ComputedHashRate.hashrate_7d)) as [h7d |];
    cbn; [| intros [=]].
  intros [= <-]. now exists h1m, h5m, h1hr, h1d, h7d.
Qed.

(** The body of the workers' loop, call by call. *)
Lemma update_worker_run (json : P2PoolJson.t) (address workerName : string)
    (workerData : P2PoolWorker.t) (w : world) :
  FromLogs.update_worker env json address (workerName, workerData) w
  = match FromLogs.scaled_columns (P2PoolWorker.computed_hash_rate workerData) with
    | Throw e => (Throw e, w)
    | Ok columns =>
        let workerEntity : object :=
          columns ∪ list_to_map [("userAddress", VString address);
                                 ("name", VString workerName)] in
        if fault env (Save TWorker workerEntity) then (Throw QueryError, w)
        else
          let s := committed w in
          let saved := <[ "id" := VId (worker_seq w) ]> workerEntity in
          let s1 := mkStore (users s) (userStats s) (workers s ++ [saved])
                      (workerStats s) (poolStats s) in
          let w1 := set_committed s1 (set_worker_seq (worker_seq w + 1) w) in
          let workerStatsEntity : object :=
            <[ "workerId" := VId (worker_seq w) ]>
              (<[ "timestamp" := snapshot_date env (P2PoolJson.lastupdate json) ]>
                 columns) in
          if fault env (Save TWorkerStats workerStatsEntity) then (Throw QueryError, w1)
          else
            (Ok tt,
             set_committed
               (mkStore (users s1) (userStats s1) (workers s1)
                  (workerStats s1 ++ [workerStatsEntity]) (poolStats s1)) w1)
    end.
Proof.
  unfold FromLogs.update_worker. unfold mbind at 1, M_bind at 1, lift at 1.
  destruct (FromLogs.scaled_columns _) as [columns |] eqn:Hcolumns; [| reflexivity].
  apply scaled_columns_keys in Hcolumns as (h1m & h5m & h1hr & h1d & h7d & Hcolumns).
  cbv zeta. unfold mbind at 1, M_bind at 1. rewrite Worker_save_run.
  destruct (fault env (Save TWorker _)); [reflexivity |].
  assert (Hno_id : (columns ∪ list_to_map [("userAddress", VString address);
                                           ("name", VString workerName)] : object)
                   !! "id" = None) by (rewrite Hcolumns; reflexivity).
  cbv zeta. rewrite Hno_id. cbn [id_of view set_view].
  unfold mbind at 1, M_bind at 1, lift at 1.
  rewrite lookup_insert_eq.
  unfold mbind at 1, M_bind at 1. rewrite WorkerStats_save_run.
  destruct (fault env (Save TWorkerStats _)); reflexivity.
Qed.

Lemma grown_refl (w : world) : grown 0 0 0 w w.
Proof. unfold grown. repeat split; lia. Qed.

Lemma grown_trans (a b c a' b' c' : nat) (w1 w2 w3 : world) :
  grown a b c w1 w2 -> grown a' b' c' w2 w3 ->
  grown (a + a') (b + b') (c + c') w1 w3.
Proof.
  intros (H1 & H2 & H3 & H4) (H1' & H2' & H3' & H4'). unfold grown.
  repeat split; try lia. congruence.
Qed.

Lemma update_worker_grows (json : P2PoolJson.t) (address : string)
    (worker : string * P2PoolWorker.t) (w w' : world) :
  FromLogs.update_worker env json address worker w = (Ok tt, w') ->
  grown 0 1 1 w w'.
Proof.
  destruct worker as [workerName workerData]. rewrite update_worker_run.
  destruct (FromLogs.scaled_columns _) as [columns |]; [| intros [=]]. cbv zeta.
  destruct (fault env (Save TWorker _)); [intros [=] |].
  destruct (fault env (Save TWorkerStats _)); [intros [=] |].
  intros [= <-]. unfold grown. cbn. rewrite !length_app. cbn. repeat split; lia.
Qed.

Lemma update_workers_grow (json : P2PoolJson.t) (address : string)
    (l : list (string * P2PoolWorker.t)) (w w' : world) :
  for_of l (FromLogs.update_worker env json address) w = (Ok tt, w') ->
  grown 0 (length l) (length l) w w'.
Proof.
  revert w. induction l as [| worker l IH]; intros w; cbn [for_of].
  - intros [= <-]. apply grown_refl.
  - unfold mbind, M_bind.
    destruct (FromLogs.update_worker env json address worker w) as [[[] | e] w1] eqn:H1;
      [| intros [=]].
    intros Hrest. apply update_worker_grows in H1. apply IH in Hrest.
    apply (grown_trans 0 1 1 0 (length l) (length l) w w1 w' H1 Hrest).
Qed.

Lemma update_user_grows (json : P2PoolJson.t) (entry : string * P2PoolUser.t)
    (w w' : world) :
  FromLogs.update_user env json entry w = (Ok tt, w') ->
  let n := length (entries (P2PoolUser.workers entry.2)) in
  grown 1 n n w w'.
Proof.
  destruct entry as [address user]. cbn [snd]. unfold FromLogs.update_user.
  unfold mbind at 1, M_bind at 1.
  destruct (User_save env DataSource _ w) as [[saved | e] w1] eqn:Hsave; [| intros [=]].
  assert (H1 : grown 0 0 0 w w1).
  { revert Hsave. unfold User_save, mbind, M_bind, run_query.
    destruct (fault env _); cbn; [intros [=] |].
    rewrite lookup_singleton_eq. cbn. intros [= _ <-]. unfold grown. cbn.
    repeat split; lia. }
  unfold mbind at 1, M_bind at 1, lift at 1.
  destruct (FromLogs.scaled_columns _) as [columns |]; [| intros [=]].
  unfold mbind at 1, M_bind at 1.
  destruct (UserStats_save env DataSource _ w1) as [[saved' | e] w2] eqn:Hstats;
    [| intros [=]].
  assert (H2 : grown 1 0 0 w1 w2).
  { revert Hstats. unfold UserStats_save, mbind, M_bind, run_query.
    destruct (fault env _); cbn; [intros [=] |].
    intros [= _ <-]. unfold grown. cbn. rewrite length_app. cbn. repeat split; lia. }
  intros Hrest. apply update_workers_grow in Hrest.
  pose proof (grown_trans _ _ _ _ _ _ _ _ _ (grown_trans _ _ _ _ _ _ _ _ _ H1 H2) Hrest)
    as H.
  exact H.
Qed.

Lemma update_users_grow (json : P2PoolJson.t) (l : list (string * P2PoolUser.t))
    (w w' : world) :
  for_of l (FromLogs.update_user env json) w = (Ok tt, w') ->
  grown (length l) (length (all_workers l)) (length (all_workers l)) w w'.
Proof.
  revert w. induction l as [| entry l IH]; intros w; cbn [for_of].
  - intros [= <-]. apply grown_refl.
  - unfold mbind, M_bind.
    destruct (FromLogs.update_user env json entry w) as [[[] | e] w1] eqn:H1;
      [| intros [=]].
    intros Hrest. apply update_user_grows in H1. apply IH in Hrest.
    pose proof (grown_trans _ _ _ _ _ _ _ _ _ H1 Hrest) as H.
    unfold all_workers. cbn [mbind list_bind]. rewrite length_app. exact H.
Qed.

End Sequential.

(** X10: a run of the sequential user script that prints nothing has
    written everything: it ends with status 0, one UserStats row was added
    for each user of the snapshot, and one Worker row and one WorkerStats
    row for each worker of each user. *)
Theorem quiet_sequential_run_writes_every_row (env : environment) (s : store)
    (next_id : Z) (json : P2PoolJson.t) :
  file env = Parsed json ->
  let run := FromLogs.main env (initial_world s next_id) in
  stderr run.2 = [] ->
  let usersArray := entries (P2PoolJson.users json) in
  let after := committed run.2 in
  run.1 = 0 /\
  length (userStats after) = (length (userStats s) + length usersArray)%nat /\
  length (workers after) = (length (workers s) + length (all_workers usersArray))%nat /\
  length (workerStats after)
  = (length (workerStats s) + length (all_workers usersArray))%nat.
Proof.
  intros Hfile run. unfold run, FromLogs.main, FromLogs.updateUsersFromJson,
    try_finally, try_catch, read_and_parse.
  rewrite Hfile. erewrite run_bind by reflexivity.
  unfold getDb. destruct (connects env); [| intros [=]].
  erewrite run_bind by reflexivity. erewrite run_bind by reflexivity.
  pose proof (stable_for_of (fun w => db w = true) (entries (P2PoolJson.users json))
                (FromLogs.update_user env json)
                (blind_FromLogs_user (fun w => db w = true) env (fun _ _ H => H)
                   (fun _ _ H => H) (fun _ _ H => H) json)
                (set_db true (initial_world s next_id)) eq_refl) as Hdb.
  destruct (for_of _ _ (set_db true (initial_world s next_id))) as [[[] | e] w1] eqn:Hloop;
    cbn [snd] in Hdb.
  - rewrite (finally_destroys env w1 Hdb).
    apply update_users_grow in Hloop. destruct Hloop as (H1 & H2 & H3 & H4).
    destruct (destroys env); cbn.
    + intros _. repeat split; assumption.
    + intros H. now apply app_eq_nil in H as [_ [=]].
  - unfold console_error, modify.
    rewrite (finally_destroys env (add_stderr e w1) Hdb).
    destruct (destroys env); cbn.
    + intros H. now apply app_eq_nil in H as [_ [=]].
    + intros H. now apply app_eq_nil in H as [_ [=]].
Qed.

Lemma quiet_sequential_run_writes_every_row_witness :
  let after := committed (FromLogs.main (Sample.calm (Parsed Sample.one_worker))
                            (initial_world empty_store 1)).2 in
  length (userStats after) = 1%nat /\ length (workers after) = 1%nat /\
  length (workerStats after) = 1%nat.
Proof.
  apply (quiet_sequential_run_writes_every_row (Sample.calm (Parsed Sample.one_worker))
           empty_store 1 Sample.one_worker).
  - reflexivity.
  - vm_compute. reflexivity.
Defined.

Section Inserted.

Context (env : environment) (before : store) (next_id : Z).

Local Abbreviation inserted :=
  (fun w : world => workers_appended before next_id w /\ stats_linked (committed w)).

Lemma inserted_frame (w w' : world) :
  worker_seq w' = worker_seq w ->
  workers (committed w') = workers (committed w) ->
  workerStats (committed w') = workerStats (committed w) ->
  inserted w -> inserted w'.
Proof.
  intros Hseq Hw Hs [(appended & Happ & Hids & Hnext) Hl]. split.
  - exists appended. now rewrite Hw, Hseq.
  - now apply (stats_linked_same (committed w)).
Qed.

Lemma inserted_update_worker (json : P2PoolJson.t) (address : string)
    (worker : string * P2PoolWorker.t) :
  stable inserted (FromLogs.update_worker env json address worker).
Proof.
  destruct worker as [workerName workerData]. intros w Hw. rewrite update_worker_run.
  destruct (FromLogs.scaled_columns _) as [columns |]; [| exact Hw]. cbv zeta.
  destruct (fault env (Save TWorker _)); [exact Hw |].
  set (saved := <[ "id" := VId (worker_seq w) ]> _).
  set (s1 := mkStore _ _ (workers (committed w) ++ [saved]) _ _).
  set (w1 := set_committed s1 _).
  destruct Hw as [(appended & Happ & Hids & Hnext) Hl].
  assert (Hsaved : saved !! "id" = Some (VId (worker_seq w))) by apply lookup_insert_eq.
  assert (Hw1 : inserted w1).
  { split.
    - exists (appended ++ [saved]). cbn. split; [| split].
      + now rewrite Happ, app_assoc.
      + rewrite fmap_app, Hids, length_app. cbn [length fmap list_fmap].
        rewrite Nat2Z.inj_add. change (Z.of_nat 1) with 1.
        rewrite seqZ_app by lia. rewrite fmap_app. f_equal.
        rewrite seqZ_cons, seqZ_nil by lia. cbn. unfold worker_id. rewrite Hsaved. cbn.
        do 2 f_equal. lia.
      + rewrite Hnext, length_app. cbn. lia.
    - now apply (stats_linked_insert saved (committed w)). }
  destruct (fault env (Save TWorkerStats _)); [exact Hw1 |]. cbn [snd].
  destruct Hw1 as [Happ1 Hl1]. split.
  - destruct Happ1 as (appended1 & H1 & H2 & H3). now exists appended1.
  - apply (stats_linked_snoc s1 _ saved (worker_seq w)).
    + apply lookup_insert_eq.
    + unfold s1. cbn [workers]. apply elem_of_app. right. constructor.
    + exact Hsaved.
    + exact Hl1.
Qed.

Lemma inserted_run : stable inserted (FromLogs.updateUsersFromJson env).
Proof.
  unfold FromLogs.updateUsersFromJson.
  apply stable_try_finally.
  - apply stable_try_catch;
      [| intros e w Hw; eapply inserted_frame; [.. | exact Hw]; reflexivity].
    apply stable_bind; [apply stable_read_and_parse | intros json].
    apply stable_bind; [apply stable_getDb; intros ? ? H; exact H | intros _].
    apply stable_bind;
      [intros w Hw; eapply inserted_frame; [.. | exact Hw]; reflexivity | intros _].
    apply stable_for_of. intros [address user]. unfold FromLogs.update_user.
    apply stable_bind; [| intros _].
    { intros w Hw. unfold User_save, mbind, M_bind, run_query.
      destruct (fault env _); cbn; [exact Hw |].
      rewrite lookup_singleton_eq. cbn.
      eapply inserted_frame; [.. | exact Hw]; reflexivity. }
    apply stable_bind; [apply stable_lift | intros columns].
    apply stable_bind; [| intros _].
    { intros w Hw. unfold UserStats_save, mbind, M_bind, run_query.
      destruct (fault env _); cbn; [exact Hw |].
      eapply inserted_frame; [.. | exact Hw]; reflexivity. }
    apply stable_for_of. intros worker. apply inserted_update_worker.
  - apply stable_bind; [apply stable_get_world | intros w].
    destruct (db w); [apply stable_destroy | apply stable_ret].
Qed.

End Inserted.

(** X11: the sequential user script never looks a worker up: each worker
    of each user is inserted as a new Worker row. After a run, however it
    ends, the Worker table is the one from before followed by the rows
    inserted, whose ids are the next ones of the sequence, in order; and
    when every WorkerStats row carried the id of a Worker row before the
    run, every one does after it. *)
Theorem sequential_run_only_inserts_workers (env : environment) (s : store)
    (next_id : Z) :
  stats_linked s ->
  let after := (FromLogs.main env (initial_world s next_id)).2 in
  workers_appended s next_id after /\ stats_linked (committed after).
Proof.
  intros Hl after.
  assert (Hw : workers_appended s next_id (initial_world s next_id) /\
               stats_linked (committed (initial_world s next_id))).
  { split; [| exact Hl]. exists []. cbn. rewrite app_nil_r. repeat split. lia. }
  pose proof (inserted_run env s next_id _ Hw) as H.
  unfold after, FromLogs.main.
  destruct (FromLogs.updateUsersFromJson env (initial_world s next_id))
    as [[[] | e] w']; apply H.
Qed.

Lemma sequential_run_only_inserts_workers_witness :
  let after := (FromLogs.main (Sample.calm (Parsed Sample.one_worker))
                  (initial_world empty_store 1)).2 in
  workers_appended empty_store 1 after /\ stats_linked (committed after).
Proof.
  apply (sequential_run_only_inserts_workers (Sample.calm (Parsed Sample.one_worker))
           empty_store 1).
  constructor.
Defined.

(** ** What each script leaves alone *)

Section Footprint.

Context (Q : store -> Prop) (X : externals) (env : environment).

(** [Q] survives a change of the User rows, of the Worker rows, and a row
    added to one of the three tables of snapshots. *)
Hypothesis Q_user :
  forall s um, Q s ->
    Q (mkStore um (userStats s) (workers s) (workerStats s) (poolStats s)).
Hypothesis Q_userStats :
  forall s entity, Q s ->
    Q (mkStore (users s) (userStats s ++ [entity]) (workers s) (workerStats s)
         (poolStats s)).
Hypothesis Q_worker :
  forall s rows, Q s ->
    Q (mkStore (users s) (userStats s) rows (workerStats s) (poolStats s)).
Hypothesis Q_workerStats :
  forall s entity, Q s ->
    Q (mkStore (users s) (userStats s) (workers s) (workerStats s ++ [entity])
         (poolStats s)).
Hypothesis Q_poolStats :
  forall s entity, Q s ->
    Q (mkStore (users s) (userStats s) (workers s) (workerStats s)
         (poolStats s ++ [entity])).

Lemma footprint_User_save (h : handle) (entity : object) :
  stable (both Q) (User_save env h entity).
Proof. apply stable_User_save. intros s a Hs _. now apply Q_user. Qed.

Lemma footprint_finally :
  stable (both Q) (w ← get_world; if db w then destroy env else mret tt).
Proof.
  apply stable_bind; [apply stable_get_world | intros w].
  destruct (db w); [apply stable_destroy | apply stable_ret].
Qed.

Lemma footprint_FromLogs : stable (both Q) (FromLogs.updateUsersFromJson env).
Proof.
  unfold FromLogs.updateUsersFromJson.
  apply stable_try_finally; [| apply footprint_finally].
  apply stable_try_catch; [| intros e; apply stable_console_error].
  apply stable_bind; [apply stable_read_and_parse | intros json].
  apply stable_bind; [apply stable_getDb; intros ? ? H; exact H | intros _].
  apply stable_bind; [apply stable_modify; intros w; apply both_set_db | intros _].
  apply stable_for_of. intros [address user]. unfold FromLogs.update_user.
  apply stable_bind; [apply footprint_User_save | intros _].
  apply stable_bind; [apply stable_lift | intros columns].
  apply stable_bind;
    [apply stable_UserStats_save; intros ? ?; now apply Q_userStats | intros _].
  apply stable_for_of. intros [workerName workerData]. unfold FromLogs.update_worker.
  apply stable_bind; [apply stable_lift | intros columns'].
  apply stable_bind; [apply stable_Worker_save, Q_worker | intros workerEntity].
  apply stable_bind; [apply stable_lift | intros columns''].
  apply stable_bind;
    [apply stable_WorkerStats_save; intros ? ?; now apply Q_workerStats | intros _].
  apply stable_ret.
Qed.

Lemma footprint_unit_of_work (entry : string * P2PoolUser.t) :
  stable (both Q) (Batched.unit_of_work X env entry).
Proof.
  destruct entry as [address user]. unfold Batched.unit_of_work.
  apply stable_bind; [apply stable_User_findOne | intros dbUser].
  apply stable_bind; [apply footprint_User_save | intros _].
  apply stable_bind; [apply stable_lift | intros userStats].
  apply stable_bind;
    [apply stable_UserStats_save; intros ? ?; now apply Q_userStats | intros _].
  apply stable_for_of. intros [workerName worker]. unfold Batched.upsert_worker.
  apply stable_bind; [apply stable_Worker_findOne | intros dbWorker].
  apply stable_bind; [apply stable_lift | intros workerValues].
  apply stable_bind; [apply stable_Worker_save, Q_worker | intros savedWorker].
  apply stable_bind;
    [apply stable_WorkerStats_save; intros ? ?; now apply Q_workerStats | intros _].
  apply stable_ret.
Qed.

Lemma footprint_settle_all (reaches_commit : string -> bool)
    (batch : list (string * P2PoolUser.t)) (w : world) :
  both Q w -> both Q (Batched.settle_all X env reaches_commit batch w).2.
Proof.
  revert w. induction batch as [| entry rest IH]; intros w Hw; cbn; [exact Hw |].
  pose proof (stable_transaction Q (reaches_commit entry.1) _
                (footprint_unit_of_work entry) w Hw) as Hstep.
  unfold Batched.settle.
  destruct (transaction _ _ w) as [r w']. specialize (IH w' Hstep).
  destruct (Batched.settle_all X env reaches_commit rest w') as [rs w'']. exact IH.
Qed.

Lemma footprint_Promise_all (batch : list (string * P2PoolUser.t)) :
  stable (both Q) (Batched.Promise_all X env batch).
Proof.
  intros w Hw. unfold Batched.Promise_all.
  pose proof (footprint_settle_all (fun _ => true) batch w Hw) as H1.
  pose proof (footprint_settle_all (survives env) batch w Hw) as H2.
  destruct (Batched.settle_all X env (fun _ => true) batch w) as [outcomes w'].
  destruct (Batched.first_rejection env batch outcomes); [exact H2 | exact H1].
Qed.

Lemma footprint_Batched : stable (both Q) (Batched.updateUsersFromJson X env).
Proof.
  unfold Batched.updateUsersFromJson.
  apply stable_bind; [apply stable_read_and_parse | intros json].
  apply stable_bind; [apply stable_getDb; intros ? ? H; exact H | intros _].
  apply stable_try_finally; [| apply stable_destroy].
  rewrite batch_loop_batches. apply stable_for_of. intros batch.
  intros w Hw. unfold Batched.Promise_all.
  pose proof (footprint_settle_all (fun _ => true) batch w Hw) as H1.
  pose proof (footprint_settle_all (survives env) batch w Hw) as H2.
  destruct (Batched.settle_all X env (fun _ => true) batch w) as [outcomes w'].
  destruct (Batched.first_rejection env batch outcomes); [exact H2 | exact H1].
Qed.

Lemma footprint_Seed : stable (both Q) (Seed.seed X env).
Proof.
  unfold Seed.seed.
  apply stable_try_finally; [| apply footprint_finally].
  apply stable_try_catch; [| intros e; apply stable_console_error].
  apply stable_bind; [apply stable_read_and_parse | intros json].
  apply stable_bind; [apply stable_lift | intros stats].
  apply stable_bind; [apply stable_getDb; intros ? ? H; exact H | intros _].
  apply stable_bind; [apply stable_modify; intros w; apply both_set_db | intros _].
  apply stable_bind; [apply stable_lift | intros hashrates].
  apply stable_bind;
    [apply stable_PoolStats_save; intros ? ?; now apply Q_poolStats | intros _].
  apply stable_for_of. intros u. unfold Seed.record_user.
  apply stable_bind; [apply footprint_User_save | intros _].
  apply stable_bind; [apply stable_lift | intros hashrate1d].
  apply stable_bind;
    [apply stable_UserStats_save; intros ? ?; now apply Q_userStats | intros _].
  apply stable_ret.
Qed.

Lemma footprint_Part001 : stable (both Q) (Part001.seed X env).
Proof.
  unfold Part001.seed.
  apply stable_try_finally; [| apply footprint_finally].
  apply stable_try_catch; [| intros e; apply stable_console_error].
  apply stable_bind; [| intros stats].
  { unfold Part001.fetchPoolStats.
    apply stable_bind; [| intros json; apply stable_lift].
    apply stable_try_catch; [apply stable_read_and_parse | intros e; apply stable_throw]. }
  apply stable_bind; [apply stable_getDb; intros ? ? H; exact H | intros _].
  apply stable_bind; [apply stable_modify; intros w; apply both_set_db | intros _].
  apply stable_bind; [apply stable_lift | intros hashrates].
  apply stable_bind;
    [apply stable_PoolStats_save; intros ? ?; now apply Q_poolStats | intros _].
  apply stable_ret.
Qed.

Context (s : store) (next_id : Z).

Local Abbreviation w0 := (initial_world s next_id).

Lemma FromLogs_leaves : Q s -> Q (committed (FromLogs.main env w0).2).
Proof.
  intros Hs. assert (Hw : both Q w0) by (split; exact Hs).
  pose proof (footprint_FromLogs w0 Hw) as H. unfold FromLogs.main.
  destruct (FromLogs.updateUsersFromJson env w0) as [[[] | e] w']; apply H.
Qed.

Lemma Batched_leaves : Q s -> Q (committed (Batched.main X env w0).2).
Proof.
  intros Hs. assert (Hw : both Q w0) by (split; exact Hs).
  pose proof (footprint_Batched w0 Hw) as H. unfold Batched.main.
  destruct (Batched.updateUsersFromJson X env w0) as [[[] | e] w']; apply H.
Qed.

Lemma Seed_leaves : Q s -> Q (committed (Seed.main X env w0).2).
Proof.
  intros Hs. assert (Hw : both Q w0) by (split; exact Hs).
  pose proof (footprint_Seed w0 Hw) as H. unfold Seed.main.
  destruct (Seed.seed X env w0) as [[[] | e] w']; apply H.
Qed.

Lemma Part001_leaves : Q s -> Q (committed (Part001.main X env w0).2).
Proof.
  intros Hs. assert (Hw : both Q w0) by (split; exact Hs).
  pose proof (footprint_Part001 w0 Hw) as H. unfold Part001.main.
  destruct (Part001.seed X env w0) as [[[] | e] w']; apply H.
Qed.

End Footprint.

Section History.

Context (before : store).

Lemma history_kept_refl : history_kept before before.
Proof. repeat split; reflexivity. Qed.

Lemma history_kept_elsewhere (s : store) (um : gmap string object) (ws : list object) :
  history_kept before s ->
  history_kept before (mkStore um (userStats s) ws (workerStats s) (poolStats s)).
Proof. intros H. exact H. Qed.

Lemma history_kept_userStats (s : store) (entity : object) :
  history_kept before s ->
  history_kept before
    (mkStore (users s) (userStats s ++ [entity]) (workers s) (workerStats s)
       (poolStats s)).
Proof.
  intros (H1 & H2 & H3). repeat split; try assumption.
  cbn. now apply prefix_app_r.
Qed.

Lemma history_kept_workerStats (s : store) (entity : object) :
  history_kept before s ->
  history_kept before
    (mkStore (users s) (userStats s) (workers s) (workerStats s ++ [entity])
       (poolStats s)).
Proof.
  intros (H1 & H2 & H3). repeat split; try assumption.
  cbn. now apply prefix_app_r.
Qed.

Lemma history_kept_poolStats (s : store) (entity : object) :
  history_kept before s ->
  history_kept before
    (mkStore (users s) (userStats s) (workers s) (workerStats s)
       (poolStats s ++ [entity])).
Proof.
  intros (H1 & H2 & H3). repeat split; try assumption.
  cbn. now apply prefix_app_r.
Qed.

End History.

(** X12: no script deletes or rewrites a snapshot row. After any run of
    any of the four scripts, however it ends, the UserStats, WorkerStats
    and PoolStats tables begin with the rows they held before, in the
    same order. *)
Theorem snapshot_rows_are_only_appended (X : externals) (env : environment)
    (s : store) (next_id : Z) :
  let w0 := initial_world s next_id in
  history_kept s (committed (FromLogs.main env w0).2) /\
  history_kept s (committed (Batched.main X env w0).2) /\
  history_kept s (committed (Seed.main X env w0).2) /\
  history_kept s (committed (Part001.main X env w0).2).
Proof.
  intros w0. split; [| split; [| split]].
  - apply (FromLogs_leaves (history_kept s)); try apply history_kept_refl.
    + intros s' um. apply history_kept_elsewhere.
    + apply history_kept_userStats.
    + intros s' rows. apply history_kept_elsewhere.
    + apply history_kept_workerStats.
  - apply (Batched_leaves (history_kept s)); try apply history_kept_refl.
    + intros s' um. apply history_kept_elsewhere.
    + apply history_kept_userStats.
    + intros s' rows. apply history_kept_elsewhere.
    + apply history_kept_workerStats.
  - apply (Seed_leaves (history_kept s)); try apply history_kept_refl.
    + intros s' um. apply history_kept_elsewhere.
    + apply history_kept_userStats.
    + apply history_kept_poolStats.
  - apply (Part001_leaves (history_kept s)); try apply history_kept_refl.
    apply history_kept_poolStats.
Qed.

(** X13: each script keeps to its tables, however the run ends. The pool
    script of [src/unnamed/part_001] leaves the User, UserStats, Worker
    and WorkerStats tables as they were; the top-ten script leaves the
    Worker and WorkerStats tables; the two user scripts leave the
    PoolStats table. *)
Theorem scripts_keep_to_their_tables (X : externals) (env : environment)
    (s : store) (next_id : Z) :
  let w0 := initial_world s next_id in
  let pool_only := committed (Part001.main X env w0).2 in
  let top_ten := committed (Seed.main X env w0).2 in
  (users pool_only = users s /\ userStats pool_only = userStats s /\
   workers pool_only = workers s /\ workerStats pool_only = workerStats s) /\
  (workers top_ten = workers s /\ workerStats top_ten = workerStats s) /\
  poolStats (committed (FromLogs.main env w0).2) = poolStats s /\
  poolStats (committed (Batched.main X env w0).2) = poolStats s.
Proof.
  intros w0 pool_only top_ten. split; [| split; [| split]].
  - apply (Part001_leaves
             (fun s' => users s' = users s /\ userStats s' = userStats s /\
                        workers s' = workers s /\ workerStats s' = workerStats s));
      [| repeat split].
    intros s' entity H. exact H.
  - apply (Seed_leaves
             (fun s' => workers s' = workers s /\ workerStats s' = workerStats s));
      [| | | repeat split]; intros s' ? H; exact H.
  - apply (FromLogs_leaves (fun s' => poolStats s' = poolStats s));
      [| | | | reflexivity]; intros s' ? H; exact H.
  - apply (Batched_leaves (fun s' => poolStats s' = poolStats s));
      [| | | | reflexivity]; intros s' ? H; exact H.
Qed.

(** ** The shared connection of [lib/db.ts] *)


Section SharedConnection.

Import Db.

Lemma invariant_start : invariant start.
Proof.
  split; cbn.
  - intros p [H _]. cbn in H. lia.
  - intros p [=].
  - intros p H. now rewrite lookup_empty in H.
  - intros p [x H]. now rewrite lookup_empty in H.
  - constructor.
  - intros p. rewrite lookup_empty. split; [intros H; inversion H | intros [=]].
Qed.

Lemma invariant_getDb (st : state) : invariant st -> invariant (getDb st).2.
Proof.
  intros Hinv. unfold getDb.
  destruct (connectionPromise st) as [p |] eqn:Hslot; [exact Hinv |]. cbn.
  split; cbn.
  - intros q [Hq Hnone]. cbn in Hq, Hnone. f_equal.
    destruct (decide (q = initialize_calls st)) as [-> | Hne]; [reflexivity |].
    assert (Hpending : pending st q) by (split; [lia | exact Hnone]).
    apply (pending_is_held st Hinv) in Hpending. congruence.
  - intros q [= <-]. split; [lia |]. intros Hfalse.
    assert (H : is_Some (settled st !! initialize_calls st))
      by (exists false; exact Hfalse).
    apply (settled_is_made st Hinv) in H. lia.
  - intros q Hq. apply (fulfilled_is_held st Hinv) in Hq. congruence.
  - intros q Hq. apply (settled_is_made st Hinv) in Hq. lia.
  - apply (reported_once st Hinv).
  - apply (reported_iff st Hinv).
Qed.

Lemma invariant_settle (st : state) (p : nat) (fulfilled : bool) :
  invariant st -> pending st p -> invariant (settle p fulfilled st).
Proof.
  intros Hinv Hp. pose proof (pending_is_held st Hinv p Hp) as Hslot.
  destruct Hp as [Hmade Hnone].
  assert (Hother : forall q, q <> p -> ~ pending st q).
  { intros q Hne Hq. apply (pending_is_held st Hinv) in Hq. congruence. }
  assert (Hnot_fulfilled : forall q, q <> p -> settled st !! q <> Some true).
  { intros q Hne Hq. apply (fulfilled_is_held st Hinv) in Hq. congruence. }
  unfold settle. destruct fulfilled; split; cbn.
  - intros q [Hq Hq']. cbn in Hq, Hq'. destruct (decide (q = p)) as [-> | Hne].
    + now rewrite lookup_insert_eq in Hq'.
    + rewrite lookup_insert_ne in Hq' by congruence. now destruct (Hother q Hne).
  - intros q Hq. rewrite Hslot in Hq. injection Hq as <-. split; [exact Hmade |].
    now rewrite lookup_insert_eq.
  - intros q Hq. destruct (decide (q = p)) as [-> | Hne]; [exact Hslot |].
    rewrite lookup_insert_ne in Hq by congruence. now destruct (Hnot_fulfilled q Hne).
  - intros q Hq. destruct (decide (q = p)) as [-> | Hne]; [exact Hmade |].
    rewrite lookup_insert_ne in Hq by congruence. now apply (settled_is_made st Hinv).
  - apply (reported_once st Hinv).
  - intros q. rewrite (reported_iff st Hinv).
    destruct (decide (q = p)) as [-> | Hne].
    + rewrite lookup_insert_eq, Hnone. split; intros [=].
    + now rewrite lookup_insert_ne by congruence.
  - intros q [Hq Hq']. cbn in Hq, Hq'. destruct (decide (q = p)) as [-> | Hne].
    + now rewrite lookup_insert_eq in Hq'.
    + rewrite lookup_insert_ne in Hq' by congruence. now destruct (Hother q Hne).
  - intros q [=].
  - intros q Hq. destruct (decide (q = p)) as [-> | Hne].
    + now rewrite lookup_insert_eq in Hq.
    + rewrite lookup_insert_ne in Hq by congruence. now destruct (Hnot_fulfilled q Hne).
  - intros q Hq. destruct (decide (q = p)) as [-> | Hne]; [exact Hmade |].
    rewrite lookup_insert_ne in Hq by congruence. now apply (settled_is_made st Hinv).
  - apply NoDup_app. split; [apply (reported_once st Hinv) | split].
    + intros q Hq Hq'. apply list_elem_of_singleton in Hq'. subst q.
      apply (reported_iff st Hinv) in Hq. congruence.
    + apply NoDup_singleton.
  - intros q. rewrite elem_of_app, (reported_iff st Hinv), list_elem_of_singleton.
    destruct (decide (q = p)) as [-> | Hne].
    + rewrite lookup_insert_eq. split; [reflexivity | now right].
    + rewrite lookup_insert_ne by congruence. split; [intros [H | H]; easy | now left].
Qed.

Lemma invariant_step (st st' : state) : invariant st -> step st st' -> invariant st'.
Proof.
  intros Hinv [| p fulfilled Hp]; [now apply invariant_getDb | now apply invariant_settle].
Qed.

Lemma reachable_invariant (st : state) : reachable st -> invariant st.
Proof.
  induction 1 as [| st st' _ IH Hstep]; [apply invariant_start |].
  now apply (invariant_step st).
Qed.

Lemma later_reachable (st st' : state) : reachable st -> later st st' -> reachable st'.
Proof.
  intros Hst. induction 1 as [| st' st'' _ IH Hstep]; [exact Hst |].
  now apply (reachable_step st').
Qed.

(** A promise that has settled stays as it settled, and the count of
    [initialize()] calls never goes down. *)
Lemma step_keeps (st st' : state) (p : nat) (b : bool) :
  step st st' -> settled st !! p = Some b ->
  settled st' !! p = Some b.
Proof.
  intros [| q fulfilled [_ Hq]] Hp.
  - unfold getDb. now destruct (connectionPromise st).
  - assert (q <> p) by congruence.
    unfold settle. destruct fulfilled; cbn; now rewrite lookup_insert_ne.
Qed.

Lemma later_keeps (st st' : state) (p : nat) (b : bool) :
  later st st' -> settled st !! p = Some b -> settled st' !! p = Some b.
Proof.
  intros Hlater Hp. induction Hlater as [| st' st'' _ IH Hstep]; [exact Hp |].
  now apply (step_keeps st' st'').
Qed.

End SharedConnection.

(** X14: in every state the process can reach, [getDb()] returns a promise
    that has not rejected; after the call at most one promise is pending,
    the one returned, so callers that arrive while [initialize()] is
    running share that attempt; and a call made while an attempt is
    pending changes nothing. *)
Theorem getDb_shares_the_pending_attempt (st : Db.state) :
  Db.reachable st ->
  let '(p, st') := Db.getDb st in
  Db.settled st' !! p <> Some false /\
  (forall q, Db.pending st' q -> q = p) /\
  (Db.pending st p -> st' = st).
Proof.
  intros Hst.
  pose proof (invariant_getDb st (reachable_invariant st Hst)) as Hinv'.
  pose proof (reachable_invariant st Hst) as Hinv.
  destruct (Db.getDb st) as [p st'] eqn:Hcall. cbn [snd] in Hinv'.
  assert (Hslot : Db.connectionPromise st' = Some p).
  { revert Hcall. unfold Db.getDb.
    destruct (Db.connectionPromise st) as [q |] eqn:Hq; intros [= <- <-]; [exact Hq |].
    reflexivity. }
  split; [| split].
  - now apply (Db.held_is_made st' Hinv').
  - intros q Hq. apply (Db.pending_is_held st' Hinv') in Hq. congruence.
  - intros Hp. apply (Db.pending_is_held st Hinv) in Hp.
    revert Hcall. unfold Db.getDb. rewrite Hp. now intros [= <-].
Qed.

(** X15: once a promise of [getDb()] is fulfilled, the process connects
    no more: in every later state [getDb()] returns that promise and
    leaves the state as it is, [initialize()] has not been called again,
    and no further error has been printed. *)
Theorem getDb_connects_once (st st' : Db.state) (p : nat) :
  Db.reachable st ->
  Db.settled st !! p = Some true ->
  Db.later st st' ->
  Db.getDb st' = (p, st') /\
  Db.initialize_calls st' = Db.initialize_calls st /\
  Db.errors st' = Db.errors st.
Proof.
  intros Hst Hp Hlater.
  induction Hlater as [| st' st'' Hlater IH Hstep].
  - split; [| split; reflexivity].
    pose proof (Db.fulfilled_is_held st (reachable_invariant st Hst) p Hp) as Hslot.
    unfold Db.getDb. now rewrite Hslot.
  - destruct IH as (Hcall & Hcalls & Herrors).
    assert (Hst' : Db.reachable st') by now apply (later_reachable st).
    assert (Hslot' : Db.connectionPromise st' = Some p).
    { revert Hcall. unfold Db.getDb.
      destruct (Db.connectionPromise st') as [q |] eqn:Hq; [now intros [= ->] |].
      intros [= _ H]. rewrite <- H in Hq. discriminate Hq. }
    assert (Hp' : Db.settled st' !! p = Some true) by now apply (later_keeps st).
    destruct Hstep as [| q fulfilled Hq].
    + rewrite Hcall. cbn [snd]. now rewrite Hcall.
    + exfalso. pose proof (Db.pending_is_held st' (reachable_invariant st' Hst') q Hq).
      assert (q = p) by congruence. subst q. destruct Hq as [_ Hq]. congruence.
Qed.

(** X16: each failed attempt is reported once, whatever the number of
    callers that awaited it: the attempts printed by [console.error] are
    exactly the rejected promises, none twice; and a rejected promise is
    never the one [connectionPromise] holds, so the next call tries
    again. *)
Theorem getDb_reports_each_failure_once (st : Db.state) :
  Db.reachable st ->
  NoDup (Db.errors st) /\
  (forall p, p ∈ Db.errors st <-> Db.settled st !! p = Some false) /\
  (forall p, Db.settled st !! p = Some false -> Db.connectionPromise st <> Some p).
Proof.
  intros Hst. pose proof (reachable_invariant st Hst) as Hinv. split; [| split].
  - apply (Db.reported_once st Hinv).
  - apply (Db.reported_iff st Hinv).
  - intros p Hp Hslot. now apply (Db.held_is_made st Hinv) in Hslot as [_ H].
Qed.

Lemma connected_reachable : Db.reachable Db.connected.
Proof.
  unfold Db.connected, Db.failed_once.
  eapply Db.reachable_step;
    [| apply Db.step_settle; split; [cbn; lia | reflexivity]].
  eapply Db.reachable_step; [| apply Db.step_call].
  eapply Db.reachable_step;
    [| apply Db.step_settle; split; [cbn; lia | reflexivity]].
  eapply Db.reachable_step; [apply Db.reachable_start | apply Db.step_call].
Qed.

Lemma getDb_shares_the_pending_attempt_witness :
  (Db.getDb (Db.getDb Db.failed_once).2).2 = (Db.getDb Db.failed_once).2.
Proof.
  assert (Hst : Db.reachable (Db.getDb Db.failed_once).2).
  { eapply Db.reachable_step; [| apply Db.step_call].
    eapply Db.reachable_step;
      [| apply Db.step_settle; split; [cbn; lia | reflexivity]].
    eapply Db.reachable_step; [apply Db.reachable_start | apply Db.step_call]. }
  pose proof (getDb_shares_the_pending_attempt _ Hst) as H. cbn in H.
  destruct H as (_ & _ & H). apply H. split; [cbn; lia | reflexivity].
Defined.

Lemma getDb_connects_once_witness :
  Db.getDb (Db.getDb Db.connected).2 = (1%nat, (Db.getDb Db.connected).2) /\
  Db.initialize_calls (Db.getDb Db.connected).2 = 2%nat /\
  Db.errors (Db.getDb Db.connected).2 = [0%nat].
Proof.
  apply (getDb_connects_once Db.connected (Db.getDb Db.connected).2 1).
  - exact connected_reachable.
  - reflexivity.
  - eapply Db.later_step; [apply Db.later_now | apply Db.step_call].
Defined.

Lemma getDb_reports_each_failure_once_witness :
  NoDup (Db.errors Db.connected) /\
  (forall p, p ∈ Db.errors Db.connected <-> Db.settled Db.connected !! p = Some false) /\
  (forall p, Db.settled Db.connected !! p = Some false ->
     Db.connectionPromise Db.connected <> Some p).
Proof.
  apply (getDb_reports_each_failure_once Db.connected). exact connected_reachable.
Defined.

(** ** The stored [lastShare] *)

Section ManagerAppends.

Context (Q : store -> Prop) (X : externals) (env : environment).

Hypothesis Q_worker :
  forall s rows, Q s ->
    Q (mkStore (users s) (userStats s) rows (workerStats s) (poolStats s)).
Hypothesis Q_workerStats :
  forall s entity, Q s ->
    Q (mkStore (users s) (userStats s) (workers s) (workerStats s ++ [entity])
         (poolStats s)).

(** [Q] holds of the rows the open transaction sees, and the worker loop
    keeps it. *)
Lemma appended_upsert_workers (address : string)
    (workers : list (string * P2PoolWorker.t)) :
  stable (fun w => Q (working w)) (for_of workers (Batched.upsert_worker X env address)).
Proof.
  apply stable_for_of. intros [workerName worker]. unfold Batched.upsert_worker.
  apply stable_bind; [| intros dbWorker].
  { unfold Worker_findOne.
    apply stable_bind; [apply stable_run_query | intros _].
    apply stable_bind; [apply stable_get_world | intros w; apply stable_ret]. }
  apply stable_bind; [apply stable_lift | intros workerValues].
  apply stable_bind; [| intros savedWorker].
  { intros w Hw. unfold Worker_save, mbind, M_bind, run_query.
    destruct (fault env _); cbn; [exact Hw |].
    destruct (id_of (_ !! "id")); cbn; now apply Q_worker. }
  apply stable_bind; [| intros _; apply stable_ret].
  intros w Hw. unfold WorkerStats_save, mbind, M_bind, run_query.
  destruct (fault env _); cbn; [exact Hw |]. now apply Q_workerStats.
Qed.

End ManagerAppends.

Section StoredLastShare.

Context (X : externals) (env : environment) (before : store).

Lemma userStats_userAddress (address : string) (user : P2PoolUser.t) (row : object) :
  Batched.userStats_of X address user = Ok row ->
  row !! "userAddress" = Some (VString address).
Proof.
  unfold Batched.userStats_of.
  destruct (Batched.converted_columns X _) as [columns |] eqn:E; cbn; [| intros [=]].
  apply converted_columns_keys in E as (h1m & h5m & h1hr & h1d & h7d & ->).
  intros [= <-]. reflexivity.
Qed.

Lemma stored_elsewhere (a text : string) (s : store) (um : gmap string object)
    (ws wss ps : list object) :
  lastShare_stored before a text s ->
  lastShare_stored before a text (mkStore um (userStats s) ws wss ps).
Proof. intros H. exact H. Qed.

Lemma stored_userStats (a text : string) (s : store) (entity : object) :
  lastShare_stored before a text s ->
  lastShare_stored before a text
    (mkStore (users s) (userStats s ++ [entity]) (workers s) (workerStats s)
       (poolStats s)).
Proof.
  intros (appended & row & Hrows & Hin & Haddress & Hlast).
  exists (appended ++ [entity]), row. cbn [userStats].
  rewrite Hrows, <- app_assoc. repeat split; try assumption.
  apply elem_of_app. now left.
Qed.

Lemma stored_settle_all (a text : string) (reaches_commit : string -> bool)
    (batch : list (string * P2PoolUser.t)) (w : world) :
  both (lastShare_stored before a text) w ->
  both (lastShare_stored before a text)
    (Batched.settle_all X env reaches_commit batch w).2.
Proof.
  apply (footprint_settle_all (lastShare_stored before a text)).
  - intros s um. apply stored_elsewhere.
  - intros s entity. apply stored_userStats.
  - intros s rows. apply stored_elsewhere.
  - intros s entity. apply stored_elsewhere.
Qed.

Lemma stored_Promise_all (a text : string) (batch : list (string * P2PoolUser.t)) :
  stable (both (lastShare_stored before a text)) (Batched.Promise_all X env batch).
Proof.
  apply (footprint_Promise_all (lastShare_stored before a text)).
  - intros s um. apply stored_elsewhere.
  - intros s entity. apply stored_userStats.
  - intros s rows. apply stored_elsewhere.
  - intros s entity. apply stored_elsewhere.
Qed.

Lemma kept_settle_all (reaches_commit : string -> bool)
    (batch : list (string * P2PoolUser.t)) (w : world) :
  both (history_kept before) w ->
  both (history_kept before) (Batched.settle_all X env reaches_commit batch w).2.
Proof.
  apply (footprint_settle_all (history_kept before)).
  - intros s um. apply history_kept_elsewhere.
  - apply history_kept_userStats.
  - intros s rows. apply history_kept_elsewhere.
  - apply history_kept_workerStats.
Qed.

Lemma kept_Promise_all (batch : list (string * P2PoolUser.t)) :
  stable (both (history_kept before)) (Batched.Promise_all X env batch).
Proof.
  apply (footprint_Promise_all (history_kept before)).
  - intros s um. apply history_kept_elsewhere.
  - apply history_kept_userStats.
  - intros s rows. apply history_kept_elsewhere.
  - apply history_kept_workerStats.
Qed.

(** The manager sees the UserStats row of the address, with the computed
    [lastShare], once the unit of work is done. *)
Lemma unit_of_work_stores (a : string) (user : P2PoolUser.t) (w w' : world) :
  history_kept before (working w) ->
  Batched.unit_of_work X env (a, user) w = (Ok tt, w') ->
  lastShare_stored before a (Batched.lastShare X user) (working w').
Proof.
  intros (Hprefix & _). destruct Hprefix as [appended Hrows].
  unfold Batched.unit_of_work. unfold mbind at 1, M_bind at 1.
  rewrite User_findOne_run.
  destruct (fault env (Find TUser _)); [intros [=] |]. cbn [view].
  match goal with |- context [User_save env EntityManager ?e] => set (entity := e) end.
  unfold mbind at 1, M_bind at 1.
  destruct (User_save env EntityManager entity w) as [[saved | e] w2] eqn:Hsave;
    [| intros [=]].
  assert (Hw2 : userStats (working w2) = userStats (working w)).
  { revert Hsave. unfold User_save, mbind, M_bind, run_query.
    destruct (fault env _); cbn; [intros [=] |].
    destruct (string_of (entity !! "address")); cbn; [| intros [=]].
    now intros [= _ <-]. }
  unfold mbind at 1, M_bind at 1, lift.
  destruct (Batched.userStats_of X a user) as [row | e] eqn:Hrow; [| intros [=]].
  unfold mbind at 1, M_bind at 1.
  destruct (UserStats_save env EntityManager row w2) as [[saved' | e] w3] eqn:Hstats;
    [| intros [=]].
  assert (Hw3 : lastShare_stored before a (Batched.lastShare X user) (working w3)).
  { revert Hstats. unfold UserStats_save, mbind, M_bind, run_query.
    destruct (fault env _); cbn; [intros [=] |]. intros [= _ <-]. cbn.
    exists (appended ++ [row]), row. cbn [userStats].
    rewrite Hw2, Hrows, <- app_assoc. split; [reflexivity |].
    split; [apply elem_of_app; right; apply list_elem_of_here |].
    split; [now apply (userStats_userAddress a user) |].
    now apply (userStats_lastShare X a user). }
  intros Hrest.
  pose proof (appended_upsert_workers
                (lastShare_stored before a (Batched.lastShare X user)) X env
                (fun _ _ H => H) (fun _ _ H => H) a
                (entries (P2PoolUser.workers user)) w3 Hw3) as Hstable.
  rewrite Hrest in Hstable. exact Hstable.
Qed.

Lemma settle_stores (a : string) (user : P2PoolUser.t) (w w' : world) :
  both (history_kept before) w ->
  Batched.settle X env (fun _ => true) (a, user) w = (Ok tt, w') ->
  both (lastShare_stored before a (Batched.lastShare X user)) w'.
Proof.
  intros [Hc _]. unfold Batched.settle, transaction. cbn [fst].
  destruct (Batched.unit_of_work X env (a, user) (set_working (committed w) w))
    as [[[] | e] w_end] eqn:Hunit; [| intros [=]].
  intros [= <-].
  apply unit_of_work_stores in Hunit; [| exact Hc].
  split; exact Hunit.
Qed.

Lemma settle_all_stores (batch : list (string * P2PoolUser.t)) (w : world) :
  both (history_kept before) w ->
  Batched.first_rejection env batch
    (Batched.settle_all X env (fun _ => true) batch w).1 = None ->
  forall entry, entry ∈ batch ->
    both (lastShare_stored before entry.1 (Batched.lastShare X entry.2))
      (Batched.settle_all X env (fun _ => true) batch w).2.
Proof.
  revert w. induction batch as [| [a user] rest IH]; intros w Hw Hnone entry Hin;
    [inversion Hin |].
  pose proof (kept_settle_all (fun _ => true) [(a, user)] w Hw) as Hkept.
  pose proof (stored_settle_all entry.1 (Batched.lastShare X entry.2)
                (fun _ => true) rest) as Hkeep.
  cbn in Hnone, Hkept |- *.
  destruct (Batched.settle X env (fun _ => true) (a, user) w) as [r w1] eqn:Hsettle.
  specialize (IH w1). specialize (Hkeep w1).
  destruct (Batched.settle_all X env (fun _ => true) rest w1) as [rs w2].
  cbn in Hnone, Hkept, IH, Hkeep |- *.
  apply first_rejection_cons in Hnone as [-> Hnone].
  apply elem_of_cons in Hin as [-> | Hin].
  - apply Hkeep. now apply (settle_stores a user w).
  - now apply IH.
Qed.

Lemma Promise_all_stores (batch : list (string * P2PoolUser.t)) (w w' : world) :
  both (history_kept before) w ->
  Batched.Promise_all X env batch w = (Ok tt, w') ->
  forall entry, entry ∈ batch ->
    both (lastShare_stored before entry.1 (Batched.lastShare X entry.2)) w'.
Proof.
  intros Hw. unfold Batched.Promise_all.
  pose proof (settle_all_stores batch w Hw) as H.
  destruct (Batched.settle_all X env (fun _ => true) batch w) as [outcomes w1].
  cbn [fst snd] in H.
  destruct (Batched.first_rejection env batch outcomes); [intros [=] |].
  intros [= <-]. now apply H.
Qed.

Lemma batches_store (groups : list (list (string * P2PoolUser.t))) (w w' : world) :
  both (history_kept before) w ->
  for_of groups (Batched.Promise_all X env) w = (Ok tt, w') ->
  forall entry, entry ∈ concat groups ->
    both (lastShare_stored before entry.1 (Batched.lastShare X entry.2)) w'.
Proof.
  revert w. induction groups as [| batch groups IH]; intros w Hw Hrun entry Hin;
    [inversion Hin |].
  cbn [for_of] in Hrun. unfold mbind, M_bind in Hrun.
  destruct (Batched.Promise_all X env batch w) as [[[] | e] w1] eqn:Hbatch;
    [| discriminate Hrun].
  pose proof (kept_Promise_all batch w Hw) as Hkept. rewrite Hbatch in Hkept.
  cbn [concat] in Hin. apply elem_of_app in Hin as [Hin | Hin].
  - pose proof (stable_for_of _ groups _
                  (stored_Promise_all entry.1 (Batched.lastShare X entry.2)) w1
                  (Promise_all_stores batch w w1 Hw Hbatch entry Hin)) as Hkeep.
    now rewrite Hrun in Hkeep.
  - now apply (IH w1).
Qed.

(** After a run that resolves, every user of the snapshot has its row. *)
Lemma resolved_run_stores (next_id : Z) (json : P2PoolJson.t)
    (address : string) (user : P2PoolUser.t) :
  file env = Parsed json ->
  (Batched.updateUsersFromJson X env (initial_world before next_id)).1 = Ok tt ->
  (address, user) ∈ entries (P2PoolJson.users json) ->
  lastShare_stored before address (Batched.lastShare X user)
    (committed (Batched.main X env (initial_world before next_id)).2).
Proof.
  intros Hfile Hrun Hin.
  unfold Batched.main.
  destruct (Batched.updateUsersFromJson X env (initial_world before next_id))
    as [r w'] eqn:Hrun'. cbn [fst] in Hrun. subst r. cbn [snd].
  revert Hrun'. unfold Batched.updateUsersFromJson, read_and_parse. rewrite Hfile.
  erewrite run_bind by reflexivity. unfold getDb.
  destruct (connects env); [| intros [=]].
  erewrite run_bind by reflexivity. unfold try_finally.
  rewrite batch_loop_batches.
  destruct (for_of _ _ (initial_world before next_id)) as [[[] | e] w1] eqn:Hloop.
  - intros Hfin.
    assert (Hw1 : w' = w1).
    { destruct (destroy env w1) as [[[] | e] w2] eqn:Hd; [| discriminate Hfin].
      unfold destroy in Hd. destruct (destroys env); [| discriminate Hd].
      injection Hd as <-. now injection Hfin as <-. }
    subst w'.
    assert (Hkept : both (history_kept before) (initial_world before next_id))
      by (split; apply history_kept_refl).
    pose proof (batches_store _ _ _ Hkept Hloop (address, user)) as H.
    rewrite concat_batches, drop_0 in H. now apply H.
  - intros Hfin. destruct (destroy env w1) as [[[] | e'] w2]; discriminate Hfin.
Qed.

End StoredLastShare.

(** C10: the stored [lastShare] is the string of the maximum, over the
    user's workers, of the worker's [lastshare] (a missing one counting
    as 0): the string of one of these values, than which none is greater.
    It is "0" when the user has no [workers] member, and "-Infinity" when
    the member is there and the mapping is empty. This string is the
    [lastShare] of the UserStats entity the script builds for the user,
    and after a run of the batched script that resolves, a UserStats row
    appended for the user's address holds it. *)
Theorem lastShare_string (X : externals) (address : string) (user : P2PoolUser.t) :
  let lastshares (workers : list (string * P2PoolWorker.t)) :=
    (fun w => or_zero (P2PoolWorker.lastshare w)) <$> workers.*2 in
  (forall row, Batched.userStats_of X address user = Ok row ->
     row !! "lastShare" = Some (VString (Batched.lastShare X user))) /\
  (forall env s next_id json,
     file env = Parsed json ->
     (Batched.updateUsersFromJson X env (initial_world s next_id)).1 = Ok tt ->
     (address, user) ∈ entries (P2PoolJson.users json) ->
     lastShare_stored s address (Batched.lastShare X user)
       (committed (Batched.main X env (initial_world s next_id)).2)) /\
  (forall workers, P2PoolUser.workers user = Def workers ->
     Batched.lastShare X user = Number_toString X (Math_max (lastshares workers)) /\
     (workers <> [] ->
        Math_max (lastshares workers) ∈ lastshares workers /\
        Forall (fun x => SFltb (Math_max (lastshares workers)) x = false)
          (lastshares workers))) /\
  (missing (P2PoolUser.workers user) = true -> Batched.lastShare X user = "0") /\
  (P2PoolUser.workers user = Def [] -> Batched.lastShare X user = "-Infinity").
Proof.
  intros lastshares. split; [| split; [| split; [| split]]].
  - intros row. apply userStats_lastShare.
  - intros env s next_id json. apply resolved_run_stores.
  - intros workers Hw. unfold Batched.lastShare. rewrite Hw. split; [reflexivity |].
    intros Hne. apply Math_max_greatest.
    + unfold lastshares. rewrite Forall_fmap. apply Forall_forall.
      intros w _. apply or_zero_not_nan.
    + unfold lastshares. destruct workers; [congruence | discriminate].
  - intros Hw. unfold Batched.lastShare.
    destruct (P2PoolUser.workers user); try discriminate Hw; reflexivity.
  - intros Hw. unfold Batched.lastShare. rewrite Hw. reflexivity.
Qed.

Lemma lastShare_string_witness :
  lastShare_stored empty_store "addr1" "-Infinity"
    (committed (Batched.main Sample.externals_stub (Sample.calm (Parsed Edge.no_workers))
                  (initial_world empty_store 1)).2).
Proof.
  destruct (lastShare_string Sample.externals_stub "addr1"
              (P2PoolUser.mk Undefined (Def []) Undefined Undefined Undefined Undefined))
    as (_ & Hrun & _ & _ & Hempty).
  rewrite <- Hempty by reflexivity.
  apply (Hrun (Sample.calm (Parsed Edge.no_workers)) empty_store 1 Edge.no_workers).
  - reflexivity.
  - vm_compute. reflexivity.
  - apply list_elem_of_here.
Defined.
